(** * Topo to STL: the decimation planner, the solid mesh builder, the
    colormap and the export scaling helper

    Shallow embedding of [clamp], [viridis], [scalePositionsFromGeometry],
    [calcSteps] and [buildSolidGeometry] of
    [topo_to_stl_シンプル_3_d地図メーカー（react）.jsx], of the download
    name of [exportSTL], and of two parts of [loadNetCDF]: the choice of the
    variables ([findFirst]) and the loop that computes the displayed
    elevation range.

    Conventions of the embedding.
    - A JavaScript number that is used as a size, a stride or an index is
      an integer of [Z].
    - Any other JavaScript number is a [num]: a real, [NaN], [Infinity] or
      [-Infinity]; the sign of zero is not part of the model.
    - [num_add], [num_sub], [num_mul] and [num_div] are the exact
      operations.  In [buildSolidGeometry] and
      [scalePositionsFromGeometry] every arithmetic result is rounded to a
      double ([add64], [sub64], [mul64], [div64]: round to nearest, ties to
      even, overflow to an infinity), a decimal literal that is not a
      double is the double nearest to it ([lit]), and every store into a
      [Float32Array] rounds to single precision ([Math_fround]).
      [Math.cos] is taken as the cosine rounded to a double.
    - [viridis] is kept in exact arithmetic, with [Math.pow] the exact
      power: what is proved about it are ranges and orderings.
    - A typed array is a list; a read outside it gives [undefined], which
      every arithmetic use turns into [NaN]; a write outside it is ignored
      (as stdpp's list insert does). *)

From Stdlib Require Import ZArith Reals Lra Lia List.
From stdpp Require Import base list.
From Stdlib Require Ascii String.
Import String.StringSyntax.

Local Open Scope Z_scope.

(** ** JavaScript numbers *)

Inductive num : Type :=
  | NaN
  | PInf
  | NInf
  | Fin (x : R).

(** The infinity that has the sign of [x]; [NaN] for zero (used for
    [Infinity * x] and for [x / 0]). *)
Definition inf_sign (x : R) : num :=
  if Rlt_dec 0 x then PInf else if Rlt_dec x 0 then NInf else NaN.

Definition num_neg (a : num) : num :=
  match a with
  | NaN => NaN
  | PInf => NInf
  | NInf => PInf
  | Fin x => Fin (- x)
  end.

Definition num_add (a b : num) : num :=
  match a, b with
  | NaN, _ | _, NaN => NaN
  | PInf, NInf | NInf, PInf => NaN
  | PInf, _ | _, PInf => PInf
  | NInf, _ | _, NInf => NInf
  | Fin x, Fin y => Fin (x + y)
  end.

Definition num_sub (a b : num) : num := num_add a (num_neg b).

Definition num_mul (a b : num) : num :=
  match a, b with
  | NaN, _ | _, NaN => NaN
  | PInf, PInf | NInf, NInf => PInf
  | PInf, NInf | NInf, PInf => NInf
  | PInf, Fin y | Fin y, PInf => inf_sign y
  | NInf, Fin y | Fin y, NInf => inf_sign (- y)
  | Fin x, Fin y => Fin (x * y)
  end.

Definition num_div (a b : num) : num :=
  match a, b with
  | NaN, _ | _, NaN => NaN
  | (PInf | NInf), (PInf | NInf) => NaN
  | PInf, Fin y => if Rlt_dec y 0 then NInf else PInf
  | NInf, Fin y => if Rlt_dec y 0 then PInf else NInf
  | Fin _, (PInf | NInf) => Fin 0
  | Fin x, Fin y => if Req_dec_T y 0 then inf_sign x else Fin (x / y)
  end.

(** [a < b]; false as soon as one side is [NaN]. *)
Definition num_lt (a b : num) : bool :=
  match a, b with
  | NaN, _ | _, NaN => false
  | _, NInf => false
  | PInf, _ => false
  | NInf, _ => true
  | Fin _, PInf => true
  | Fin x, Fin y => if Rlt_dec x y then true else false
  end.

Definition num_gt (a b : num) : bool := num_lt b a.

Definition num_max (a b : num) : num :=
  match a, b with
  | NaN, _ | _, NaN => NaN
  | PInf, _ | _, PInf => PInf
  | NInf, y => y
  | x, NInf => x
  | Fin x, Fin y => Fin (Rmax x y)
  end.

Definition num_min (a b : num) : num :=
  match a, b with
  | NaN, _ | _, NaN => NaN
  | NInf, _ | _, NInf => NInf
  | PInf, y => y
  | x, PInf => x
  | Fin x, Fin y => Fin (Rmin x y)
  end.

Definition Math_abs (a : num) : num :=
  match a with
  | NaN => NaN
  | PInf | NInf => PInf
  | Fin x => Fin (Rabs x)
  end.

Definition Math_cos (a : num) : num :=
  match a with
  | Fin x => Fin (cos x)
  | _ => NaN
  end.

(** [Math.pow(b, y)] for a finite exponent [y] (in the source every
    exponent is a literal).  An integer exponent is a repeated product or
    quotient; any other exponent needs a non-negative base. *)
Definition is_integer (y : R) : bool :=
  if Req_dec_T y (IZR (Int_part y)) then true else false.

Definition Math_pow (b : num) (y : R) : num :=
  if Req_dec_T y 0 then Fin 1
  else
    match b with
    | NaN => NaN
    | PInf => if Rlt_dec 0 y then PInf else Fin 0
    | NInf =>
        if Rlt_dec 0 y
        then (if is_integer y && Z.odd (Int_part y) then NInf else PInf)
        else Fin 0
    | Fin x =>
        if Req_dec_T x 0 then (if Rlt_dec 0 y then Fin 0 else PInf)
        else if is_integer y then Fin (powerRZ x (Int_part y))
        else if Rlt_dec 0 x then Fin (Rpower x y)
        else NaN
    end.

(** ** Doubles and singles *)

(** [2^e] *)
Definition bpow (e : Z) : R := powerRZ 2 e.

(** The exponent [e] with [2^(e-1) <= |x| < 2^e], for [x] not zero. *)
Definition mag (x : R) : Z := up (ln (Rabs x) / ln 2).

(** The exponent of the last place of [x] in the binary format of
    precision [prec] whose largest exponent is [emax]: binary64 is
    [prec = 53], [emax = 1024] and binary32 is [prec = 24], [emax = 128];
    the least exponent, that of the subnormal numbers, is
    [3 - emax - prec]. *)
Definition cexp (prec emax : Z) (x : R) : Z :=
  Z.max (mag x - prec) (3 - emax - prec).

(** The nearest integer, ties to even. *)
Definition rne (y : R) : Z :=
  let f := Zfloor y in
  let d := (y - IZR f)%R in
  if Rlt_dec d (1 / 2) then f
  else if Rlt_dec (1 / 2) d then f + 1
  else if Z.even f then f else f + 1.

(** Rounding to nearest, ties to even, before the test for overflow. *)
Definition round_real (prec emax : Z) (x : R) : R :=
  (IZR (rne (x * bpow (- cexp prec emax x))) * bpow (cexp prec emax x))%R.

(** Rounding to the format: a result of magnitude [2^emax] or more is an
    infinity. *)
Definition round (prec emax : Z) (x : R) : num :=
  let r := round_real prec emax x in
  if Rle_dec (bpow emax) (Rabs r) then (if Rlt_dec 0 r then PInf else NInf)
  else Fin r.

Definition to_format (prec emax : Z) (a : num) : num :=
  match a with
  | Fin x => round prec emax x
  | _ => a
  end.

(** The numbers of a format, exponent range aside. *)
Definition in_format (prec emax : Z) (x : R) : Prop :=
  exists n : Z, x = (IZR n * bpow (cexp prec emax x))%R.

(** The result of an arithmetic operation is rounded to a double; a store
    into a [Float32Array] rounds to single precision, as [Math.fround]
    does. *)
Definition f64 : num -> num := to_format 53 1024.
Definition Math_fround : num -> num := to_format 24 128.

Definition add64 (a b : num) : num := f64 (num_add a b).
Definition sub64 (a b : num) : num := f64 (num_sub a b).
Definition mul64 (a b : num) : num := f64 (num_mul a b).
Definition div64 (a b : num) : num := f64 (num_div a b).

(** A decimal literal: the double nearest to it. *)
Definition lit (x : R) : num := f64 (Fin x).

(** The rounding of a real to a double, where it does not overflow. *)
Definition double (x : R) : R := round_real 53 1024 x.

(** [Number.MAX_VALUE] *)
Definition MAX_VALUE : R := (IZR (2 ^ 53 - 1) * bpow 971)%R.

(** [Math.max] and [Math.min] are used on sizes and on reals alike. *)
Class MinMax (A : Type) := {
  Math_max : A -> A -> A;
  Math_min : A -> A -> A
}.

#[export] Instance MinMax_Z : MinMax Z :=
  {| Math_max := Z.max; Math_min := Z.min |}.
#[export] Instance MinMax_num : MinMax num :=
  {| Math_max := num_max; Math_min := num_min |}.

(** [Math.ceil(a / b)] for integers [a] and [b], [b] not zero (in the
    source the divisor is the clamped [maxDim] or a stride, both at least
    1). *)
Definition ceil_div (a b : Z) : Z := - ((- a) / b).

(** ** Utilities *)

Definition clamp {A : Type} `{MinMax A} (n min max : A) : A :=
  Math_max min (Math_min max n).

Definition MAX_DIM : Z := 1200.
Definition MAX_VERTICES : Z := 1500000.

(** ** The colormap *)

(** [a[k]] for the literal coefficient arrays of [viridis]. *)
Definition coef (l : list R) (k : nat) : num :=
  match nth_error l k with
  | Some x => Fin x
  | None => NaN
  end.

Definition viridis_exp (l : list R) (k : nat) : R := nth k l 0%R.

Definition viridis_a : list R := [0.280268; 0.165368; 0.476043]%R.
Definition viridis_b : list R := [0.23393; 0.472705; 0.310964]%R.
Definition viridis_c : list R := [0.043831; 0.530361; 0.393395]%R.
Definition viridis_d : list R := [2.0; 1.5; 1.0]%R.
Definition viridis_e : list R := [0.0; 0.5; 1.0]%R.

(** [a[k] + b[k] * Math.pow(t, d[k]) + c[k] * Math.pow(t, e[k])] *)
Definition viridis_poly (k : nat) (t : num) : num :=
  num_add
    (num_add (coef viridis_a k)
             (num_mul (coef viridis_b k) (Math_pow t (viridis_exp viridis_d k))))
    (num_mul (coef viridis_c k) (Math_pow t (viridis_exp viridis_e k))).

Definition viridis (t : num) : num * num * num :=
  let r := viridis_poly 0 t in
  let g := viridis_poly 1 t in
  let bl := viridis_poly 2 t in
  (Math_min (Fin 1) (Math_max (Fin 0) r),
   Math_min (Fin 1) (Math_max (Fin 0) g),
   Math_min (Fin 1) (Math_max (Fin 0) bl)).

(** ** Arrays and loops *)

(** [a[i]] read as a number. *)
Definition get (a : list num) (i : Z) : num :=
  if i <? 0 then NaN else default NaN (a !! Z.to_nat i).

(** [a[i] = v] on a typed array: nothing happens outside the array. *)
Definition set {A : Type} (a : list A) (i : Z) (v : A) : list A :=
  if i <? 0 then a else <[Z.to_nat i := v]> a.

(** [new Float32Array(n)] and [new Int32Array(n)]: [n] zeros. *)
Definition new_Float32Array (n : Z) : list num := replicate (Z.to_nat n) (Fin 0).
Definition new_Int32Array (n : Z) : list Z := replicate (Z.to_nat n) 0.

(** The conversion of a store into an [Int32Array]. *)
Definition to_int32 (z : Z) : Z := (z + 2 ^ 31) mod 2 ^ 32 - 2 ^ 31.

(** [for (let i = 0; i < n; i++) body], the body neither assigning [i] nor
    leaving the loop. *)
Definition for_upto {S : Type} (n : Z) (body : S -> Z -> S) (s : S) : S :=
  foldl (fun s i => body s (Z.of_nat i)) s (seq 0 (Z.to_nat n)).

(** ** Geometry objects *)

(** A [THREE.BufferGeometry] with its [position] and [color] attributes
    (item size 3) and its index.  Vertex normals and the bounding box,
    which three.js derives from these, are not modelled. *)
Record BufferGeometry : Type := {
  position : list num;
  color : list num;
  index : list Z
}.

(** [pos.count], [pos.getX(i)], [pos.getY(i)], [pos.getZ(i)] of the
    [position] attribute, as three.js defines them for a buffer of whole
    items: the length divided by the item size, and the components of item
    [i]. *)
Definition count (g : BufferGeometry) : Z := Z.of_nat (length (position g)) / 3.
Definition getX (g : BufferGeometry) (i : Z) : num := get (position g) (i * 3).
Definition getY (g : BufferGeometry) (i : Z) : num := get (position g) (i * 3 + 1).
Definition getZ (g : BufferGeometry) (i : Z) : num := get (position g) (i * 3 + 2).

(** ** Export scaling *)

(** The loop state is the fresh array together with the geometry that is
    read, so that what the call does to the geometry is part of the
    result.  Each product is a double, rounded to single precision by the
    store into the [Float32Array]. *)
Definition scale_body (scale : num) (st : list num * BufferGeometry) (i : Z)
  : list num * BufferGeometry :=
  let '(arr, g) := st in
  let arr := set arr (i * 3 + 0) (Math_fround (mul64 (getX g i) scale)) in
  let arr := set arr (i * 3 + 1) (Math_fround (mul64 (getY g i) scale)) in
  let arr := set arr (i * 3 + 2) (Math_fround (mul64 (getZ g i) scale)) in
  (arr, g).

Definition scalePositionsFromGeometry (g : BufferGeometry) (scale : num)
  : list num * BufferGeometry :=
  let arr := new_Float32Array (count g * 3) in
  for_upto (count g) (scale_body scale) (arr, g).

(** ** The decimation planner *)

Record Steps : Type := { stepY : Z; stepX : Z }.

(** The [while] loop of [calcSteps]: [estRows] and [estCols] are constants
    of the enclosing function, only [factor] changes.  One unit of fuel is
    one test of the loop condition. *)
Fixpoint calcSteps_loop (fuel : nat) (estRows estCols factor : Z) : Z :=
  match fuel with
  | O => factor
  | S fuel' =>
      if estRows * estCols * 2 >? MAX_VERTICES then
        let factor := factor + 1 in
        if factor >? 20 then factor
        else calcSteps_loop fuel' estRows estCols factor
      else factor
  end.

(** From [factor = 1] the body runs at most 20 times, the last time
    leaving through the [break]: the fuel is never exhausted (see
    [calcSteps_loop_fuel]). *)
Definition calcSteps (r c maxDim : Z) : Steps :=
  let stepY := Math_max 1 (ceil_div r maxDim) in
  let stepX := Math_max 1 (ceil_div c maxDim) in
  let estRows := ceil_div r stepY in
  let estCols := ceil_div c stepX in
  let factor := calcSteps_loop 21 estRows estCols 1 in
  {| stepY := stepY * factor; stepX := stepX * factor |}.

(** ** The solid mesh builder *)

(** [a[i]] where the index [i] was itself read from an [Int32Array]
    ([None] is [undefined]). *)
Definition get_at (a : list num) (i : option Z) : num :=
  match i with
  | Some i => get a i
  | None => NaN
  end.

(** [for (let i = 0, v = 0; i < n; i++, v += step) idx[i] = Math.min(v, last)]
    on [idx = new Int32Array(n)]. *)
Definition fill_idx_body (step last : Z) (st : list Z * Z) (i : Z) : list Z * Z :=
  let '(idx, v) := st in
  (set idx i (to_int32 (Math_min v last)), v + step).

Definition fill_idx (n step last : Z) : list Z :=
  fst (for_upto n (fill_idx_body step last) (new_Int32Array n, 0)).

(** [getZ(i, j) = Number(Z[i * C + j]) * exag] *)
Definition sample (Zg : list num) (C : Z) (exag : num) (i j : option Z) : num :=
  match i, j with
  | Some i, Some j => mul64 (get Zg (i * C + j)) exag
  | _, _ => mul64 NaN exag
  end.

(** The scan for the least and the greatest surface elevation; the state
    is [(zMinSurface, zMaxSurface)]. *)
Definition scan_body (Zg : list num) (C : Z) (exag : num)
    (rowsIdx colsIdx : list Z) (cols1 : Z) (st : num * num) (ii : Z)
  : num * num :=
  let i0 := rowsIdx !! Z.to_nat ii in
  for_upto cols1
    (fun st jj =>
       let '(zMinSurface, zMaxSurface) := st in
       let j0 := colsIdx !! Z.to_nat jj in
       let z := sample Zg C exag i0 j0 in
       let zMinSurface := if num_lt z zMinSurface then z else zMinSurface in
       let zMaxSurface := if num_gt z zMaxSurface then z else zMaxSurface in
       (zMinSurface, zMaxSurface))
    st.

Definition scan_surface (Zg : list num) (C : Z) (exag : num)
    (rowsIdx colsIdx : list Z) (rows1 cols1 : Z) : num * num :=
  for_upto rows1 (scan_body Zg C exag rowsIdx colsIdx cols1) (PInf, NInf).

(** The two output buffers with their write cursors [p] and [ci]. *)
Record Buffers : Type := {
  positions : list num;
  colors : list num;
  p : Z;
  ci : Z
}.

(** [positions[p++] = x; positions[p++] = y; positions[p++] = z;]
    [colors[ci++] = r; colors[ci++] = g; colors[ci++] = b;]
    Both buffers are [Float32Array]s: each store rounds to single
    precision. *)
Definition push_vertex (s : Buffers) (x y z r g b : num) : Buffers :=
  {| positions := set (set (set (positions s) (p s) (Math_fround x))
                           (p s + 1) (Math_fround y))
                      (p s + 2) (Math_fround z);
     colors := set (set (set (colors s) (ci s) (Math_fround r))
                        (ci s + 1) (Math_fround g))
                   (ci s + 2) (Math_fround b);
     p := p s + 3;
     ci := ci s + 3 |}.

(** The top surface. *)
Definition top_body (lats lons Zg : list num) (C : Z) (exag : num)
    (rowsIdx colsIdx : list Z) (cols1 : Z) (lat0 lon0 mPerDegLat mPerDegLon : num)
    (s : Buffers) (ii : Z) : Buffers :=
  let i0 := rowsIdx !! Z.to_nat ii in
  let y := mul64 (sub64 (get_at lats i0) lat0) mPerDegLat in
  for_upto cols1
    (fun s jj =>
       let j0 := colsIdx !! Z.to_nat jj in
       let x := mul64 (sub64 (get_at lons j0) lon0) mPerDegLon in
       let z := sample Zg C exag i0 j0 in
       push_vertex s x y z (Fin 0) (Fin 0) (Fin 0))
    s.

(** The flat bottom: the x and y of the top vertex are read back from
    [positions]. *)
Definition bottom_body (cols1 : Z) (bottomZ : num) (s : Buffers) (ii : Z) : Buffers :=
  for_upto cols1
    (fun s jj =>
       let idxTop := ii * cols1 + jj in
       let baseIdx := idxTop * 3 in
       push_vertex s
         (get (positions s) (baseIdx + 0))
         (get (positions s) (baseIdx + 1))
         bottomZ
         (lit 0.2) (lit 0.2) (lit 0.2))
    s.

(** The colors of the top surface: [z] is read back from the
    [Float32Array]. *)
Definition color_body (cols1 : Z) (zMinSurface dz : num) (s : Buffers) (ii : Z) : Buffers :=
  for_upto cols1
    (fun s jj =>
       let idxTop := ii * cols1 + jj in
       let z := get (positions s) (idxTop * 3 + 2) in
       let t := clamp (div64 (sub64 z zMinSurface) dz) (Fin 0) (Fin 1) in
       let '(r, g, b) := viridis t in
       let ci2 := idxTop * 3 in
       {| positions := positions s;
          colors := set (set (set (colors s) ci2 (Math_fround r))
                             (ci2 + 1) (Math_fround g))
                        (ci2 + 2) (Math_fround b);
          p := p s;
          ci := ci s |})
    s.

(** [faces.push(a, b, c, d, e, f)] *)
Definition push6 (faces : list Z) (a b c d e f : Z) : list Z :=
  faces ++ [a; b; c; d; e; f].

(** The triangles, in the order in which the source pushes them: top
    quads, the four side strips (row 0, row [rows1 - 1], column 0, column
    [cols1 - 1]), bottom quads. *)
Definition build_faces (rows1 cols1 : Z) : list Z :=
  let topVerts := rows1 * cols1 in
  let faces : list Z := [] in
  let top := fun r c : Z => r * cols1 + c in
  let bottom := fun r c : Z => topVerts + r * cols1 + c in
  let faces :=
    for_upto (rows1 - 1)
      (fun faces i =>
         for_upto (cols1 - 1)
           (fun faces j =>
              let v0 := top i j in
              let v1 := top i (j + 1) in
              let v2 := top (i + 1) j in
              let v3 := top (i + 1) (j + 1) in
              push6 faces v0 v1 v3 v0 v3 v2)
           faces)
      faces in
  let faces :=
    for_upto (cols1 - 1)
      (fun faces j =>
         let a := top 0 j in
         let b := top 0 (j + 1) in
         let A := bottom 0 j in
         let B := bottom 0 (j + 1) in
         push6 faces a A B a B b)
      faces in
  let faces :=
    for_upto (cols1 - 1)
      (fun faces j =>
         let a := top (rows1 - 1) j in
         let b := top (rows1 - 1) (j + 1) in
         let A := bottom (rows1 - 1) j in
         let B := bottom (rows1 - 1) (j + 1) in
         push6 faces a b B a B A)
      faces in
  let faces :=
    for_upto (rows1 - 1)
      (fun faces i =>
         let a := top i 0 in
         let b := top (i + 1) 0 in
         let A := bottom i 0 in
         let B := bottom (i + 1) 0 in
         push6 faces a A B a B b)
      faces in
  let faces :=
    for_upto (rows1 - 1)
      (fun faces i =>
         let a := top i (cols1 - 1) in
         let b := top (i + 1) (cols1 - 1) in
         let A := bottom i (cols1 - 1) in
         let B := bottom (i + 1) (cols1 - 1) in
         push6 faces a b B a B A)
      faces in
  for_upto (rows1 - 1)
    (fun faces i =>
       for_upto (cols1 - 1)
         (fun faces j =>
            let v0 := bottom i j in
            let v1 := bottom i (j + 1) in
            let v2 := bottom (i + 1) j in
            let v3 := bottom (i + 1) (j + 1) in
            push6 faces v0 v3 v1 v0 v2 v3)
         faces)
    faces.

(** What [buildSolidGeometry] returns, without [size] (the extent of the
    bounding box that three.js computes). *)
Record Solid : Type := {
  geom : BufferGeometry;
  rows1 : Z;
  cols1 : Z;
  bottomZ : num
}.

(** [shape] holds the numbers of rows and columns, both non-negative
    integers. *)
Definition buildSolidGeometry (lats lons Zg : list num) (shape : Z * Z)
    (exag base : num) (maxDim : Z) : Solid :=
  let '(R, C) := shape in
  let steps := calcSteps R C (clamp maxDim 100 MAX_DIM) in
  let rows1 := ceil_div R (stepY steps) in
  let cols1 := ceil_div C (stepX steps) in

  let avgLatDeg :=
    div64 (add64 (get lats 0) (get lats (Z.of_nat (length lats) - 1))) (Fin 2) in
  let avgLatRad := div64 (mul64 avgLatDeg (lit PI)) (Fin 180) in
  let mPerDegLat := Fin 111320 in
  let mPerDegLon := mul64 (Fin 111320) (f64 (Math_cos avgLatRad)) in

  let rowsIdx := fill_idx rows1 (stepY steps) (R - 1) in
  let colsIdx := fill_idx cols1 (stepX steps) (C - 1) in

  let lat0 := get_at lats (rowsIdx !! 0%nat) in
  let lon0 := get_at lons (colsIdx !! 0%nat) in

  let surface := scan_surface Zg C exag rowsIdx colsIdx rows1 cols1 in
  let zMinSurface := fst surface in
  let zMaxSurface := snd surface in

  let bottomZ := sub64 zMinSurface (Math_abs base) in

  let topVerts := rows1 * cols1 in
  let totalVerts := topVerts * 2 in

  let s := {| positions := new_Float32Array (totalVerts * 3);
              colors := new_Float32Array (totalVerts * 3);
              p := 0;
              ci := 0 |} in
  let s :=
    for_upto rows1
      (top_body lats lons Zg C exag rowsIdx colsIdx cols1
                lat0 lon0 mPerDegLat mPerDegLon) s in
  let s := for_upto rows1 (bottom_body cols1 bottomZ) s in

  let dz := Math_max (lit 1e-6) (sub64 zMaxSurface zMinSurface) in
  let s := for_upto rows1 (color_body cols1 zMinSurface dz) s in

  let faces := build_faces rows1 cols1 in
  {| geom := {| position := positions s; color := colors s; index := faces |};
     rows1 := rows1;
     cols1 := cols1;
     bottomZ := bottomZ |}.

(** ** The inputs of the self-tests ([runTests]) *)

Definition test3_lats : list num := [Fin 0; Fin 0.1; Fin 0.2].
Definition test3_lons : list num := [Fin 0; Fin 0.1; Fin 0.2].
Definition test3_Z : list num :=
  [Fin 0; Fin 1; Fin 2; Fin 3; Fin 4; Fin 5; Fin 6; Fin 7; Fin 8].

Definition test_geom : BufferGeometry :=
  {| position := [Fin 1; Fin 2; Fin 3; Fin 4; Fin 5; Fin 6];
     color := [];
     index := [] |}.

Definition test2_lats : list num := [Fin 0; Fin 0.1].
Definition test2_lons : list num := [Fin 0; Fin 0.1].
Definition test2_Z : list num := [Fin (-50); Fin (-20); Fin (-10); Fin (-30)].

(** The elevation stored at row [i] and column [j] of a grid with [C]
    columns, when it is a real. *)
Definition elevation (Zg : list num) (C : Z) (i j : Z) : R :=
  match get Zg (i * C + j) with
  | Fin x => x
  | _ => 0%R
  end.

(** ** The index buffer as triangles *)

(** The index buffer read three entries at a time, the way three.js and
    its STL exporter take one triangle from it. *)
Fixpoint triangles (faces : list Z) : list (Z * Z * Z) :=
  match faces with
  | a :: b :: c :: rest => (a, b, c) :: triangles rest
  | _ => []
  end.

(** The three sides of a triangle, each from one corner to the next in the
    order of the indices. *)
Definition directed_edges (t : Z * Z * Z) : list (Z * Z) :=
  let '(a, b, c) := t in [(a, b); (b, c); (c, a)].

(** ** Strings *)

#[local] Delimit Scope string_scope with string.

(** A JavaScript string is the list of its characters; the models below
    are about names made of ASCII characters. *)
Definition str (s : String.string) : list Ascii.ascii :=
  String.list_ascii_of_string s.
Arguments str s%_string.

Definition dot : Ascii.ascii := Ascii.ascii_of_nat 46.

(** ** Export *)

(** The export unit, ["mm"] or ["m"]. *)
Inductive ExportUnit : Type :=
  | Unit_mm
  | Unit_m.

Definition unit_name (unit : ExportUnit) : list Ascii.ascii :=
  match unit with
  | Unit_mm => str "mm"
  | Unit_m => str "m"
  end.

(** [[^.]+$] from the current position: at least one character up to the
    end of the string, none of them a dot. *)
Definition no_dot_to_end (s : list Ascii.ascii) : bool :=
  match s with
  | [] => false
  | _ => forallb (fun ch => negb (Ascii.eqb ch dot)) s
  end.

(** [fileName.replace(/\.[^.]+$/, "")]: the search tries each position
    from the left; where a dot is followed by [[^.]+$] the match, which
    runs to the end, is replaced by the empty string. *)
Fixpoint strip_extension (fileName : list Ascii.ascii) : list Ascii.ascii :=
  match fileName with
  | [] => []
  | ch :: rest =>
      if Ascii.eqb ch dot && no_dot_to_end rest then []
      else ch :: strip_extension rest
  end.

(** [`${base}_solid_${unit}.stl`] with
    [base = fileName ? fileName.replace(...) : "terrain"]; the empty
    string is the falsy file name. *)
Definition download_name (fileName : list Ascii.ascii) (unit : ExportUnit)
  : list Ascii.ascii :=
  let base :=
    match fileName with
    | [] => str "terrain"
    | _ => strip_extension fileName
    end in
  base ++ str "_solid_" ++ unit_name unit ++ str ".stl".

(** ** Loading: the displayed elevation range *)

(** The loop of [loadNetCDF] that computes [minV] and [maxV]:
    [for (let i = 0; i < Zraw.length;
          i += Math.max(1, Math.floor(Zraw.length / 500_000)))].
    One unit of fuel is one test of the loop condition; the state is
    [(minV, maxV)]. *)
Definition range_stride (Zraw : list num) : Z :=
  Math_max 1 (Z.of_nat (length Zraw) / 500000).

Fixpoint range_loop (fuel : nat) (Zraw : list num) (i : Z) (st : num * num)
  : num * num :=
  match fuel with
  | O => st
  | S fuel' =>
      if i <? Z.of_nat (length Zraw) then
        let v := get Zraw i in
        let '(minV, maxV) := st in
        let minV := if num_lt v minV then v else minV in
        let maxV := if num_gt v maxV then v else maxV in
        range_loop fuel' Zraw (i + range_stride Zraw) (minV, maxV)
      else st
  end.

(** The index grows by at least 1 each round, so as many units of fuel as
    there are elements, and one more for the last test, are enough (see
    [range_loop_fuel]). *)
Definition elevation_range (Zraw : list num) : num * num :=
  range_loop (S (length Zraw)) Zraw 0 (PInf, NInf).

(** ** Loading: the choice of the variables *)

(** [toLowerCase] on an ASCII character. *)
Definition to_lower_char (ch : Ascii.ascii) : Ascii.ascii :=
  let n := Ascii.nat_of_ascii ch in
  if (65 <=? n)%nat && (n <=? 90)%nat then Ascii.ascii_of_nat (n + 32) else ch.

Definition toLowerCase (s : list Ascii.ascii) : list Ascii.ascii :=
  map to_lower_char s.

(** [s.startsWith(c)] and [s.includes(c)]. *)
Fixpoint starts_with (s c : list Ascii.ascii) : bool :=
  match c, s with
  | [], _ => true
  | _ :: _, [] => false
  | x :: c', y :: s' => Ascii.eqb x y && starts_with s' c'
  end.

Fixpoint includes (s c : list Ascii.ascii) : bool :=
  starts_with s c ||
  match s with
  | [] => false
  | _ :: s' => includes s' c
  end.

Definition elevCandidates : list (list Ascii.ascii) :=
  [str "elevation"; str "z"; str "bathymetry"; str "bedrock"].
Definition latCandidates : list (list Ascii.ascii) :=
  [str "lat"; str "latitude"; str "y"].
Definition lonCandidates : list (list Ascii.ascii) :=
  [str "lon"; str "longitude"; str "x"].

(** [rootKeys.find((k) => cands.some((c) => k.toLowerCase().includes(c)))],
    then [key || null]: the empty string is falsy. *)
Definition findFirst (rootKeys : list (list Ascii.ascii))
    (cands : list (list Ascii.ascii)) : option (list Ascii.ascii) :=
  match find (fun k => existsb (fun c => includes (toLowerCase k) c) cands) rootKeys with
  | Some [] => None
  | Some key => Some key
  | None => None
  end.

(** * Properties *)

(** ** Loops *)

Section ForUpto.
Context {S : Type}.
Implicit Types (body : S -> Z -> S) (s : S) (n i : Z).

Lemma for_upto_nonpos n body s : n <= 0 -> for_upto n body s = s.
Proof.
  intros Hn. unfold for_upto.
  replace (Z.to_nat n) with 0%nat by lia. reflexivity.
Qed.

Lemma for_upto_succ n body s :
  0 <= n -> for_upto (n + 1) body s = body (for_upto n body s) n.
Proof.
  intros Hn. unfold for_upto.
  replace (Z.to_nat (n + 1)) with (Datatypes.S (Z.to_nat n)) by lia.
  rewrite seq_S, foldl_app. simpl.
  rewrite Z2Nat.id by lia. reflexivity.
Qed.

(** The invariant rule: [P i s] reads "[s] is the state when the loop
    variable is [i]". *)
Lemma for_upto_ind (P : Z -> S -> Prop) n body s :
  0 <= n ->
  P 0 s ->
  (forall i s', 0 <= i < n -> P i s' -> P (i + 1) (body s' i)) ->
  P n (for_upto n body s).
Proof.
  intros Hn H0 Hstep.
  assert (Hall : forall k : nat, Z.of_nat k <= n ->
                                 P (Z.of_nat k) (for_upto (Z.of_nat k) body s)).
  { induction k as [|k IH]; intros Hk.
    - rewrite for_upto_nonpos by lia. exact H0.
    - replace (Z.of_nat (Datatypes.S k)) with (Z.of_nat k + 1) by lia.
      rewrite for_upto_succ by lia.
      apply Hstep; [lia|]. apply IH. lia. }
  specialize (Hall (Z.to_nat n)). rewrite Z2Nat.id in Hall by lia.
  apply Hall. lia.
Qed.
End ForUpto.

(** ** The decimation planner *)

Lemma ceil_div_spec a b :
  0 < b -> (ceil_div a b - 1) * b < a <= ceil_div a b * b.
Proof.
  intros Hb. unfold ceil_div.
  pose proof (Z.div_mod (- a) b ltac:(lia)) as Hdm.
  pose proof (Z.mod_pos_bound (- a) b Hb) as Hmod.
  nia.
Qed.

Lemma ceil_div_pos a b : 0 < b -> 1 <= a -> 1 <= ceil_div a b.
Proof.
  intros Hb Ha. pose proof (ceil_div_spec a b Hb). nia.
Qed.

Lemma ceil_div_nonneg a b : 0 < b -> 0 <= a -> 0 <= ceil_div a b.
Proof.
  intros Hb Ha. pose proof (ceil_div_spec a b Hb). nia.
Qed.

Lemma ceil_div_1 a : ceil_div a 1 = a.
Proof. unfold ceil_div. rewrite Z.div_1_r. lia. Qed.

(** What the [while] loop computes: the condition does not depend on
    [factor], so the loop either is not entered or runs up to the
    [break]. *)
Lemma calcSteps_loop_eq fuel estRows estCols factor :
  1 <= factor <= 20 ->
  (21 - Z.to_nat factor <= fuel)%nat ->
  calcSteps_loop fuel estRows estCols factor =
    if estRows * estCols * 2 >? MAX_VERTICES then 21 else factor.
Proof.
  revert factor. induction fuel as [|fuel IH]; intros factor Hf Hfuel.
  - lia.
  - cbn [calcSteps_loop].
    destruct (estRows * estCols * 2 >? MAX_VERTICES) eqn:Hover; [|reflexivity].
    destruct (factor + 1 >? 20) eqn:Hbreak.
    + apply Z.gtb_lt in Hbreak. lia.
    + rewrite IH by lia. rewrite ?Hover. reflexivity.
Qed.

(** The fuel of [calcSteps] is never exhausted: more fuel changes
    nothing. *)
Lemma calcSteps_loop_fuel fuel estRows estCols :
  (20 <= fuel)%nat ->
  calcSteps_loop fuel estRows estCols 1 = calcSteps_loop 21 estRows estCols 1.
Proof.
  intros Hfuel. rewrite !calcSteps_loop_eq by lia. reflexivity.
Qed.

Lemma calcSteps_eq r c maxDim :
  let stepY0 := Z.max 1 (ceil_div r maxDim) in
  let stepX0 := Z.max 1 (ceil_div c maxDim) in
  let factor :=
    if ceil_div r stepY0 * ceil_div c stepX0 * 2 >? MAX_VERTICES then 21 else 1 in
  calcSteps r c maxDim = {| stepY := stepY0 * factor; stepX := stepX0 * factor |}.
Proof.
  intros. unfold calcSteps. rewrite calcSteps_loop_eq by lia. reflexivity.
Qed.

Lemma clamp_Z_bounds n lo hi : lo <= hi -> lo <= clamp n lo hi <= hi.
Proof. unfold clamp. simpl. lia. Qed.

Lemma calcSteps_pos r c maxDim :
  1 <= stepY (calcSteps r c maxDim) /\ 1 <= stepX (calcSteps r c maxDim).
Proof.
  rewrite calcSteps_eq. simpl.
  destruct (_ >? _); lia.
Qed.

(** The cap holds for the strides of [calcSteps] as soon as [maxDim] is at
    most 1200. *)
Lemma calcSteps_cap r c maxDim :
  0 <= r -> 0 <= c -> 1 <= maxDim <= 1200 ->
  ceil_div r (stepY (calcSteps r c maxDim))
  * ceil_div c (stepX (calcSteps r c maxDim)) * 2 <= MAX_VERTICES.
Proof.
  intros Hr0 Hc0 Hm. rewrite calcSteps_eq. cbv zeta. simpl stepY. simpl stepX.
  set (sy := Z.max 1 (ceil_div r maxDim)).
  set (sx := Z.max 1 (ceil_div c maxDim)).
  destruct (ceil_div r sy * ceil_div c sx * 2 >? MAX_VERTICES) eqn:Hover.
  - pose proof (ceil_div_spec r maxDim ltac:(lia)) as Hr.
    pose proof (ceil_div_spec c maxDim ltac:(lia)) as Hc.
    assert (Hsy : 1 <= sy /\ ceil_div r maxDim <= sy) by (unfold sy; lia).
    assert (Hsx : 1 <= sx /\ ceil_div c maxDim <= sx) by (unfold sx; lia).
    pose proof (ceil_div_spec r (sy * 21) ltac:(lia)) as Hr1.
    pose proof (ceil_div_spec c (sx * 21) ltac:(lia)) as Hc1.
    assert (Hq1 : ceil_div r (sy * 21) <= 58) by nia.
    assert (Hq2 : ceil_div c (sx * 21) <= 58) by nia.
    pose proof (ceil_div_nonneg r (sy * 21) ltac:(lia) Hr0).
    pose proof (ceil_div_nonneg c (sx * 21) ltac:(lia) Hc0).
    unfold MAX_VERTICES. nia.
  - rewrite !Z.mul_1_r. lia.
Qed.

(** C1, evaluated on the code: for a 5000 x 5000 grid and [maxDim = 1200]
    the initial strides are 5 and the doubled product 1000 * 1000 * 2 is
    over the cap; the multiplier 2 already fits (500 * 500 * 2), but the
    loop never recomputes the counts and leaves with the multiplier 21. *)
Theorem calcSteps_multiplier_not_least :
  Math_max 1 (ceil_div 5000 1200) = 5
  /\ ceil_div 5000 5 * ceil_div 5000 5 * 2 > MAX_VERTICES
  /\ ceil_div 5000 (5 * 2) * ceil_div 5000 (5 * 2) * 2 <= MAX_VERTICES
  /\ calcSteps 5000 5000 1200 = {| stepY := 5 * 21; stepX := 5 * 21 |}.
Proof. repeat split; vm_compute; congruence. Qed.

(** Whenever the initial counts are over the cap the multiplier is 21,
    whatever smaller multiplier would fit. *)
Lemma calcSteps_over_cap r c maxDim :
  let stepY0 := Z.max 1 (ceil_div r maxDim) in
  let stepX0 := Z.max 1 (ceil_div c maxDim) in
  ceil_div r stepY0 * ceil_div c stepX0 * 2 > MAX_VERTICES ->
  calcSteps r c maxDim = {| stepY := stepY0 * 21; stepX := stepX0 * 21 |}.
Proof.
  intros sy sx Hover. rewrite calcSteps_eq. fold sy sx.
  destruct (_ >? _) eqn:E; [reflexivity|].
  rewrite Z.gtb_ltb in E. apply Z.ltb_ge in E. lia.
Qed.

(** ** The colormap *)

Local Open Scope R_scope.

Lemma Int_part_IZR (z : Z) (y : R) : y = IZR z -> Int_part y = z.
Proof.
  intros ->. unfold Int_part.
  assert (Hup : (z + 1)%Z = up (IZR z)).
  { apply tech_up; rewrite plus_IZR; simpl; lra. }
  lia.
Qed.

Lemma is_integer_IZR (z : Z) (y : R) : y = IZR z -> is_integer y = true.
Proof.
  intros Hy. unfold is_integer. rewrite (Int_part_IZR z y Hy).
  destruct (Req_dec_T y (IZR z)); [reflexivity | contradiction].
Qed.

Lemma is_integer_between (z : Z) (y : R) :
  IZR z < y < IZR (z + 1) -> is_integer y = false.
Proof.
  intros [Hlo Hhi]. unfold is_integer.
  assert (HI : Int_part y = z).
  { unfold Int_part.
    assert (Hup : (z + 1)%Z = up y).
    { apply tech_up; rewrite plus_IZR in *; simpl in *; lra. }
    lia. }
  rewrite HI. destruct (Req_dec_T y (IZR z)); [lra | reflexivity].
Qed.

(** On a non-negative base and a non-negative exponent [Math.pow] is a
    real. *)
Lemma Math_pow_nonneg (x y : R) :
  0 <= x -> 0 <= y -> exists v, Math_pow (Fin x) y = Fin v.
Proof.
  intros Hx Hy. unfold Math_pow.
  destruct (Req_dec_T y 0); [eauto|].
  destruct (Req_dec_T x 0).
  - destruct (Rlt_dec 0 y); [eauto | lra].
  - destruct (is_integer y); [eauto|].
    destruct (Rlt_dec 0 x); [eauto | lra].
Qed.

Lemma Math_pow_0 (t : num) : Math_pow t 0.0 = Fin 1.
Proof.
  unfold Math_pow. destruct (Req_dec_T 0.0 0); [reflexivity | lra].
Qed.

Lemma Math_pow_2 (x : R) : Math_pow (Fin x) 2.0 = Fin (x * x).
Proof.
  unfold Math_pow.
  destruct (Req_dec_T 2.0 0); [lra|].
  destruct (Req_dec_T x 0) as [->|Hx].
  - destruct (Rlt_dec 0 2.0); [|lra]. f_equal. ring.
  - rewrite (is_integer_IZR 2) by lra. rewrite (Int_part_IZR 2) by lra.
    f_equal. simpl. ring.
Qed.

(** A fractional power of a negative number is [NaN]. *)
Lemma Math_pow_neg_half (x : R) : x < 0 -> Math_pow (Fin x) 0.5 = NaN.
Proof.
  intros Hx. unfold Math_pow.
  destruct (Req_dec_T 0.5 0); [lra|].
  destruct (Req_dec_T x 0); [lra|].
  rewrite (is_integer_between 0) by (change (0 + 1)%Z with 1%Z; lra).
  destruct (Rlt_dec 0 x); [lra | reflexivity].
Qed.

Lemma viridis_poly_fin (k : nat) (x : R) :
  (k < 3)%nat -> 0 <= x -> exists v, viridis_poly k (Fin x) = Fin v.
Proof.
  intros Hk Hx. unfold viridis_poly.
  assert (Hd : 0 <= viridis_exp viridis_d k).
  { destruct k as [|[|[|k]]]; [| | |lia]; unfold viridis_exp; simpl; lra. }
  assert (He : 0 <= viridis_exp viridis_e k).
  { destruct k as [|[|[|k]]]; [| | |lia]; unfold viridis_exp; simpl; lra. }
  destruct (Math_pow_nonneg x _ Hx Hd) as [v1 ->].
  destruct (Math_pow_nonneg x _ Hx He) as [v2 ->].
  destruct k as [|[|[|k]]]; [| | |lia]; simpl; eauto.
Qed.

(** The clamp that closes [viridis]. *)
Lemma clamp01_fin (v : R) :
  exists w, Math_min (Fin 1) (Math_max (Fin 0) (Fin v)) = Fin w /\ 0 <= w <= 1.
Proof.
  exists (Rmin 1 (Rmax 0 v)). split; [reflexivity|].
  unfold Rmin, Rmax.
  destruct (Rle_dec 0 v); destruct (Rle_dec 1 _); lra.
Qed.

Lemma viridis_range (x : R) :
  0 <= x ->
  exists r g b, viridis (Fin x) = (Fin r, Fin g, Fin b)
                /\ 0 <= r <= 1 /\ 0 <= g <= 1 /\ 0 <= b <= 1.
Proof.
  intros Hx. unfold viridis.
  destruct (viridis_poly_fin 0 x ltac:(lia) Hx) as [v0 ->].
  destruct (viridis_poly_fin 1 x ltac:(lia) Hx) as [v1 ->].
  destruct (viridis_poly_fin 2 x ltac:(lia) Hx) as [v2 ->].
  destruct (clamp01_fin v0) as (r & -> & Hr).
  destruct (clamp01_fin v1) as (g & -> & Hg).
  destruct (clamp01_fin v2) as (b & -> & Hb).
  exists r, g, b. auto.
Qed.

Lemma viridis_red (x : R) :
  fst (fst (viridis (Fin x))) =
    Fin (Rmin 1 (Rmax 0 (0.280268 + 0.23393 * (x * x) + 0.043831 * 1))).
Proof.
  unfold viridis, viridis_poly. cbn [fst].
  change (viridis_exp viridis_d 0) with 2.0.
  change (viridis_exp viridis_e 0) with 0.0.
  rewrite Math_pow_2, Math_pow_0. reflexivity.
Qed.

Lemma clamp_num_fin (x lo hi : R) :
  clamp (Fin x) (Fin lo) (Fin hi) = Fin (Rmax lo (Rmin hi x)).
Proof. reflexivity. Qed.

Lemma clamp_num_id (x : R) : 0 <= x <= 1 -> clamp (Fin x) (Fin 0) (Fin 1) = Fin x.
Proof.
  intros Hx. rewrite clamp_num_fin. f_equal.
  rewrite Rmin_right by lra. rewrite Rmax_right by lra. reflexivity.
Qed.

(** Below zero the input reaches [Math.pow] with a fractional exponent:
    the green channel is [NaN]. *)
Lemma viridis_negative_green (x : R) :
  x < 0 -> snd (fst (viridis (Fin x))) = NaN.
Proof.
  intros Hx. unfold viridis, viridis_poly. cbn [fst snd].
  change (viridis_exp viridis_e 1) with 0.5.
  rewrite Math_pow_neg_half by exact Hx.
  assert (Hmul : forall a, num_mul a NaN = NaN) by (intros []; reflexivity).
  assert (Hadd : forall a, num_add a NaN = NaN) by (intros []; reflexivity).
  rewrite Hmul, Hadd. reflexivity.
Qed.

(** C7: for every [t] in [[0,1]] the three channels of [viridis t] are
    reals of [[0,1]]. *)
Theorem viridis_unit_range (t : R) :
  0 <= t <= 1 ->
  exists r g b, viridis (Fin t) = (Fin r, Fin g, Fin b)
                /\ 0 <= r <= 1 /\ 0 <= g <= 1 /\ 0 <= b <= 1.
Proof. intros [Ht _]. apply viridis_range. exact Ht. Qed.

Lemma viridis_unit_range_witness :
  exists r g b, viridis (Fin 0.5) = (Fin r, Fin g, Fin b)
                /\ 0 <= r <= 1 /\ 0 <= g <= 1 /\ 0 <= b <= 1.
Proof. apply (viridis_unit_range 0.5). lra. Defined.

(** C8, as stated, fails: [viridis] does not clamp its input; at [t = 2]
    the red channel is 1, at [clamp(2, 0, 1) = 1] it is 0.558029. *)
Lemma viridis_input_not_clamped :
  viridis (Fin 2) <> viridis (clamp (Fin 2) (Fin 0) (Fin 1)).
Proof.
  intros H. apply (f_equal (fun c => fst (fst c))) in H.
  rewrite clamp_num_fin in H.
  replace (Rmax 0 (Rmin 1 2)) with 1 in H
    by (rewrite Rmin_left by lra; rewrite Rmax_right by lra; reflexivity).
  rewrite !viridis_red in H. injection H as H.
  rewrite (Rmax_right 0 (_ + _ * (2 * 2) + _)) in H by lra.
  rewrite (Rmax_right 0 (_ + _ * (1 * 1) + _)) in H by lra.
  rewrite Rmin_left in H by lra.
  rewrite Rmin_right in H by lra.
  lra.
Qed.

(** C8, amended: [viridis] clamps each channel after evaluating the
    polynomial, not its input.  For every real [t >= 0] the three channels
    are reals of [[0,1]]; on [[0,1]] the input clamp of the claim changes
    nothing. *)
Theorem viridis_output_clamped (t : R) :
  0 <= t ->
  (exists r g b, viridis (Fin t) = (Fin r, Fin g, Fin b)
                 /\ 0 <= r <= 1 /\ 0 <= g <= 1 /\ 0 <= b <= 1)
  /\ (t <= 1 -> viridis (Fin t) = viridis (clamp (Fin t) (Fin 0) (Fin 1))).
Proof.
  intros Ht. split.
  - apply viridis_range. exact Ht.
  - intros Ht1. rewrite clamp_num_id by lra. reflexivity.
Qed.

Lemma viridis_output_clamped_witness :
  (exists r g b, viridis (Fin 2) = (Fin r, Fin g, Fin b)
                 /\ 0 <= r <= 1 /\ 0 <= g <= 1 /\ 0 <= b <= 1)
  /\ (2 <= 1 -> viridis (Fin 2) = viridis (clamp (Fin 2) (Fin 0) (Fin 1))).
Proof. apply (viridis_output_clamped 2). lra. Defined.

Local Close Scope R_scope.

(** ** Arrays *)

Section Arrays.
Context {A : Type}.
Implicit Types (a : list A) (v : A).

Lemma length_set a (i : Z) v : length (set a i v) = length a.
Proof. unfold set. destruct (i <? 0); [reflexivity | apply length_insert]. Qed.

Lemma lookup_set a (i : Z) v (j : nat) :
  set a i v !! j =
    if decide (0 <= i /\ Z.to_nat i = j /\ (j < length a)%nat) then Some v
    else a !! j.
Proof.
  unfold set. destruct (Z.ltb_spec i 0) as [Hi|Hi].
  - case_decide; [lia | reflexivity].
  - rewrite list_lookup_insert. repeat case_decide; try reflexivity; lia.
Qed.

Lemma lookup_set_eq a (i : Z) v :
  0 <= i < Z.of_nat (length a) -> set a i v !! Z.to_nat i = Some v.
Proof. intros Hi. rewrite lookup_set. case_decide; [reflexivity | lia]. Qed.

Lemma lookup_set_ne a (i : Z) v (j : nat) :
  Z.of_nat j <> i -> set a i v !! j = a !! j.
Proof. intros Hi. rewrite lookup_set. case_decide; [lia | reflexivity]. Qed.
End Arrays.

Lemma get_lookup (a : list num) (i : Z) (x : num) :
  0 <= i -> a !! Z.to_nat i = Some x -> get a i = x.
Proof.
  intros Hi Hx. unfold get.
  destruct (Z.ltb_spec i 0); [lia|]. rewrite Hx. reflexivity.
Qed.

Lemma length_new_Float32Array n : length (new_Float32Array n) = Z.to_nat n.
Proof. apply length_replicate. Qed.

Lemma length_new_Int32Array n : length (new_Int32Array n) = Z.to_nat n.
Proof. apply length_replicate. Qed.

(** ** Doubles and singles *)

Local Open Scope R_scope.

Lemma Rabs_bounds x b : Rabs x <= b -> - b <= x <= b.
Proof. unfold Rabs. destruct (Rcase_abs x); lra. Qed.

Lemma bpow_pos e : 0 < bpow e.
Proof. apply powerRZ_lt. lra. Qed.

Lemma bpow_add a b : bpow (a + b) = bpow a * bpow b.
Proof. apply powerRZ_add. lra. Qed.

Lemma bpow_opp e : bpow (- e) = / bpow e.
Proof. apply powerRZ_neg'. Qed.

Lemma bpow_0 : bpow 0 = 1.
Proof. reflexivity. Qed.

Lemma bpow_1 : bpow 1 = 2.
Proof. unfold bpow. simpl. lra. Qed.

Lemma bpow_IZR k : (0 <= k)%Z -> bpow k = IZR (2 ^ k).
Proof.
  intros Hk. unfold bpow.
  rewrite <- (Z2Nat.id k Hk) at 1 2.
  rewrite <- pow_powerRZ, pow_IZR. reflexivity.
Qed.

Lemma bpow_ge_1 k : (0 <= k)%Z -> 1 <= bpow k.
Proof.
  intros Hk. rewrite bpow_IZR by exact Hk. apply IZR_le.
  pose proof (Z.pow_pos_nonneg 2 k ltac:(lia) Hk). lia.
Qed.

Lemma bpow_le a b : (a <= b)%Z -> bpow a <= bpow b.
Proof.
  intros Hab. replace b with (a + (b - a))%Z by lia. rewrite bpow_add.
  pose proof (bpow_pos a). pose proof (bpow_ge_1 (b - a) ltac:(lia)). nra.
Qed.

Lemma bpow_lt a b : (a < b)%Z -> bpow a < bpow b.
Proof.
  intros Hab. replace b with (a + 1 + (b - a - 1))%Z by lia.
  rewrite !bpow_add.
  pose proof (bpow_pos a). pose proof (bpow_ge_1 (b - a - 1) ltac:(lia)).
  rewrite bpow_1. nra.
Qed.

Lemma bpow_lt_inv a b : bpow a < bpow b -> (a < b)%Z.
Proof.
  intros H. destruct (Z_lt_le_dec a b) as [|Hle]; [assumption|].
  apply bpow_le in Hle. lra.
Qed.

Lemma bpow_cancel a : bpow a * bpow (- a) = 1.
Proof. rewrite <- bpow_add, Z.add_opp_diag_r. reflexivity. Qed.

Lemma mag_spec x : x <> 0 -> bpow (mag x - 1) <= Rabs x < bpow (mag x).
Proof.
  intros Hx. assert (Hax : 0 < Rabs x) by (apply Rabs_pos_lt; exact Hx).
  unfold mag, bpow. rewrite !powerRZ_Rpower by lra.
  set (L := ln (Rabs x) / ln 2).
  assert (Hln2 : 0 < ln 2) by (pose proof ln_lt_2; lra).
  assert (HL : Rabs x = Rpower 2 L).
  { unfold Rpower, L. replace (ln (Rabs x) / ln 2 * ln 2) with (ln (Rabs x))
      by (field; lra). symmetry. apply exp_ln. exact Hax. }
  destruct (archimed L) as [Hup1 Hup2].
  rewrite HL. split.
  - apply Rle_Rpower; [lra|]. rewrite minus_IZR. lra.
  - apply Rpower_lt; lra.
Qed.

Lemma mag_unique x e : bpow (e - 1) <= Rabs x < bpow e -> mag x = e.
Proof.
  intros [H1 H2].
  assert (Hx : x <> 0).
  { intros ->. rewrite Rabs_R0 in H1. pose proof (bpow_pos (e - 1)). lra. }
  destruct (mag_spec x Hx) as [H3 H4].
  assert (mag x - 1 < e)%Z by (apply bpow_lt_inv; lra).
  assert (e - 1 < mag x)%Z by (apply bpow_lt_inv; lra).
  lia.
Qed.

Lemma mag_le_bpow x e : x <> 0 -> Rabs x < bpow e -> (mag x <= e)%Z.
Proof.
  intros Hx H. destruct (mag_spec x Hx) as [H1 _].
  assert (mag x - 1 < e)%Z by (apply bpow_lt_inv; lra). lia.
Qed.

Lemma mag_ge_bpow x e : bpow (e - 1) <= Rabs x -> (e <= mag x)%Z.
Proof.
  intros H.
  assert (Hx : x <> 0).
  { intros ->. rewrite Rabs_R0 in H. pose proof (bpow_pos (e - 1)). lra. }
  destruct (mag_spec x Hx) as [_ H2].
  assert (e - 1 < mag x)%Z by (apply bpow_lt_inv; lra). lia.
Qed.

Lemma mag_le x y : x <> 0 -> Rabs x <= Rabs y -> (mag x <= mag y)%Z.
Proof.
  intros Hx Hxy. apply mag_ge_bpow.
  destruct (mag_spec x Hx) as [H1 _]. lra.
Qed.

Lemma mag_opp x : mag (- x) = mag x.
Proof. unfold mag. rewrite Rabs_Ropp. reflexivity. Qed.

(** *** Rounding to the nearest integer *)

Lemma rne_IZR n : rne (IZR n) = n.
Proof.
  unfold rne. rewrite ZfloorZ.
  destruct (Rlt_dec (IZR n - IZR n) (1 / 2)); [reflexivity | lra].
Qed.

Lemma rne_floor y : (Zfloor y <= rne y <= Zfloor y + 1)%Z.
Proof.
  unfold rne. repeat destruct (Rlt_dec _ _); try lia.
  destruct (Z.even _); lia.
Qed.

Lemma rne_mono y y' : y <= y' -> (rne y <= rne y')%Z.
Proof.
  intros Hy. pose proof (Zfloor_le y y' Hy) as Hf.
  destruct (Z.eq_dec (Zfloor y) (Zfloor y')) as [E|Hne].
  - unfold rne. rewrite <- E.
    repeat destruct (Rlt_dec _ _); try lia; try lra;
      destruct (Z.even _); lia || lra.
  - pose proof (rne_floor y). pose proof (rne_floor y'). lia.
Qed.

Lemma rne_opp y : rne (- y) = (- rne y)%Z.
Proof.
  pose proof (Zfloor_bound y) as Hb.
  destruct (Req_dec y (IZR (Zfloor y))) as [E|Hne].
  - rewrite E, <- opp_IZR, !rne_IZR. reflexivity.
  - assert (Hf : Zfloor (- y) = (- Zfloor y - 1)%Z).
    { apply Zfloor_eq. rewrite minus_IZR, opp_IZR. lra. }
    unfold rne. rewrite Hf, minus_IZR, opp_IZR.
    set (f := Zfloor y) in *.
    assert (Hev : Z.even (- f - 1) = negb (Z.even f)).
    { replace (- f - 1)%Z with (- (f + 1))%Z by lia.
      rewrite Z.even_opp. replace (f + 1)%Z with (Z.succ f) by lia.
      rewrite Z.even_succ, <- Z.negb_even. reflexivity. }
    rewrite Hev.
    repeat destruct (Rlt_dec _ _); try lia; try lra;
      destruct (Z.even f); simpl; lia || lra.
Qed.

(** Evaluation: the floor and the remainder decide. *)
Lemma rne_down y f : IZR f <= y < IZR f + 1 / 2 -> rne y = f.
Proof.
  intros H. unfold rne. rewrite (Zfloor_eq f y) by lra.
  destruct (Rlt_dec (y - IZR f) (1 / 2)); [reflexivity | lra].
Qed.

Lemma rne_up y f : IZR f + 1 / 2 < y <= IZR f + 1 -> rne y = (f + 1)%Z.
Proof.
  intros H. destruct (Req_dec y (IZR f + 1)) as [->|Hne].
  - rewrite <- plus_IZR. apply rne_IZR.
  - unfold rne. rewrite (Zfloor_eq f y) by lra.
    destruct (Rlt_dec (y - IZR f) (1 / 2)); [lra|].
    destruct (Rlt_dec (1 / 2) (y - IZR f)); [reflexivity | lra].
Qed.

Lemma rne_near y n : IZR n - 1 / 2 < y < IZR n + 1 / 2 -> rne y = n.
Proof.
  intros H. destruct (Rle_dec (IZR n) y) as [Hge|Hlt].
  - apply rne_down. lra.
  - rewrite (rne_up y (n - 1)); [lia|]. rewrite minus_IZR. lra.
Qed.

Lemma rne_half : rne (1 / 2) = 0%Z.
Proof.
  unfold rne. rewrite (Zfloor_eq 0 (1 / 2)) by lra.
  destruct (Rlt_dec (1 / 2 - 0) (1 / 2)); [lra|].
  destruct (Rlt_dec (1 / 2) (1 / 2 - 0)); [lra | reflexivity].
Qed.

Section Format.
Variables prec emax : Z.
Hypothesis Hprec : (1 <= prec)%Z.

Let emin := (3 - emax - prec)%Z.

Lemma cexp_ge_emin x : (emin <= cexp prec emax x)%Z.
Proof. unfold cexp, emin. lia. Qed.

Lemma cexp_opp x : cexp prec emax (- x) = cexp prec emax x.
Proof. unfold cexp. rewrite mag_opp. reflexivity. Qed.

Lemma round_real_0 : round_real prec emax 0 = 0.
Proof.
  unfold round_real. rewrite Rmult_0_l. change 0 with (IZR 0).
  rewrite rne_IZR. simpl. lra.
Qed.

Lemma round_real_opp x : round_real prec emax (- x) = - round_real prec emax x.
Proof.
  unfold round_real. rewrite cexp_opp.
  replace (- x * bpow (- cexp prec emax x)) with (- (x * bpow (- cexp prec emax x)))
    by lra.
  rewrite rne_opp, opp_IZR. lra.
Qed.

Lemma format_intro x m e :
  x = IZR m * bpow e -> (Z.abs m < 2 ^ prec)%Z -> (emin <= e)%Z ->
  in_format prec emax x.
Proof.
  intros Hx Hm He. unfold in_format.
  destruct (Z.eq_dec m 0%Z) as [->|Hm0].
  { exists 0%Z. rewrite Hx. lra. }
  assert (Hx0 : x <> 0).
  { rewrite Hx. apply Rmult_integral_contrapositive_currified.
    - apply not_0_IZR. exact Hm0.
    - pose proof (bpow_pos e). lra. }
  assert (Hmag : (mag x <= prec + e)%Z).
  { apply mag_le_bpow; [exact Hx0|].
    rewrite Hx, Rabs_mult, (Rabs_pos_eq (bpow e)) by (pose proof (bpow_pos e); lra).
    rewrite bpow_add, (bpow_IZR prec) by lia.
    rewrite <- abs_IZR. apply Rmult_lt_compat_r; [apply bpow_pos|].
    apply IZR_lt. exact Hm. }
  assert (Hc : (cexp prec emax x <= e)%Z) by (unfold cexp; fold emin; lia).
  exists (m * 2 ^ (e - cexp prec emax x))%Z.
  rewrite mult_IZR, <- bpow_IZR by lia.
  rewrite Rmult_assoc, <- bpow_add.
  replace (e - cexp prec emax x + cexp prec emax x)%Z with e by lia. exact Hx.
Qed.

Lemma round_real_fixed x : in_format prec emax x -> round_real prec emax x = x.
Proof.
  intros [n Hn]. unfold round_real.
  rewrite Hn at 1. rewrite Rmult_assoc, bpow_cancel, Rmult_1_r, rne_IZR.
  symmetry. exact Hn.
Qed.

Lemma scaled_bound x :
  Rabs (x * bpow (- cexp prec emax x)) <= IZR (2 ^ prec).
Proof.
  destruct (Req_dec x 0) as [->|Hx].
  { rewrite Rmult_0_l, Rabs_R0. apply IZR_le.
    pose proof (Z.pow_pos_nonneg 2 prec ltac:(lia) ltac:(lia)). lia. }
  destruct (mag_spec x Hx) as [_ Hlt].
  rewrite Rabs_mult, (Rabs_pos_eq (bpow _)) by (pose proof (bpow_pos (- cexp prec emax x)); lra).
  rewrite <- bpow_IZR by lia.
  replace (bpow prec) with (bpow (prec + cexp prec emax x) * bpow (- cexp prec emax x))
    by (rewrite <- bpow_add; f_equal; lia).
  apply Rmult_le_compat_r; [pose proof (bpow_pos (- cexp prec emax x)); lra|].
  apply Rle_trans with (bpow (mag x)); [lra|].
  apply bpow_le. unfold cexp. lia.
Qed.

Lemma rne_scaled_bound x :
  (Z.abs (rne (x * bpow (- cexp prec emax x))) <= 2 ^ prec)%Z.
Proof.
  pose proof (scaled_bound x) as Hb.
  apply Rabs_bounds in Hb. destruct Hb as [Hlo Hhi].
  pose proof (rne_mono _ _ Hhi) as H1. rewrite rne_IZR in H1.
  rewrite <- opp_IZR in Hlo.
  pose proof (rne_mono _ _ Hlo) as H2. rewrite rne_IZR in H2.
  lia.
Qed.

Lemma round_real_format x : in_format prec emax (round_real prec emax x).
Proof.
  pose proof (rne_scaled_bound x) as Hb.
  pose proof (cexp_ge_emin x) as Hc.
  set (n := rne (x * bpow (- cexp prec emax x))) in *.
  destruct (Z.eq_dec (Z.abs n) (2 ^ prec)%Z) as [E|Hne].
  - apply (format_intro _ (Z.sgn n * 2 ^ (prec - 1))%Z (cexp prec emax x + 1)%Z).
    + unfold round_real. fold n.
      rewrite bpow_add, mult_IZR, bpow_1.
      replace (IZR n) with (IZR (Z.sgn n) * IZR (2 ^ prec)).
      * replace prec with (prec - 1 + 1)%Z at 1 by lia.
        rewrite Z.pow_add_r, mult_IZR by lia. change (IZR (2 ^ 1)) with 2. lra.
      * rewrite <- mult_IZR, <- E. f_equal. destruct n; reflexivity.
    + rewrite Z.abs_mul.
      assert (Z.abs (Z.sgn n) <= 1)%Z by lia.
      pose proof (Z.pow_pos_nonneg 2 (prec - 1) ltac:(lia) ltac:(lia)).
      rewrite (Z.abs_eq (2 ^ (prec - 1))%Z) by lia.
      replace prec with (prec - 1 + 1)%Z at 2 by lia.
      rewrite Z.pow_add_r by lia. change (2 ^ 1)%Z with 2%Z. nia.
    + lia.
  - apply (format_intro _ n (cexp prec emax x)); [reflexivity | lia | exact Hc].
Qed.

Lemma round_real_nonneg x : 0 <= x -> 0 <= round_real prec emax x.
Proof.
  intros Hx. unfold round_real.
  pose proof (bpow_pos (cexp prec emax x)). pose proof (bpow_pos (- cexp prec emax x)).
  assert (H1 : (0 <= rne (x * bpow (- cexp prec emax x)))%Z).
  { rewrite <- (rne_IZR 0). apply rne_mono. nra. }
  apply IZR_le in H1. nra.
Qed.

Lemma round_real_mono_pos x y :
  0 < x <= y -> round_real prec emax x <= round_real prec emax y.
Proof.
  intros [Hx Hxy].
  assert (Hmag : (mag x <= mag y)%Z).
  { apply mag_le; [lra|]. rewrite !Rabs_pos_eq by lra. exact Hxy. }
  destruct (mag_spec x ltac:(lra)) as [Hx1 Hx2].
  destruct (mag_spec y ltac:(lra)) as [Hy1 Hy2].
  rewrite Rabs_pos_eq in Hx1, Hx2, Hy1, Hy2 by lra.
  destruct (Z.eq_dec (cexp prec emax x) (cexp prec emax y)) as [E|Hne].
  - unfold round_real. rewrite E.
    pose proof (bpow_pos (cexp prec emax y)). pose proof (bpow_pos (- cexp prec emax y)).
    apply Rmult_le_compat_r; [lra|]. apply IZR_le, rne_mono.
    apply Rmult_le_compat_r; lra.
  - assert (Hcy : cexp prec emax y = (mag y - prec)%Z) by (unfold cexp in *; lia).
    assert (Hlt : (mag x <= mag y - 1)%Z) by (unfold cexp in *; lia).
    apply Rle_trans with (bpow (mag x)); [|apply Rle_trans with (bpow (mag y - 1))].
    + unfold round_real. set (c := cexp prec emax x).
      pose proof (bpow_pos c). pose proof (bpow_pos (- c)).
      destruct (Z_lt_le_dec (mag x - c) 0) as [Hk|Hk].
      * assert (Hsmall : x * bpow (- c) <= 1 / 2).
        { apply Rle_trans with (bpow (mag x) * bpow (- c)); [nra|].
          rewrite <- bpow_add. apply Rle_trans with (bpow (-1)); [apply bpow_le; lia|].
          unfold bpow. simpl. lra. }
        pose proof (rne_mono _ _ Hsmall) as Hr.
        rewrite rne_half in Hr. apply IZR_le in Hr.
        pose proof (bpow_pos (mag x)). nra.
      * assert (Hb : x * bpow (- c) <= IZR (2 ^ (mag x - c))).
        { rewrite <- bpow_IZR by lia.
          replace (mag x - c)%Z with (mag x + - c)%Z by lia. rewrite bpow_add. nra. }
        pose proof (rne_mono _ _ Hb) as Hr. rewrite rne_IZR in Hr.
        apply IZR_le in Hr. rewrite <- bpow_IZR in Hr by lia.
        replace (bpow (mag x)) with (bpow (mag x - c) * bpow c)
          by (rewrite <- bpow_add; f_equal; lia).
        nra.
    + apply bpow_le. lia.
    + unfold round_real. rewrite Hcy.
      pose proof (bpow_pos (mag y - prec)). pose proof (bpow_pos (- (mag y - prec))).
      assert (Hb : IZR (2 ^ (prec - 1)) <= y * bpow (- (mag y - prec))).
      { rewrite <- bpow_IZR by lia.
        replace (prec - 1)%Z with (mag y - 1 + - (mag y - prec))%Z by lia.
        rewrite bpow_add. nra. }
      pose proof (rne_mono _ _ Hb) as Hr. rewrite rne_IZR in Hr.
      apply IZR_le in Hr. rewrite <- bpow_IZR in Hr by lia.
      replace (bpow (mag y - 1)) with (bpow (prec - 1) * bpow (mag y - prec))
        by (rewrite <- bpow_add; f_equal; lia).
      nra.
Qed.

Lemma round_real_mono x y : x <= y -> round_real prec emax x <= round_real prec emax y.
Proof.
  intros Hxy.
  destruct (Rlt_dec 0 x) as [Hx|Hx].
  - apply round_real_mono_pos. lra.
  - destruct (Rle_dec 0 y) as [Hy|Hy].
    + pose proof (round_real_nonneg y Hy).
      pose proof (round_real_nonneg (- x) ltac:(lra)) as Hn.
      rewrite round_real_opp in Hn. lra.
    + pose proof (round_real_mono_pos (- y) (- x) ltac:(lra)) as Hn.
      rewrite !round_real_opp in Hn. lra.
Qed.

Lemma round_real_eval x e n :
  bpow (e - 1) <= Rabs x < bpow e ->
  rne (x * bpow (- Z.max (e - prec) emin)) = n ->
  round_real prec emax x = IZR n * bpow (Z.max (e - prec) emin).
Proof.
  intros Hx Hn. unfold round_real, cexp. rewrite (mag_unique x e Hx).
  fold emin. rewrite Hn. reflexivity.
Qed.

(** *** Rounding with the overflow *)

Lemma round_Fin x :
  Rabs (round_real prec emax x) < bpow emax ->
  round prec emax x = Fin (round_real prec emax x).
Proof.
  intros H. unfold round. cbv zeta.
  destruct (Rle_dec (bpow emax) (Rabs (round_real prec emax x))); [lra | reflexivity].
Qed.

Lemma round_Fin_inv x y :
  round prec emax x = Fin y ->
  y = round_real prec emax x /\ Rabs y < bpow emax /\ in_format prec emax y.
Proof.
  unfold round. cbv zeta.
  destruct (Rle_dec (bpow emax) (Rabs (round_real prec emax x))) as [Hov|Hok].
  - destruct (Rlt_dec 0 (round_real prec emax x)); discriminate.
  - intros [= <-]. split; [reflexivity|]. split; [lra | apply round_real_format].
Qed.

Lemma round_fixed x :
  in_format prec emax x -> Rabs x < bpow emax -> round prec emax x = Fin x.
Proof.
  intros Hf Hx. rewrite round_Fin; rewrite (round_real_fixed x Hf); [reflexivity | exact Hx].
Qed.

Lemma round_idem x y : round prec emax x = Fin y -> round prec emax y = Fin y.
Proof.
  intros H. apply round_Fin_inv in H as (_ & Hy & Hf). apply round_fixed; assumption.
Qed.

Lemma to_format_idem a : to_format prec emax (to_format prec emax a) = to_format prec emax a.
Proof.
  destruct a as [| | |x]; try reflexivity. cbn [to_format].
  destruct (round prec emax x) as [| | |y] eqn:E; try reflexivity.
  cbn [to_format]. apply (round_idem x y E).
Qed.

Lemma round_between a b x :
  in_format prec emax a -> in_format prec emax b ->
  - bpow emax < a -> b < bpow emax -> a <= x <= b ->
  exists y, round prec emax x = Fin y /\ a <= y <= b.
Proof.
  intros Ha Hb Hla Hlb [Hax Hxb].
  pose proof (round_real_mono a x Hax) as H1.
  pose proof (round_real_mono x b Hxb) as H2.
  rewrite (round_real_fixed a Ha) in H1. rewrite (round_real_fixed b Hb) in H2.
  exists (round_real prec emax x). split; [|lra].
  apply round_Fin. apply Rabs_def1; lra.
Qed.

Lemma round_mono_Fin x y x' y' :
  round prec emax x = Fin x' -> round prec emax y = Fin y' -> x <= y -> x' <= y'.
Proof.
  intros Hx Hy Hxy.
  apply round_Fin_inv in Hx as (-> & _). apply round_Fin_inv in Hy as (-> & _).
  apply round_real_mono. exact Hxy.
Qed.

(** Rounding cannot pass a number of the format. *)
Lemma round_le_format x b :
  in_format prec emax b -> b < bpow emax -> x <= b ->
  round prec emax x = NInf \/ exists y, round prec emax x = Fin y /\ y <= b.
Proof.
  intros Hb Hlb Hxb.
  pose proof (round_real_mono x b Hxb) as H. rewrite (round_real_fixed b Hb) in H.
  unfold round. cbv zeta.
  destruct (Rle_dec (bpow emax) (Rabs (round_real prec emax x))) as [Hov|Hok].
  - left. destruct (Rlt_dec 0 (round_real prec emax x)) as [Hpos|]; [|reflexivity].
    rewrite Rabs_pos_eq in Hov by lra. lra.
  - right. eexists. split; [reflexivity | exact H].
Qed.

Lemma round_dyadic m e :
  (Z.abs m < 2 ^ prec)%Z -> (emin <= e)%Z -> (e + prec <= emax)%Z ->
  round prec emax (IZR m * bpow e) = Fin (IZR m * bpow e).
Proof.
  intros Hm He Hemax. apply round_fixed.
  - apply (format_intro _ m e); [reflexivity | exact Hm | exact He].
  - rewrite Rabs_mult, (Rabs_pos_eq (bpow e)) by (pose proof (bpow_pos e); lra).
    apply Rlt_le_trans with (bpow prec * bpow e).
    + apply Rmult_lt_compat_r; [apply bpow_pos|].
      rewrite bpow_IZR, <- abs_IZR by lia. apply IZR_lt. exact Hm.
    + rewrite <- bpow_add. apply bpow_le. lia.
Qed.

End Format.

(** *** Doubles and singles *)

Lemma f64_dyadic (m e : Z) :
  (Z.abs m < 2 ^ 53)%Z -> (-1074 <= e <= 971)%Z ->
  f64 (Fin (IZR m * bpow e)) = Fin (IZR m * bpow e).
Proof. intros Hm He. apply round_dyadic; lia. Qed.

Lemma f64_int (n : Z) : (Z.abs n < 2 ^ 53)%Z -> f64 (Fin (IZR n)) = Fin (IZR n).
Proof.
  intros Hn. pose proof (f64_dyadic n 0 Hn ltac:(lia)) as H.
  rewrite bpow_0, Rmult_1_r in H. exact H.
Qed.

Lemma fround_dyadic (m e : Z) :
  (Z.abs m < 2 ^ 24)%Z -> (-149 <= e <= 104)%Z ->
  Math_fround (Fin (IZR m * bpow e)) = Fin (IZR m * bpow e).
Proof. intros Hm He. apply round_dyadic; lia. Qed.

Lemma fround_int (n : Z) : (Z.abs n < 2 ^ 24)%Z -> Math_fround (Fin (IZR n)) = Fin (IZR n).
Proof.
  intros Hn. pose proof (fround_dyadic n 0 Hn ltac:(lia)) as H.
  rewrite bpow_0, Rmult_1_r in H. exact H.
Qed.

(** A single is a double. *)
Lemma fround_f64 (a : num) : f64 (Math_fround a) = Math_fround a.
Proof.
  destruct a as [| | |x]; try reflexivity. cbn [Math_fround to_format].
  destruct (round 24 128 x) as [| | |y] eqn:E; try reflexivity.
  assert (H53 : (1 <= 53)%Z) by lia.
  apply round_Fin_inv in E as (_ & Hy & [n Hn]); [|lia].
  cbn [f64 to_format]. apply round_fixed.
  - destruct (Req_dec y 0) as [->|Hy0].
    + exists 0%Z. lra.
    + set (c := cexp 24 128 y) in *.
      assert (Hc : (-149 <= c)%Z) by (unfold c, cexp; lia).
      apply (format_intro 53 1024 H53 y n c); [exact Hn| |lia].
      destruct (mag_spec y Hy0) as [_ Hlt].
      assert (Hn24 : (Z.abs n < 2 ^ 24)%Z).
      { apply lt_IZR. rewrite abs_IZR.
        assert (Hny : IZR n = y * bpow (- c)).
        { rewrite Hn, Rmult_assoc, bpow_cancel. lra. }
        rewrite Hny, Rabs_mult, (Rabs_pos_eq (bpow (- c)))
          by (pose proof (bpow_pos (- c)); lra).
        rewrite <- bpow_IZR by lia.
        replace (bpow 24) with (bpow (24 + c) * bpow (- c))
          by (rewrite <- bpow_add; f_equal; lia).
        apply Rmult_lt_compat_r; [apply bpow_pos|].
        apply Rlt_le_trans with (bpow (mag y)); [exact Hlt|].
        apply bpow_le. unfold c, cexp. lia. }
      lia.
  - apply Rlt_trans with (bpow 128); [exact Hy|]. apply bpow_lt. lia.
Qed.

Lemma bpow_of_Z (k v : Z) : (0 <= k)%Z -> (2 ^ k)%Z = v -> bpow k = IZR v.
Proof. intros Hk <-. apply bpow_IZR. exact Hk. Qed.

Lemma bpow_of_Z_neg (k v : Z) : (0 <= k)%Z -> (2 ^ k)%Z = v -> bpow (- k) = / IZR v.
Proof. intros Hk <-. rewrite bpow_opp, bpow_IZR by exact Hk. reflexivity. Qed.

(** Powers of two with literal exponents, as rationals. *)
Ltac bpow_eval :=
  repeat match goal with
  | |- context [bpow (Zpos ?p)] =>
      let v := eval vm_compute in (2 ^ Zpos p)%Z in
      replace (bpow (Zpos p)) with (IZR v)
        by (symmetry; apply (bpow_of_Z (Zpos p) v); [lia | vm_compute; reflexivity])
  | |- context [bpow (Zneg ?p)] =>
      let v := eval vm_compute in (2 ^ Zpos p)%Z in
      replace (bpow (Zneg p)) with (/ IZR v)
        by (symmetry; apply (bpow_of_Z_neg (Zpos p) v); [lia | vm_compute; reflexivity])
  | |- context [bpow 0] => rewrite bpow_0
  | |- context [bpow ?k] =>
      lazymatch k with
      | Zpos _ => fail
      | Zneg _ => fail
      | Z0 => fail
      | _ =>
          let k' := eval vm_compute in k in
          lazymatch k' with
          | Zpos _ => change (bpow k) with (bpow k')
          | Zneg _ => change (bpow k) with (bpow k')
          | Z0 => change (bpow k) with (bpow k')
          end
      end
  end.

Lemma round_eval (prec emax : Z) (x : R) (e c n : Z) :
  c = Z.max (e - prec) (3 - emax - prec) ->
  bpow (e - 1) <= Rabs x < bpow e ->
  rne (x * bpow (- c)) = n ->
  Rabs (IZR n * bpow c) < bpow emax ->
  round prec emax x = Fin (IZR n * bpow c).
Proof.
  intros -> Hx Hn Hb.
  pose proof (round_real_eval prec emax x e n Hx Hn) as E.
  rewrite round_Fin; rewrite E; [reflexivity | exact Hb].
Qed.

Local Close Scope R_scope.

Local Open Scope R_scope.

Lemma in_format_opp prec emax x : in_format prec emax x -> in_format prec emax (- x).
Proof.
  intros [n Hn]. exists (- n)%Z. rewrite cexp_opp, opp_IZR. lra.
Qed.

Lemma MAX_VALUE_pos : 0 < MAX_VALUE.
Proof.
  unfold MAX_VALUE. apply Rmult_lt_0_compat; [|apply bpow_pos].
  apply IZR_lt. reflexivity.
Qed.

Lemma MAX_VALUE_format : in_format 53 1024 MAX_VALUE.
Proof.
  apply (format_intro 53 1024 ltac:(lia) _ (2 ^ 53 - 1) 971); [reflexivity | lia | lia].
Qed.

Lemma MAX_VALUE_lt : MAX_VALUE < bpow 1024.
Proof.
  unfold MAX_VALUE. replace 1024%Z with (53 + 971)%Z by lia. rewrite bpow_add.
  apply Rmult_lt_compat_r; [apply bpow_pos|].
  rewrite bpow_IZR by lia. apply IZR_lt. lia.
Qed.

Lemma double_mono x y : x <= y -> double x <= double y.
Proof. apply round_real_mono. lia. Qed.

Lemma double_fixed x : in_format 53 1024 x -> double x = x.
Proof. apply round_real_fixed. Qed.

Lemma double_opp x : double (- x) = - double x.
Proof. apply round_real_opp. Qed.

(** A real within the range of the doubles rounds to a double. *)
Lemma f64_finite x :
  Rabs x <= MAX_VALUE -> f64 (Fin x) = Fin (double x) /\ Rabs (double x) <= MAX_VALUE.
Proof.
  intros Hx. apply Rabs_bounds in Hx.
  pose proof (double_mono _ _ (proj1 Hx)) as H1.
  pose proof (double_mono _ _ (proj2 Hx)) as H2.
  rewrite double_opp in H1. rewrite (double_fixed _ MAX_VALUE_format) in H1, H2.
  assert (Hb : Rabs (double x) <= MAX_VALUE) by (apply Rabs_le; lra).
  split; [|exact Hb].
  cbn [f64 to_format]. apply round_Fin. fold (double x).
  pose proof MAX_VALUE_lt. lra.
Qed.

Local Close Scope R_scope.

Local Open Scope R_scope.

Lemma MAX_VALUE_ge : 4503599627370496 <= MAX_VALUE.
Proof.
  unfold MAX_VALUE. pose proof (bpow_ge_1 971 ltac:(lia)) as H.
  change (2 ^ 53 - 1)%Z with 9007199254740991%Z. nra.
Qed.

Lemma double_int (n : Z) : (Z.abs n < 2 ^ 53)%Z -> double (IZR n) = IZR n.
Proof.
  intros Hn. apply double_fixed.
  apply (format_intro 53 1024 ltac:(lia) _ n 0); [rewrite bpow_0; lra | exact Hn | lia].
Qed.

(** The mantissa of a number of the format. *)
Lemma format_mantissa prec emax x :
  (1 <= prec)%Z -> in_format prec emax x -> x <> 0 ->
  exists n : Z, x = IZR n * bpow (cexp prec emax x) /\ (Z.abs n < 2 ^ prec)%Z.
Proof.
  intros Hprec [n Hn] Hx. exists n. split; [exact Hn|].
  set (c := cexp prec emax x) in *.
  destruct (mag_spec x Hx) as [_ Hlt].
  apply lt_IZR. rewrite abs_IZR.
  assert (Hny : IZR n = x * bpow (- c)).
  { rewrite Hn, Rmult_assoc, bpow_cancel. lra. }
  rewrite Hny, Rabs_mult, (Rabs_pos_eq (bpow (- c)))
    by (pose proof (bpow_pos (- c)); lra).
  rewrite <- bpow_IZR by lia.
  replace (bpow prec) with (bpow (prec + c) * bpow (- c))
    by (rewrite <- bpow_add; f_equal; lia).
  apply Rmult_lt_compat_r; [apply bpow_pos|].
  apply Rlt_le_trans with (bpow (mag x)); [exact Hlt|].
  apply bpow_le. unfold c, cexp. lia.
Qed.

(** Subtracting a non-negative number from a double, in double
    arithmetic, never gives more than the double. *)
Lemma f64_sub_le (m d : R) :
  f64 (Fin m) = Fin m -> 0 <= d ->
  f64 (Fin (m - d)) = NInf \/ exists zb, f64 (Fin (m - d)) = Fin zb /\ zb <= m.
Proof.
  intros Hm Hd. cbn [f64 to_format] in *.
  apply round_Fin_inv in Hm as (_ & Hb & Hf); [|lia].
  apply (round_le_format 53 1024 ltac:(lia)); [exact Hf | | lra].
  pose proof (Rle_abs m). lra.
Qed.

(** It gives less as soon as the number subtracted is at least one unit
    in the last place of the double. *)
Lemma f64_sub_lt (m d : R) :
  f64 (Fin m) = Fin m ->
  Rabs m * bpow (-52) <= d -> bpow (-1074) <= d ->
  f64 (Fin (m - d)) = NInf \/ exists zb, f64 (Fin (m - d)) = Fin zb /\ zb < m.
Proof.
  intros Hm Hrel Habs. cbn [f64 to_format] in *.
  apply round_Fin_inv in Hm as (_ & Hb & Hf); [|lia].
  pose proof (Rle_abs m) as Hmabs.
  assert (Hstep : exists r, in_format 53 1024 r /\ m - d <= r /\ r < m).
  { destruct (Req_dec m 0) as [->|Hm0].
    - exists (IZR (-1) * bpow (-1074)). split; [|split].
      + apply (format_intro 53 1024 ltac:(lia) _ (-1) (-1074)); [reflexivity | lia | lia].
      + lra.
      + pose proof (bpow_pos (-1074)). lra.
    - destruct (format_mantissa 53 1024 m ltac:(lia) Hf Hm0) as (n & Hn & Hnb).
      set (c := cexp 53 1024 m) in *.
      assert (Hc : (-1074 <= c)%Z) by (unfold c, cexp; lia).
      assert (Hulp : bpow c <= d).
      { unfold c, cexp.
        destruct (Z.max_spec (mag m - 53) (3 - 1024 - 53)) as [[_ ->] | [_ ->]].
        - exact Habs.
        - destruct (mag_spec m Hm0) as [Hlo _].
          replace (mag m - 53)%Z with (mag m - 1 + -52)%Z by lia. rewrite bpow_add.
          pose proof (bpow_pos (-52)). nra. }
      exists (m - bpow c). split; [|split].
      + destruct (Z.eq_dec (n - 1)%Z (- 2 ^ 53)%Z) as [E|Hne].
        * apply (format_intro 53 1024 ltac:(lia) _ (- 2 ^ 52)%Z (c + 1)%Z); [|lia|lia].
          rewrite Hn at 1. replace n with (- 2 ^ 53 + 1)%Z by lia.
          rewrite bpow_add, bpow_1, plus_IZR.
          change (- 2 ^ 53)%Z with (-9007199254740992)%Z.
          change (- 2 ^ 52)%Z with (-4503599627370496)%Z. lra.
        * apply (format_intro 53 1024 ltac:(lia) _ (n - 1)%Z c); [|lia|lia].
          rewrite Hn at 1. rewrite minus_IZR. lra.
      + lra.
      + pose proof (bpow_pos c). lra. }
  destruct Hstep as (r & Hr & Hle & Hlt).
  destruct (round_le_format 53 1024 ltac:(lia) (m - d) r Hr ltac:(lra) Hle)
    as [E | (y & E & Hy)].
  - left. exact E.
  - right. exists y. split; [exact E | lra].
Qed.

Local Close Scope R_scope.

Local Open Scope R_scope.

Lemma bpow_format prec emax k :
  (1 <= prec)%Z -> (3 - emax - prec <= k)%Z -> in_format prec emax (bpow k).
Proof.
  intros Hp Hk. apply (format_intro prec emax Hp _ 1 k); [lra | | exact Hk].
  pose proof (Z.pow_le_mono_r 2 1 prec ltac:(lia) Hp) as H.
  change (2 ^ 1)%Z with 2%Z in H. lia.
Qed.

Lemma zero_format prec emax : in_format prec emax 0.
Proof. exists 0%Z. lra. Qed.

(** A real of magnitude at most [2^k] rounds to a number of magnitude at
    most [2^k]. *)
Lemma round_bounded prec emax k x :
  (1 <= prec)%Z -> (3 - emax - prec <= k < emax)%Z ->
  Rabs x <= bpow k ->
  exists y, round prec emax x = Fin y /\ Rabs y <= bpow k.
Proof.
  intros Hp Hk Hx. apply Rabs_bounds in Hx.
  pose proof (bpow_format prec emax k Hp ltac:(lia)) as Hf.
  pose proof (bpow_lt k emax ltac:(lia)) as Hlt.
  destruct (round_between prec emax Hp (- bpow k) (bpow k) x) as (y & E & Hy).
  - apply in_format_opp. exact Hf.
  - exact Hf.
  - lra.
  - exact Hlt.
  - exact Hx.
  - exists y. split; [exact E|]. apply Rabs_le. exact Hy.
Qed.

Lemma f64_bounded k x :
  (-1074 <= k <= 1023)%Z -> Rabs x <= bpow k ->
  exists y, f64 (Fin x) = Fin y /\ Rabs y <= bpow k.
Proof. intros Hk. apply round_bounded; lia. Qed.

Lemma fround_bounded k x :
  (-149 <= k <= 127)%Z -> Rabs x <= bpow k ->
  exists y, Math_fround (Fin x) = Fin y /\ Rabs y <= bpow k.
Proof. intros Hk. apply round_bounded; lia. Qed.

Lemma double_bounded k x :
  (-1074 <= k <= 1023)%Z -> Rabs x <= bpow k ->
  f64 (Fin x) = Fin (double x) /\ Rabs (double x) <= bpow k.
Proof.
  intros Hk Hx. destruct (f64_bounded k x Hk Hx) as (y & E & Hy).
  cbn [f64 to_format] in E. apply round_Fin_inv in E as E'; [|lia].
  destruct E' as (-> & _). split; [exact E | exact Hy].
Qed.

(** A real of the unit interval is stored as a single of the unit
    interval. *)
Lemma fround_unit x :
  0 <= x <= 1 -> exists y, Math_fround (Fin x) = Fin y /\ 0 <= y <= 1.
Proof.
  intros Hx. rewrite <- bpow_0 in Hx.
  destruct (round_between 24 128 ltac:(lia) 0 (bpow 0) x) as (y & E & Hy).
  - apply zero_format.
  - apply bpow_format; lia.
  - pose proof (bpow_pos 128). lra.
  - apply bpow_lt. lia.
  - exact Hx.
  - exists y. split; [exact E|]. rewrite bpow_0 in Hy. exact Hy.
Qed.

Lemma f64_0 : f64 (Fin 0) = Fin 0.
Proof. apply (f64_int 0). lia. Qed.


(** The literals of the builder. *)
Lemma lit_1e_6 : exists d, lit 1e-6 = Fin d /\ bpow (-20) <= d.
Proof.
  unfold lit.
  destruct (round_between 53 1024 ltac:(lia) (bpow (-20)) (bpow (-19)) 1e-6)
    as (y & E & Hy).
  - apply bpow_format; lia.
  - apply bpow_format; lia.
  - pose proof (bpow_pos 1024). pose proof (bpow_pos (-20)). lra.
  - apply bpow_lt. lia.
  - bpow_eval. lra.
  - exists y. split; [exact E | lra].
Qed.

Lemma lit_0_2 : lit 0.2 = Fin (IZR 7205759403792794 * bpow (-55)).
Proof.
  unfold lit. cbn [f64 to_format].
  apply (round_eval 53 1024 _ (-2) (-55) 7205759403792794).
  - reflexivity.
  - rewrite Rabs_pos_eq by lra. bpow_eval. lra.
  - apply rne_near. bpow_eval. lra.
  - rewrite Rabs_pos_eq by (bpow_eval; lra).
    apply Rlt_trans with (bpow 0); [bpow_eval; lra | apply bpow_lt; lia].
Qed.

(** The gray of the bottom vertices, as the color buffer holds it:
    0.20000000298023224. *)
Lemma stored_gray : Math_fround (lit 0.2) = Fin (13421773 / 67108864).
Proof.
  rewrite lit_0_2. cbn [Math_fround to_format].
  rewrite (round_eval 24 128 _ (-2) (-26) 13421773).
  - f_equal. bpow_eval. lra.
  - reflexivity.
  - rewrite Rabs_pos_eq by (bpow_eval; lra). bpow_eval. lra.
  - apply rne_near. bpow_eval. lra.
  - rewrite Rabs_pos_eq by (bpow_eval; lra).
    apply Rlt_trans with (bpow 0); [bpow_eval; lra | apply bpow_lt; lia].
Qed.

Local Close Scope R_scope.

Lemma single_is_double (v : R) : Math_fround (Fin v) = Fin v -> f64 (Fin v) = Fin v.
Proof. intros H. rewrite <- H at 1. rewrite fround_f64. exact H. Qed.

Lemma single_f64 (x : num) : Math_fround x = x -> f64 x = x.
Proof. intros H. rewrite <- H at 1. rewrite fround_f64. exact H. Qed.

Lemma fround_idem (a : num) : Math_fround (Math_fround a) = Math_fround a.
Proof. apply to_format_idem. lia. Qed.

Lemma f64_idem (a : num) : f64 (f64 a) = f64 a.
Proof. apply to_format_idem. lia. Qed.

(** ** Export scaling *)

Lemma scalePositionsFromGeometry_spec (g : BufferGeometry) (scale : num) (n : nat) :
  length (position g) = (3 * n)%nat ->
  let res := scalePositionsFromGeometry g scale in
  snd res = g
  /\ length (fst res) = length (position g)
  /\ forall (j : nat) (x : num),
       position g !! j = Some x ->
       fst res !! j = Some (Math_fround (mul64 x scale)).
Proof.
  intros Hlen res. subst res. unfold scalePositionsFromGeometry.
  assert (Hcount : count g = Z.of_nat n).
  { unfold count. rewrite Hlen.
    replace (Z.of_nat (3 * n)) with (Z.of_nat n * 3) by lia.
    apply Z.div_mul. lia. }
  rewrite Hcount.
  pose (P := fun (i : Z) (st : list num * BufferGeometry) =>
               snd st = g
               /\ length (fst st) = (3 * n)%nat
               /\ forall (j : nat) (x : num),
                    Z.of_nat j < 3 * i -> position g !! j = Some x ->
                    fst st !! j = Some (Math_fround (mul64 x scale))).
  assert (HP : P (Z.of_nat n)
                 (for_upto (Z.of_nat n) (scale_body scale)
                    (new_Float32Array (Z.of_nat n * 3), g))).
  { apply for_upto_ind; [lia| |].
    - unfold P. simpl. split; [reflexivity|]. split.
      + rewrite length_new_Float32Array. lia.
      + intros j x Hj. lia.
    - intros i [arr g'] Hi (Hg & Harr & Hpre). simpl in Hg, Harr, Hpre. subst g'.
      unfold P, scale_body. simpl fst. simpl snd.
      split; [reflexivity|]. split; [rewrite !length_set; exact Harr|].
      intros j x Hj Hx.
      rewrite !lookup_set, !length_set.
      repeat case_decide.
      + unfold getZ. do 3 f_equal. apply get_lookup; [lia|].
        replace (Z.to_nat (i * 3 + 2)) with j by lia. exact Hx.
      + unfold getY. do 3 f_equal. apply get_lookup; [lia|].
        replace (Z.to_nat (i * 3 + 1)) with j by lia. exact Hx.
      + unfold getX. do 3 f_equal. apply get_lookup; [lia|].
        replace (Z.to_nat (i * 3)) with j by lia. exact Hx.
      + apply Hpre; [|exact Hx].
        apply lookup_lt_Some in Hx. lia. }
  destruct HP as (Hg & Harr & Hall).
  split; [exact Hg|]. split; [lia|].
  intros j x Hx. apply Hall; [|exact Hx].
  apply lookup_lt_Some in Hx. lia.
Qed.

(** The product of two small integers is stored as it is. *)
Lemma store_int_product (a b : Z) :
  Z.abs (a * b) < 2 ^ 24 ->
  Math_fround (mul64 (Fin (IZR a)) (Fin (IZR b))) = Fin (IZR (a * b)).
Proof.
  intros Hab. unfold mul64. cbn [num_mul]. rewrite <- mult_IZR.
  rewrite f64_int by lia. apply fround_int. exact Hab.
Qed.

(** C9, as stated, fails: the position (11131.99609375, 0, 0), whose
    components are single-precision numbers, scaled by 1000 gets the first
    component 11131996, not 11131996.09375: the product is rounded by the
    store into the [Float32Array]. *)
Lemma scaled_component_is_rounded :
  let g := {| position := [Fin 11131.99609375; Fin 0; Fin 0];
              color := []; index := [] |} in
  Math_fround (Fin 11131.99609375) = Fin 11131.99609375
  /\ num_mul (Fin 11131.99609375) (Fin 1000) = Fin 11131996.09375
  /\ fst (scalePositionsFromGeometry g (Fin 1000)) !! 0%nat = Some (Fin 11131996)
  /\ Fin 11131996 <> Fin 11131996.09375.
Proof.
  intros g.
  assert (Hprod : num_mul (Fin 11131.99609375) (Fin 1000) = Fin 11131996.09375)
    by (cbn [num_mul]; f_equal; lra).
  split; [|split; [exact Hprod|split]].
  - replace 11131.99609375%R with (IZR 2849791 * bpow (-8))%R by (bpow_eval; lra).
    apply fround_dyadic; lia.
  - destruct (scalePositionsFromGeometry_spec g (Fin 1000) 1 eq_refl) as (_ & _ & Hall).
    rewrite (Hall 0%nat (Fin 11131.99609375) eq_refl).
    unfold mul64. rewrite Hprod. f_equal.
    assert (Hd : f64 (Fin 11131996.09375) = Fin 11131996.09375).
    { replace 11131996.09375%R with (IZR 2849791000 * bpow (-8))%R by (bpow_eval; lra).
      apply f64_dyadic; lia. }
    rewrite Hd. cbn [Math_fround to_format].
    rewrite (round_eval 24 128 _ 24 0 11131996).
    + f_equal. bpow_eval. lra.
    + reflexivity.
    + rewrite Rabs_pos_eq by lra. bpow_eval. lra.
    + apply rne_near. bpow_eval. lra.
    + rewrite Rabs_pos_eq by (bpow_eval; lra).
      apply Rlt_trans with (bpow 24); [bpow_eval; lra | apply bpow_lt; lia].
  - intros [= H]. lra.
Qed.

(** C9, amended: [scalePositionsFromGeometry] returns an array as long as
    the position buffer, each component being the double product of the
    input component and the factor rounded to single precision (the
    product itself where it is a single-precision number), and leaves the
    geometry (position, color, index) as it was; with the factor 1000 the
    buffer of the self-test, whose first position is (1,2,3), becomes
    (1000,2000,3000), (4000,5000,6000). *)
Theorem scalePositionsFromGeometry_scales (g : BufferGeometry) (scale : num) (n : nat) :
  length (position g) = (3 * n)%nat ->
  let res := scalePositionsFromGeometry g scale in
  length (fst res) = length (position g)
  /\ (forall (j : nat) (x : num),
        position g !! j = Some x ->
        fst res !! j = Some (Math_fround (mul64 x scale)))
  /\ (forall (j : nat) (x : num) (v : R),
        position g !! j = Some x ->
        num_mul x scale = Fin v -> Math_fround (Fin v) = Fin v ->
        fst res !! j = Some (Fin v))
  /\ snd res = g
  /\ scalePositionsFromGeometry test_geom (Fin 1000) =
       ([Fin 1000; Fin 2000; Fin 3000; Fin 4000; Fin 5000; Fin 6000], test_geom).
Proof.
  intros Hlen res. subst res.
  destruct (scalePositionsFromGeometry_spec g scale n Hlen) as (Hg & Hl & Hall).
  split; [exact Hl|]. split; [exact Hall|]. split; [|split; [exact Hg|]].
  - intros j x v Hx Hv Hsingle. rewrite (Hall j x Hx). f_equal.
    unfold mul64. rewrite Hv, (single_is_double v Hsingle). exact Hsingle.
  - destruct (scalePositionsFromGeometry_spec test_geom (Fin 1000) 2 eq_refl)
      as (Hg' & Hl' & Hall').
    destruct (scalePositionsFromGeometry test_geom (Fin 1000)) as [arr g'].
    simpl in Hg', Hl', Hall'. subst g'. f_equal.
    do 7 (destruct arr as [|? arr]; try discriminate Hl').
    pose proof (Hall' 0%nat _ eq_refl) as H0.
    pose proof (Hall' 1%nat _ eq_refl) as H1.
    pose proof (Hall' 2%nat _ eq_refl) as H2.
    pose proof (Hall' 3%nat _ eq_refl) as H3.
    pose proof (Hall' 4%nat _ eq_refl) as H4.
    pose proof (Hall' 5%nat _ eq_refl) as H5.
    rewrite store_int_product in H0, H1, H2, H3, H4, H5 by lia.
    cbn [lookup list_lookup] in H0, H1, H2, H3, H4, H5.
    injection H0 as ->. injection H1 as ->. injection H2 as ->.
    injection H3 as ->. injection H4 as ->. injection H5 as ->.
    reflexivity.
Qed.

Lemma scalePositionsFromGeometry_scales_witness :
  let res := scalePositionsFromGeometry test_geom (Fin 1000) in
  length (fst res) = length (position test_geom)
  /\ fst res !! 0%nat = Some (Fin 1000)
  /\ snd res = test_geom.
Proof.
  destruct (scalePositionsFromGeometry_scales test_geom (Fin 1000) 2 eq_refl)
    as (Hl & _ & _ & Hg & E).
  split; [exact Hl|]. split; [rewrite E; reflexivity | exact Hg].
Defined.

(** ** The index lookup tables *)

Lemma to_int32_small z : - 2 ^ 31 <= z < 2 ^ 31 -> to_int32 z = z.
Proof.
  intros Hz. unfold to_int32.
  rewrite Z.mod_small by lia. lia.
Qed.

Lemma fill_idx_spec n step last :
  length (fill_idx n step last) = Z.to_nat n
  /\ forall j, 0 <= j < n ->
       fill_idx n step last !! Z.to_nat j = Some (to_int32 (Z.min (j * step) last)).
Proof.
  unfold fill_idx.
  destruct (Z_lt_le_dec n 0) as [Hn|Hn].
  { rewrite for_upto_nonpos by lia. simpl.
    split; [apply length_new_Int32Array | intros; lia]. }
  pose (P := fun (i : Z) (st : list Z * Z) =>
               snd st = i * step
               /\ length (fst st) = Z.to_nat n
               /\ forall j, 0 <= j < i ->
                    fst st !! Z.to_nat j = Some (to_int32 (Z.min (j * step) last))).
  assert (HP : P n (for_upto n (fill_idx_body step last) (new_Int32Array n, 0))).
  { apply for_upto_ind; [exact Hn| |].
    - unfold P. simpl. split; [lia|].
      split; [apply length_new_Int32Array | intros; lia].
    - intros i [idx v] Hi (Hv & Hlen & Hpre). simpl in Hv, Hlen, Hpre. subst v.
      unfold P, fill_idx_body. simpl fst. simpl snd.
      split; [lia|]. split; [rewrite length_set; exact Hlen|].
      intros j Hj. rewrite lookup_set. case_decide as Hd.
      + replace j with i by lia. reflexivity.
      + apply Hpre. lia. }
  destruct HP as (_ & Hlen & Hall). split; assumption.
Qed.

(** One axis of the grid: [n] source rows (or columns) walked with the
    stride [step]. *)
Section Axis.
Variables n step : Z.
Hypothesis Hn : 1 <= n <= 2 ^ 31.
Hypothesis Hstep : 1 <= step.

Let cnt := ceil_div n step.
Let idx := fill_idx cnt step (n - 1).

Lemma axis_count_pos : 1 <= cnt.
Proof. apply ceil_div_pos; lia. Qed.

(** The walk stays inside the source: the clamp never acts. *)
Lemma axis_walk_inside j : 0 <= j < cnt -> 0 <= j * step <= n - 1.
Proof.
  intros Hj. pose proof (ceil_div_spec n step ltac:(lia)) as Hc.
  fold cnt in Hc. nia.
Qed.

Lemma axis_length : length idx = Z.to_nat cnt.
Proof. apply fill_idx_spec. Qed.

Lemma axis_lookup_min j :
  0 <= j < cnt -> idx !! Z.to_nat j = Some (Z.min (j * step) (n - 1)).
Proof.
  intros Hj. unfold idx.
  rewrite (proj2 (fill_idx_spec cnt step (n - 1)) j Hj).
  pose proof (axis_walk_inside j Hj).
  rewrite to_int32_small by lia. reflexivity.
Qed.

Lemma axis_lookup j : 0 <= j < cnt -> idx !! Z.to_nat j = Some (j * step).
Proof.
  intros Hj. rewrite axis_lookup_min by exact Hj.
  pose proof (axis_walk_inside j Hj). f_equal. lia.
Qed.

Lemma axis_first : idx !! 0%nat = Some 0.
Proof.
  pose proof axis_count_pos.
  change 0%nat with (Z.to_nat 0). rewrite axis_lookup by lia. reflexivity.
Qed.

(** The last source index is sampled exactly when the stride divides
    it. *)
Lemma axis_far_edge : n - 1 ∈ idx <-> (n - 1) mod step = 0.
Proof.
  pose proof (ceil_div_spec n step ltac:(lia)) as Hc. fold cnt in Hc.
  split.
  - intros Hin. apply list_elem_of_lookup in Hin as [i Hi].
    assert (Hlt : (i < Z.to_nat cnt)%nat).
    { rewrite <- axis_length. eapply lookup_lt_Some. exact Hi. }
    rewrite <- (Nat2Z.id i) in Hi.
    rewrite axis_lookup in Hi by lia.
    injection Hi as Hi. rewrite <- Hi. apply Z.mod_mul. lia.
  - intros Hmod. apply list_elem_of_lookup.
    exists (Z.to_nat ((n - 1) / step)).
    pose proof (Z.div_mod (n - 1) step ltac:(lia)) as Hdm.
    rewrite Hmod in Hdm.
    assert (Hq : 0 <= (n - 1) / step) by (apply Z.div_pos; lia).
    rewrite axis_lookup by nia. f_equal. lia.
Qed.
End Axis.

Lemma grid_dims_small R C :
  1 <= R -> 1 <= C -> R * C <= 150000000 -> R <= 2 ^ 31 /\ C <= 2 ^ 31.
Proof. intros. split; nia. Qed.

(** C2, as stated, fails: for a 1000 x 1000 grid and [maxDim = 900] the
    strides are 2 and the sampled rows are 0, 2, ..., 998; the last source
    row 999 is not among them. *)
Lemma far_edge_not_sampled :
  let steps := calcSteps 1000 1000 (clamp 900 100 MAX_DIM) in
  let rows1 := ceil_div 1000 (stepY steps) in
  stepY steps = 2 /\ rows1 = 500
  /\ 1000 - 1 ∉ fill_idx rows1 (stepY steps) (1000 - 1).
Proof.
  intros steps rows1.
  assert (Hs : stepY steps = 2) by (vm_compute; reflexivity).
  assert (Hr : rows1 = 500) by (vm_compute; reflexivity).
  split; [exact Hs|]. split; [exact Hr|].
  rewrite Hs, Hr. change 500 with (ceil_div 1000 2).
  rewrite (axis_far_edge 1000 2) by lia.
  vm_compute. discriminate.
Qed.

(** C2, amended: each down-sampled position [i] maps to the source index
    [min(i * stride, last)], which is [i * stride] itself (the walk never
    passes the last index); position 0 maps to source index 0; the last
    source row (column) is among the sampled ones exactly when the stride
    divides [rows - 1] ([cols - 1]). *)
Theorem index_tables_stride_walk (R C maxDim : Z) :
  1 <= R -> 1 <= C -> R * C <= 150000000 ->
  let steps := calcSteps R C (clamp maxDim 100 MAX_DIM) in
  let rows1 := ceil_div R (stepY steps) in
  let cols1 := ceil_div C (stepX steps) in
  let rowsIdx := fill_idx rows1 (stepY steps) (R - 1) in
  let colsIdx := fill_idx cols1 (stepX steps) (C - 1) in
  (forall i, 0 <= i < rows1 ->
     rowsIdx !! Z.to_nat i = Some (Z.min (i * stepY steps) (R - 1))
     /\ Z.min (i * stepY steps) (R - 1) = i * stepY steps)
  /\ (forall j, 0 <= j < cols1 ->
        colsIdx !! Z.to_nat j = Some (Z.min (j * stepX steps) (C - 1))
        /\ Z.min (j * stepX steps) (C - 1) = j * stepX steps)
  /\ rowsIdx !! 0%nat = Some 0 /\ colsIdx !! 0%nat = Some 0
  /\ (R - 1 ∈ rowsIdx <-> (R - 1) mod stepY steps = 0)
  /\ (C - 1 ∈ colsIdx <-> (C - 1) mod stepX steps = 0).
Proof.
  intros HR HC Hcap steps rows1 cols1 rowsIdx colsIdx.
  destruct (grid_dims_small R C HR HC Hcap) as [HR' HC'].
  destruct (calcSteps_pos R C (clamp maxDim 100 MAX_DIM)) as [Hsy Hsx].
  fold steps in Hsy, Hsx.
  split; [|split; [|split; [|split; [|split]]]].
  - intros i Hi. split; [apply axis_lookup_min; lia|].
    assert (0 <= i * stepY steps <= R - 1) by (apply axis_walk_inside; lia).
    lia.
  - intros j Hj. split; [apply axis_lookup_min; lia|].
    assert (0 <= j * stepX steps <= C - 1) by (apply axis_walk_inside; lia).
    lia.
  - apply axis_first; lia.
  - apply axis_first; lia.
  - apply axis_far_edge; lia.
  - apply axis_far_edge; lia.
Qed.

Lemma index_tables_stride_walk_witness :
  let steps := calcSteps 1000 1000 (clamp 900 100 MAX_DIM) in
  let rows1 := ceil_div 1000 (stepY steps) in
  let cols1 := ceil_div 1000 (stepX steps) in
  let rowsIdx := fill_idx rows1 (stepY steps) (1000 - 1) in
  let colsIdx := fill_idx cols1 (stepX steps) (1000 - 1) in
  (forall i, 0 <= i < rows1 ->
     rowsIdx !! Z.to_nat i = Some (Z.min (i * stepY steps) (1000 - 1))
     /\ Z.min (i * stepY steps) (1000 - 1) = i * stepY steps)
  /\ (forall j, 0 <= j < cols1 ->
        colsIdx !! Z.to_nat j = Some (Z.min (j * stepX steps) (1000 - 1))
        /\ Z.min (j * stepX steps) (1000 - 1) = j * stepX steps)
  /\ rowsIdx !! 0%nat = Some 0 /\ colsIdx !! 0%nat = Some 0
  /\ (1000 - 1 ∈ rowsIdx <-> (1000 - 1) mod stepY steps = 0)
  /\ (1000 - 1 ∈ colsIdx <-> (1000 - 1) mod stepX steps = 0).
Proof. apply (index_tables_stride_walk 1000 1000 900); lia. Defined.

(** ** Loops over the decimated grid *)

Lemma for_upto_preserve {S : Type} (Q : S -> Prop) n (body : S -> Z -> S) s :
  Q s ->
  (forall s' i, 0 <= i < n -> Q s' -> Q (body s' i)) ->
  Q (for_upto n body s).
Proof.
  intros Hs Hbody.
  destruct (Z_lt_le_dec n 0) as [Hn|Hn].
  - rewrite for_upto_nonpos by lia. exact Hs.
  - apply (for_upto_ind (fun _ s' => Q s')); auto.
Qed.

(** Two nested loops visit the cells in row-major order: the invariant is
    indexed by the number [k = ii * c + jj] of cells already visited. *)
Lemma for_upto2_ind {S : Type} (P : Z -> S -> Prop) r c (f : S -> Z -> Z -> S) s :
  0 <= r -> 0 <= c ->
  P 0 s ->
  (forall k s', 0 <= k < r * c -> P k s' -> P (k + 1) (f s' (k / c) (k mod c))) ->
  P (r * c) (for_upto r (fun s ii => for_upto c (fun s jj => f s ii jj) s) s).
Proof.
  intros Hr Hc H0 Hstep.
  apply (for_upto_ind (fun ii s' => P (ii * c) s')); [exact Hr | exact H0 |].
  intros ii s' Hii Hs'.
  replace ((ii + 1) * c) with (ii * c + c) by lia.
  apply (for_upto_ind (fun jj s'' => P (ii * c + jj) s'')); [exact Hc | |].
  - rewrite Z.add_0_r. exact Hs'.
  - intros jj s'' Hjj Hs''.
    replace (ii * c + (jj + 1)) with (ii * c + jj + 1) by lia.
    specialize (Hstep (ii * c + jj) s'' ltac:(nia) Hs'').
    replace ((ii * c + jj) / c) with ii in Hstep
      by (rewrite Z.add_comm, Z.div_add by lia; rewrite Z.div_small by lia; lia).
    replace ((ii * c + jj) mod c) with jj in Hstep
      by (rewrite Z.add_comm, Z.mod_add by lia; rewrite Z.mod_small by lia; lia).
    exact Hstep.
Qed.

(** ** The triangles *)

Lemma length_push6 faces a b c d e f :
  Z.of_nat (length (push6 faces a b c d e f)) = Z.of_nat (length faces) + 6.
Proof. unfold push6. rewrite length_app. simpl. lia. Qed.

Lemma Forall_push6 (P : Z -> Prop) faces a b c d e f :
  P a -> P b -> P c -> P d -> P e -> P f ->
  Forall P faces -> Forall P (push6 faces a b c d e f).
Proof.
  intros. unfold push6. apply Forall_app. split; [assumption|].
  repeat constructor; assumption.
Qed.

(** A loop whose body appends [k] indices that satisfy [P]. *)
Lemma for_upto_push (P : Z -> Prop) n k (body : list Z -> Z -> list Z) faces :
  0 <= n ->
  (forall fs i, 0 <= i < n ->
     Z.of_nat (length (body fs i)) = Z.of_nat (length fs) + k
     /\ (Forall P fs -> Forall P (body fs i))) ->
  Z.of_nat (length (for_upto n body faces)) = Z.of_nat (length faces) + k * n
  /\ (Forall P faces -> Forall P (for_upto n body faces)).
Proof.
  intros Hn Hbody.
  apply (for_upto_ind
           (fun i fs => Z.of_nat (length fs) = Z.of_nat (length faces) + k * i
                        /\ (Forall P faces -> Forall P fs))); [exact Hn | |].
  - split; [lia | auto].
  - intros i fs Hi [Hlen HP].
    destruct (Hbody fs i Hi) as [Hlen' HP'].
    split; [lia | auto].
Qed.

Ltac push_body :=
  let fs := fresh "fs" in
  let i := fresh "i" in
  let Hi := fresh "Hi" in
  intros fs i Hi;
  split; [apply length_push6 | intros ?; apply Forall_push6; (assumption || nia)].

Ltac push_stage P k :=
  match goal with
  | |- context [for_upto ?n ?b ?f0] =>
      first [is_var f0 | unify f0 (@nil Z)];
      let H := fresh "Hstage" in
      assert (H : Z.of_nat (length (for_upto n b f0)) = Z.of_nat (length f0) + k * n
                  /\ (Forall P f0 -> Forall P (for_upto n b f0)));
      [ apply for_upto_push; [lia|]
      | destruct H; generalize dependent (for_upto n b f0); intros ]
  end.

Lemma build_faces_spec r c :
  1 <= r -> 1 <= c ->
  Z.of_nat (length (build_faces r c)) =
    3 * (4 * (r - 1) * (c - 1) + 4 * (r - 1) + 4 * (c - 1))
  /\ Forall (fun v => 0 <= v < 2 * (r * c)) (build_faces r c).
Proof.
  intros Hr Hc. unfold build_faces. cbv zeta.
  pose (P := fun v : Z => 0 <= v < 2 * (r * c)).
  assert (Hnil : Forall P (@nil Z)) by constructor.
  push_stage P (6 * (c - 1)).
  { intros fs i Hi. apply for_upto_push; [lia|]. unfold P. push_body. }
  push_stage P 6. { unfold P. push_body. }
  push_stage P 6. { unfold P. push_body. }
  push_stage P 6. { unfold P. push_body. }
  push_stage P 6. { unfold P. push_body. }
  push_stage P (6 * (c - 1)).
  { intros fs i Hi. apply for_upto_push; [lia|]. unfold P. push_body. }
  split; [simpl length in *; lia | auto 10].
Qed.

(** ** The surface scan *)

(** When every sampled elevation is a real, [zMinSurface] is the least of
    them; [v k] is the sample of cell [k], counted in row-major order. *)
Lemma scan_surface_min (Zg : list num) (C : Z) (exag : num)
    (rowsIdx colsIdx : list Z) (r c : Z) (v : Z -> R) :
  1 <= r -> 1 <= c ->
  (forall k, 0 <= k < r * c ->
     sample Zg C exag (rowsIdx !! Z.to_nat (k / c)) (colsIdx !! Z.to_nat (k mod c))
     = Fin (v k)) ->
  exists m : R,
    fst (scan_surface Zg C exag rowsIdx colsIdx r c) = Fin m
    /\ (forall k, 0 <= k < r * c -> (m <= v k)%R)
    /\ (exists k, 0 <= k < r * c /\ m = v k).
Proof.
  intros Hr Hc Hv.
  pose (P := fun (k : Z) (st : num * num) =>
               (k = 0 /\ fst st = PInf)
               \/ (exists m : R,
                     fst st = Fin m
                     /\ (forall k', 0 <= k' < k -> (m <= v k')%R)
                     /\ (exists k', 0 <= k' < k /\ m = v k'))).
  assert (HP : P (r * c) (scan_surface Zg C exag rowsIdx colsIdx r c)).
  { unfold scan_surface, scan_body.
    refine (for_upto2_ind P r c
              (fun st ii jj =>
                 let '(zMinSurface, zMaxSurface) := st in
                 let z := sample Zg C exag (rowsIdx !! Z.to_nat ii)
                                 (colsIdx !! Z.to_nat jj) in
                 (if num_lt z zMinSurface then z else zMinSurface,
                  if num_gt z zMaxSurface then z else zMaxSurface))
              (PInf, NInf) _ _ _ _); [lia | lia | left; auto |].
    intros k [zMin zMax] Hk HPk. cbv zeta. rewrite (Hv k Hk).
    right. destruct HPk as [[-> Hmin] | (m & Hmin & Hle & k' & Hk' & Heq)];
      simpl in Hmin; subst zMin.
    - exists (v 0). simpl. split; [reflexivity|]. split.
      + intros k' Hk'. replace k' with 0 by lia. lra.
      + exists 0. split; [lia | reflexivity].
    - simpl. destruct (Rlt_dec (v k) m) as [Hlt|Hge].
      + exists (v k). split; [reflexivity|]. split.
        * intros k'' Hk''. destruct (Z.eq_dec k'' k) as [->|Hne]; [lra|].
          specialize (Hle k'' ltac:(lia)). lra.
        * exists k. split; [lia | reflexivity].
      + exists m. split; [reflexivity|]. split.
        * intros k'' Hk''. destruct (Z.eq_dec k'' k) as [->|Hne]; [lra|].
          apply Hle. lia.
        * exists k'. split; [lia | exact Heq]. }
  destruct HP as [[H0 _] | HP]; [nia | exact HP].
Qed.

(** ** The vertex buffers *)

Lemma get_Some (a : list num) (i : Z) :
  0 <= i < Z.of_nat (length a) -> a !! Z.to_nat i = Some (get a i).
Proof.
  intros Hi. destruct (lookup_lt_is_Some_2 a (Z.to_nat i) ltac:(lia)) as [x Hx].
  rewrite Hx. f_equal. symmetry. apply get_lookup; [lia | exact Hx].
Qed.

(** Three consecutive writes, as [push_vertex] does them. *)
Lemma lookup_set3 {A : Type} (a : list A) (q : Z) (x y z : A) :
  0 <= q -> q + 2 < Z.of_nat (length a) ->
  set (set (set a q x) (q + 1) y) (q + 2) z !! Z.to_nat q = Some x
  /\ set (set (set a q x) (q + 1) y) (q + 2) z !! Z.to_nat (q + 1) = Some y
  /\ set (set (set a q x) (q + 1) y) (q + 2) z !! Z.to_nat (q + 2) = Some z.
Proof.
  intros Hq Hlen. repeat split.
  - rewrite lookup_set_ne by lia. rewrite lookup_set_ne by lia.
    apply lookup_set_eq. lia.
  - rewrite lookup_set_ne by lia. apply lookup_set_eq. rewrite length_set. lia.
  - apply lookup_set_eq. rewrite !length_set. lia.
Qed.

Lemma lookup_set3_ne {A : Type} (a : list A) (q : Z) (x y z : A) (j : nat) :
  Z.of_nat j < q \/ q + 2 < Z.of_nat j ->
  set (set (set a q x) (q + 1) y) (q + 2) z !! j = a !! j.
Proof. intros Hj. rewrite !lookup_set_ne by lia. reflexivity. Qed.

Lemma push_vertex_lengths s x y z r g b :
  length (positions (push_vertex s x y z r g b)) = length (positions s)
  /\ length (colors (push_vertex s x y z r g b)) = length (colors s).
Proof. unfold push_vertex. simpl. rewrite !length_set. auto. Qed.

(** Every loop of the builder keeps the sizes of the two buffers. *)
Lemma top_loop_lengths lats lons Zg C exag rowsIdx colsIdx r c lat0 lon0 mLat mLon s :
  let s1 := for_upto r (top_body lats lons Zg C exag rowsIdx colsIdx c
                                 lat0 lon0 mLat mLon) s in
  length (positions s1) = length (positions s)
  /\ length (colors s1) = length (colors s).
Proof.
  apply (for_upto_preserve
           (fun s' => length (positions s') = length (positions s)
                      /\ length (colors s') = length (colors s))); [auto|].
  intros s' ii _ Hs'. unfold top_body. cbv zeta.
  apply for_upto_preserve; [exact Hs'|].
  intros s'' jj _ [Hp Hc].
  match goal with |- context [push_vertex s'' ?x ?y ?z ?r ?g ?b] =>
    destruct (push_vertex_lengths s'' x y z r g b) as [-> ->] end.
  auto.
Qed.

Lemma bottom_loop_lengths c bz r s :
  let s2 := for_upto r (bottom_body c bz) s in
  length (positions s2) = length (positions s)
  /\ length (colors s2) = length (colors s).
Proof.
  apply (for_upto_preserve
           (fun s' => length (positions s') = length (positions s)
                      /\ length (colors s') = length (colors s))); [auto|].
  intros s' ii _ Hs'. unfold bottom_body.
  apply for_upto_preserve; [exact Hs'|].
  intros s'' jj _ [Hp Hc]. cbv zeta.
  match goal with |- context [push_vertex s'' ?x ?y ?z ?r ?g ?b] =>
    destruct (push_vertex_lengths s'' x y z r g b) as [-> ->] end.
  auto.
Qed.

(** The color loop writes colors only. *)
Lemma color_loop_spec c zMin dz r s :
  let s3 := for_upto r (color_body c zMin dz) s in
  positions s3 = positions s
  /\ length (colors s3) = length (colors s).
Proof.
  apply (for_upto_preserve
           (fun s' => positions s' = positions s
                      /\ length (colors s') = length (colors s))); [auto|].
  intros s' ii _ Hs'. unfold color_body.
  apply for_upto_preserve; [exact Hs'|].
  intros s'' jj _ [Hp Hc]. cbv zeta.
  destruct (viridis _) as [[cr cg] cb]. simpl.
  rewrite !length_set. auto.
Qed.

(** The top loop writes vertex [k] at the offsets [3k], [3k+1], [3k+2];
    the third component is the sample of cell [k], rounded by the store. *)
Lemma top_loop_spec lats lons Zg C exag rowsIdx colsIdx r c lat0 lon0 mLat mLon s :
  0 <= r -> 0 <= c ->
  p s = 0 ->
  3 * (r * c) <= Z.of_nat (length (positions s)) ->
  let s1 := for_upto r (top_body lats lons Zg C exag rowsIdx colsIdx c
                                 lat0 lon0 mLat mLon) s in
  p s1 = 3 * (r * c)
  /\ forall k, 0 <= k < r * c ->
       positions s1 !! Z.to_nat (3 * k + 2)
       = Some (Math_fround (sample Zg C exag (rowsIdx !! Z.to_nat (k / c))
                                   (colsIdx !! Z.to_nat (k mod c)))).
Proof.
  intros Hr Hc Hp0 Hlen s1.
  pose (P := fun (k : Z) (s' : Buffers) =>
               p s' = 3 * k
               /\ length (positions s') = length (positions s)
               /\ forall k', 0 <= k' < k ->
                    positions s' !! Z.to_nat (3 * k' + 2)
                    = Some (Math_fround
                              (sample Zg C exag (rowsIdx !! Z.to_nat (k' / c))
                                      (colsIdx !! Z.to_nat (k' mod c))))).
  assert (HP : P (r * c) s1).
  { subst s1. unfold top_body.
    refine (for_upto2_ind P r c
              (fun s' ii jj =>
                 push_vertex s'
                   (mul64 (sub64 (get_at lons (colsIdx !! Z.to_nat jj)) lon0) mLon)
                   (mul64 (sub64 (get_at lats (rowsIdx !! Z.to_nat ii)) lat0) mLat)
                   (sample Zg C exag (rowsIdx !! Z.to_nat ii) (colsIdx !! Z.to_nat jj))
                   (Fin 0) (Fin 0) (Fin 0))
              s Hr Hc _ _).
    - unfold P. split; [lia|]. split; [reflexivity | intros; lia].
    - intros k s' Hk (Hp & Hl & Hpre). unfold P.
      split; [simpl; lia|].
      split; [rewrite (proj1 (push_vertex_lengths _ _ _ _ _ _ _)); exact Hl|].
      intros k' Hk'. unfold push_vertex. cbn [positions]. rewrite Hp.
      destruct (Z.eq_dec k' k) as [->|Hne].
      + apply lookup_set3; lia.
      + rewrite lookup_set3_ne by lia. apply Hpre. lia. }
  destruct HP as (Hp & _ & Hall). split; assumption.
Qed.

(** The top loop: the planar coordinates of vertex [k] and the color
    cursor. *)
Lemma top_loop_xy lats lons Zg C exag rowsIdx colsIdx r c lat0 lon0 mLat mLon s :
  0 <= r -> 0 <= c ->
  p s = 0 -> ci s = 0 ->
  3 * (r * c) <= Z.of_nat (length (positions s)) ->
  let s1 := for_upto r (top_body lats lons Zg C exag rowsIdx colsIdx c
                                 lat0 lon0 mLat mLon) s in
  ci s1 = 3 * (r * c)
  /\ forall k, 0 <= k < r * c ->
       positions s1 !! Z.to_nat (3 * k)
       = Some (Math_fround
                 (mul64 (sub64 (get_at lons (colsIdx !! Z.to_nat (k mod c))) lon0) mLon))
       /\ positions s1 !! Z.to_nat (3 * k + 1)
          = Some (Math_fround
                    (mul64 (sub64 (get_at lats (rowsIdx !! Z.to_nat (k / c))) lat0) mLat)).
Proof.
  intros Hr Hc Hp0 Hci0 Hlen s1.
  pose (P := fun (k : Z) (s' : Buffers) =>
               p s' = 3 * k /\ ci s' = 3 * k
               /\ length (positions s') = length (positions s)
               /\ forall k', 0 <= k' < k ->
                    positions s' !! Z.to_nat (3 * k')
                    = Some (Math_fround
                              (mul64 (sub64 (get_at lons (colsIdx !! Z.to_nat (k' mod c)))
                                            lon0) mLon))
                    /\ positions s' !! Z.to_nat (3 * k' + 1)
                       = Some (Math_fround
                                 (mul64 (sub64 (get_at lats (rowsIdx !! Z.to_nat (k' / c)))
                                               lat0) mLat))).
  assert (HP : P (r * c) s1).
  { subst s1. unfold top_body.
    refine (for_upto2_ind P r c
              (fun s' ii jj =>
                 push_vertex s'
                   (mul64 (sub64 (get_at lons (colsIdx !! Z.to_nat jj)) lon0) mLon)
                   (mul64 (sub64 (get_at lats (rowsIdx !! Z.to_nat ii)) lat0) mLat)
                   (sample Zg C exag (rowsIdx !! Z.to_nat ii) (colsIdx !! Z.to_nat jj))
                   (Fin 0) (Fin 0) (Fin 0))
              s Hr Hc _ _).
    - unfold P. split; [lia|]. split; [lia|]. split; [reflexivity | intros; lia].
    - intros k s' Hk (Hp & Hci & Hl & Hpre). unfold P.
      split; [simpl; lia|]. split; [simpl; lia|].
      split; [rewrite (proj1 (push_vertex_lengths _ _ _ _ _ _ _)); exact Hl|].
      intros k' Hk'. unfold push_vertex. cbn [positions]. rewrite Hp.
      destruct (Z.eq_dec k' k) as [->|Hne].
      + match goal with
        | |- context [set (set (set ?a ?q ?x) _ ?y) _ ?z] =>
            destruct (lookup_set3 a q x y z) as (E0 & E1 & _); [lia | lia |]
        end.
        rewrite E0, E1. split; reflexivity.
      + rewrite !lookup_set3_ne by lia. apply Hpre. lia. }
  destruct HP as (_ & Hci & _ & Hall). split; assumption.
Qed.

Lemma get_ext (a b : list num) (i : Z) :
  a !! Z.to_nat i = b !! Z.to_nat i -> get a i = get b i.
Proof. intros H. unfold get. rewrite H. reflexivity. Qed.

(** The bottom loop leaves the top vertices alone and writes, for the
    cell [k], the x and y read back from top vertex [k] and the plane
    elevation, each rounded by the store, at the offsets [3(rc + k)],
    [3(rc + k) + 1], [3(rc + k) + 2]. *)
Lemma bottom_loop_spec c bz r s :
  0 <= r -> 0 <= c ->
  p s = 3 * (r * c) ->
  6 * (r * c) <= Z.of_nat (length (positions s)) ->
  let s2 := for_upto r (bottom_body c bz) s in
  (forall j : nat, Z.of_nat j < 3 * (r * c) -> positions s2 !! j = positions s !! j)
  /\ forall k, 0 <= k < r * c ->
       positions s2 !! Z.to_nat (3 * (r * c + k))
       = Some (Math_fround (get (positions s) (3 * k)))
       /\ positions s2 !! Z.to_nat (3 * (r * c + k) + 1)
          = Some (Math_fround (get (positions s) (3 * k + 1)))
       /\ positions s2 !! Z.to_nat (3 * (r * c + k) + 2) = Some (Math_fround bz).
Proof.
  intros Hr Hc Hp0 Hlen s2.
  pose (P := fun (k : Z) (s' : Buffers) =>
               p s' = 3 * (r * c + k)
               /\ length (positions s') = length (positions s)
               /\ (forall j : nat, Z.of_nat j < 3 * (r * c) ->
                     positions s' !! j = positions s !! j)
               /\ forall k', 0 <= k' < k ->
                    positions s' !! Z.to_nat (3 * (r * c + k'))
                    = Some (Math_fround (get (positions s) (3 * k')))
                    /\ positions s' !! Z.to_nat (3 * (r * c + k') + 1)
                       = Some (Math_fround (get (positions s) (3 * k' + 1)))
                    /\ positions s' !! Z.to_nat (3 * (r * c + k') + 2)
                       = Some (Math_fround bz)).
  assert (HP : P (r * c) s2).
  { subst s2. unfold bottom_body.
    refine (for_upto2_ind P r c
              (fun s' ii jj =>
                 push_vertex s'
                   (get (positions s') ((ii * c + jj) * 3 + 0))
                   (get (positions s') ((ii * c + jj) * 3 + 1))
                   bz (lit 0.2) (lit 0.2) (lit 0.2))
              s Hr Hc _ _).
    - unfold P. split; [lia|]. split; [reflexivity|].
      split; [reflexivity | intros; lia].
    - intros k s' Hk (Hp & Hl & Hlow & Hpre).
      assert (Hcell : k / c * c + k mod c = k)
        by (pose proof (Z.div_mod k c ltac:(lia)); lia).
      rewrite Hcell. unfold P.
      split; [simpl; lia|].
      split; [rewrite (proj1 (push_vertex_lengths _ _ _ _ _ _ _)); exact Hl|].
      unfold push_vertex. cbn [positions]. rewrite Hp. split.
      + intros j Hj. rewrite lookup_set3_ne by lia. apply Hlow. exact Hj.
      + intros k' Hk'.
        destruct (Z.eq_dec k' k) as [->|Hne].
        * match goal with
          | |- context [set (set (set ?a ?q ?x) _ ?y) _ ?z] =>
              destruct (lookup_set3 a q x y z) as (E0 & E1 & E2); [lia | lia |]
          end.
          rewrite E0, E1, E2.
          replace (k * 3 + 0) with (3 * k) by lia.
          replace (k * 3 + 1) with (3 * k + 1) by lia.
          rewrite (get_ext (positions s') (positions s) (3 * k)) by (apply Hlow; lia).
          rewrite (get_ext (positions s') (positions s) (3 * k + 1)) by (apply Hlow; lia).
          auto.
        * rewrite !lookup_set3_ne by lia. apply Hpre. lia. }
  destruct HP as (_ & _ & Hlow & Hall). split; assumption.
Qed.

(** ** The solid mesh builder *)

Section Builder.
Variables (lats lons Zg : list num) (R C : Z) (exag base : num) (maxDim : Z).
Hypothesis HR : 1 <= R.
Hypothesis HC : 1 <= C.

Let steps := calcSteps R C (clamp maxDim 100 MAX_DIM).
Let sol := buildSolidGeometry lats lons Zg (R, C) exag base maxDim.
Let rowsIdx := fill_idx (rows1 sol) (stepY steps) (R - 1).
Let colsIdx := fill_idx (cols1 sol) (stepX steps) (C - 1).

Lemma sol_counts :
  rows1 sol = ceil_div R (stepY steps) /\ cols1 sol = ceil_div C (stepX steps).
Proof. split; reflexivity. Qed.

Lemma sol_counts_pos : 1 <= rows1 sol /\ 1 <= cols1 sol.
Proof.
  destruct (calcSteps_pos R C (clamp maxDim 100 MAX_DIM)) as [Hy Hx].
  destruct sol_counts as [-> ->].
  unfold steps. split; apply ceil_div_pos; lia.
Qed.

Lemma sol_index : index (geom sol) = build_faces (rows1 sol) (cols1 sol).
Proof. reflexivity. Qed.

Lemma sol_bottomZ :
  bottomZ sol =
    sub64 (fst (scan_surface Zg C exag rowsIdx colsIdx (rows1 sol) (cols1 sol)))
          (Math_abs base).
Proof. reflexivity. Qed.

Lemma sol_lengths :
  length (position (geom sol)) = Z.to_nat (3 * (2 * (rows1 sol * cols1 sol)))
  /\ length (color (geom sol)) = Z.to_nat (3 * (2 * (rows1 sol * cols1 sol))).
Proof.
  destruct sol_counts as [Hr Hc]. rewrite Hr, Hc.
  unfold sol, buildSolidGeometry. cbv zeta. cbn [geom position color].
  fold steps.
  match goal with
  | |- context [positions (for_upto ?r (color_body ?c ?zm ?dz) ?s2)] =>
      destruct (color_loop_spec c zm dz r s2) as [-> ->]
  end.
  match goal with
  | |- context [positions (for_upto ?r (bottom_body ?c ?bz) ?s1)] =>
      destruct (bottom_loop_lengths c bz r s1) as [-> ->]
  end.
  match goal with
  | |- context [positions (for_upto ?r (top_body ?a1 ?a2 ?a3 ?a4 ?a5 ?a6 ?a7 ?c
                                                 ?a8 ?a9 ?a10 ?a11) ?s0)] =>
      destruct (top_loop_lengths a1 a2 a3 a4 a5 a6 a7 r c a8 a9 a10 a11 s0)
        as [-> ->]
  end.
  cbn [positions colors]. rewrite length_new_Float32Array.
  split; f_equal; lia.
Qed.

(** The vertices: top vertex [k] carries the sample of cell [k], rounded
    to single precision; bottom vertex [k] sits at the offset
    [3 (rows1 cols1 + k)], below top vertex [k], its third component being
    [bottomZ] rounded to single precision. *)
Lemma sol_vertices k :
  0 <= k < rows1 sol * cols1 sol ->
  let pos := position (geom sol) in
  let topVerts := rows1 sol * cols1 sol in
  exists x y : num,
    pos !! Z.to_nat (3 * k) = Some x
    /\ pos !! Z.to_nat (3 * k + 1) = Some y
    /\ pos !! Z.to_nat (3 * k + 2)
       = Some (Math_fround (sample Zg C exag (rowsIdx !! Z.to_nat (k / cols1 sol))
                                   (colsIdx !! Z.to_nat (k mod cols1 sol))))
    /\ pos !! Z.to_nat (3 * (topVerts + k)) = Some x
    /\ pos !! Z.to_nat (3 * (topVerts + k) + 1) = Some y
    /\ pos !! Z.to_nat (3 * (topVerts + k) + 2) = Some (Math_fround (bottomZ sol)).
Proof.
  intros Hk pos topVerts.
  destruct sol_counts_pos as [Hr1 Hc1].
  pose proof sol_lengths as [Hlen _].
  subst pos topVerts. revert Hk Hr1 Hc1 Hlen.
  unfold rowsIdx, colsIdx, sol, buildSolidGeometry. cbv zeta.
  cbn [geom position rows1 cols1 bottomZ]. fold steps.
  set (r := ceil_div R (stepY steps)).
  set (c := ceil_div C (stepX steps)).
  match goal with
  | |- context [positions (for_upto ?r (color_body ?c ?zm ?dz) ?s2)] =>
      rewrite (proj1 (color_loop_spec c zm dz r s2))
  end.
  match goal with
  | |- context [for_upto r (bottom_body c ?bz) ?top] =>
      set (bz' := bz); set (s1 := top)
  end.
  intros Hk Hr1 Hc1 Hlen.
  assert (Hlen1 : length (positions s1) = Z.to_nat (3 * (2 * (r * c)))).
  { rewrite <- Hlen. symmetry. apply bottom_loop_lengths. }
  assert (Htop : p s1 = 3 * (r * c)
                 /\ forall k, 0 <= k < r * c ->
                      positions s1 !! Z.to_nat (3 * k + 2)
                      = Some (Math_fround
                                (sample Zg C exag
                                   (fill_idx r (stepY steps) (R - 1) !! Z.to_nat (k / c))
                                   (fill_idx c (stepX steps) (C - 1) !! Z.to_nat (k mod c))))).
  { apply top_loop_spec; [lia | lia | reflexivity |].
    cbn [positions]. rewrite length_new_Float32Array. nia. }
  destruct Htop as [Hp1 Hz].
  assert (Hxy : forall k, 0 <= k < r * c ->
             exists X Y : num,
               positions s1 !! Z.to_nat (3 * k) = Some (Math_fround X)
               /\ positions s1 !! Z.to_nat (3 * k + 1) = Some (Math_fround Y)).
  { intros k' Hk'. unfold s1.
    match goal with
    | |- context [for_upto r (top_body ?a1 ?a2 ?a3 ?a4 ?a5 ?a6 ?a7 c ?a8 ?a9 ?a10 ?a11) ?s0] =>
        destruct (top_loop_xy a1 a2 a3 a4 a5 a6 a7 r c a8 a9 a10 a11 s0) as [_ Hall];
          [lia | lia | reflexivity | reflexivity | | ]
    end.
    - cbn [positions]. rewrite length_new_Float32Array. nia.
    - destruct (Hall k' Hk') as [E0 E1]. eexists _, _. split; [exact E0 | exact E1]. }
  destruct (bottom_loop_spec c bz' r s1 ltac:(lia) ltac:(lia) Hp1 ltac:(nia))
    as [Hlow Hbot].
  destruct (Hbot k Hk) as (Ex & Ey & Ez).
  destruct (Hxy k Hk) as (X & Y & EX & EY).
  exists (Math_fround X), (Math_fround Y).
  rewrite Ex, Ey, Ez, !Hlow by lia.
  rewrite Hz by exact Hk.
  rewrite (get_lookup (positions s1) (3 * k) (Math_fround X)) by (lia || exact EX).
  rewrite (get_lookup (positions s1) (3 * k + 1) (Math_fround Y)) by (lia || exact EY).
  rewrite !fround_idem. auto 10.
Qed.
End Builder.

(** The builder on a grid of reals, with real settings, where no product
    of an elevation and the exaggeration overflows. *)
Section FiniteGrid.
Variables (lats lons Zg : list num) (rows cols : Z) (e b : R) (maxDim : Z).
Hypothesis HR : 1 <= rows.
Hypothesis HC : 1 <= cols.
Hypothesis Hcells : rows * cols <= 150000000.
Hypothesis Hfin :
  forall i j, 0 <= i < rows -> 0 <= j < cols ->
    exists x : R, Zg !! Z.to_nat (i * cols + j) = Some (Fin x).
Hypothesis Hmag :
  forall i j, 0 <= i < rows -> 0 <= j < cols ->
    (Rabs (elevation Zg cols i j * e) <= MAX_VALUE)%R.

Let steps := calcSteps rows cols (clamp maxDim 100 MAX_DIM).
Let sol := buildSolidGeometry lats lons Zg (rows, cols) (Fin e) (Fin b) maxDim.
Let rowsIdx := fill_idx (rows1 sol) (stepY steps) (rows - 1).
Let colsIdx := fill_idx (cols1 sol) (stepX steps) (cols - 1).

(** The exaggerated elevation of the sampled point [(ii, jj)] of the
    decimated grid: a double. *)
Let z (ii jj : Z) : R :=
  double (elevation Zg cols (ii * stepY steps) (jj * stepX steps) * e).

Lemma elevation_fin i j :
  0 <= i < rows -> 0 <= j < cols ->
  get Zg (i * cols + j) = Fin (elevation Zg cols i j).
Proof.
  intros Hi Hj. destruct (Hfin i j Hi Hj) as [x Hx].
  unfold elevation. rewrite (get_lookup Zg (i * cols + j) (Fin x)) by (nia || exact Hx).
  reflexivity.
Qed.

Lemma sample_inside k :
  0 <= k < rows1 sol * cols1 sol ->
  0 <= k / cols1 sol * stepY steps < rows
  /\ 0 <= k mod cols1 sol * stepX steps < cols
  /\ sample Zg cols (Fin e) (rowsIdx !! Z.to_nat (k / cols1 sol))
            (colsIdx !! Z.to_nat (k mod cols1 sol))
     = mul64 (Fin (elevation Zg cols (k / cols1 sol * stepY steps)
                             (k mod cols1 sol * stepX steps)))
             (Fin e).
Proof.
  intros Hk.
  destruct (grid_dims_small rows cols HR HC Hcells) as [HR' HC'].
  destruct (calcSteps_pos rows cols (clamp maxDim 100 MAX_DIM)) as [Hsy Hsx].
  destruct (sol_counts_pos lats lons Zg rows cols (Fin e) (Fin b) maxDim HR HC)
    as [Hr1 Hc1].
  fold sol in Hr1, Hc1. fold steps in Hsy, Hsx.
  assert (Hii : 0 <= k / cols1 sol < rows1 sol).
  { split; [apply Z.div_pos; lia | apply Z.div_lt_upper_bound; nia]. }
  assert (Hjj : 0 <= k mod cols1 sol < cols1 sol) by (apply Z.mod_pos_bound; lia).
  unfold rowsIdx, colsIdx.
  rewrite (axis_lookup rows (stepY steps)) by (lia || exact Hii).
  rewrite (axis_lookup cols (stepX steps)) by (lia || exact Hjj).
  unfold sample.
  assert (0 <= k / cols1 sol * stepY steps <= rows - 1)
    by (apply axis_walk_inside; lia || exact Hii).
  assert (0 <= k mod cols1 sol * stepX steps <= cols - 1)
    by (apply axis_walk_inside; lia || exact Hjj).
  rewrite elevation_fin by lia. split; [lia|]. split; [lia | reflexivity].
Qed.

Lemma sample_fin k :
  0 <= k < rows1 sol * cols1 sol ->
  sample Zg cols (Fin e) (rowsIdx !! Z.to_nat (k / cols1 sol))
         (colsIdx !! Z.to_nat (k mod cols1 sol))
  = Fin (z (k / cols1 sol) (k mod cols1 sol)).
Proof.
  intros Hk. destruct (sample_inside k Hk) as (Hi & Hj & ->).
  unfold mul64. cbn [num_mul]. apply f64_finite. apply Hmag; assumption.
Qed.

Lemma z_double ii jj :
  0 <= ii * stepY steps < rows -> 0 <= jj * stepX steps < cols ->
  f64 (Fin (z ii jj)) = Fin (z ii jj).
Proof.
  intros Hi Hj. unfold z.
  rewrite <- (proj1 (f64_finite _ (Hmag _ _ Hi Hj))). apply f64_idem.
Qed.

(** The bottom plane lies [|base|] under the least exaggerated elevation
    of the sampled points, in double arithmetic, and bottom vertex [k]
    lies under top vertex [k], with the plane elevation rounded to single
    precision as its third component. *)
Lemma sol_bottom_plane :
  let pos := position (geom sol) in
  let topVerts := rows1 sol * cols1 sol in
  exists surfaceMin : R,
    (forall ii jj, 0 <= ii < rows1 sol -> 0 <= jj < cols1 sol ->
       (surfaceMin <= z ii jj)%R)
    /\ (exists ii jj, 0 <= ii < rows1 sol /\ 0 <= jj < cols1 sol
                      /\ surfaceMin = z ii jj)
    /\ f64 (Fin surfaceMin) = Fin surfaceMin
    /\ bottomZ sol = f64 (Fin (surfaceMin - Rabs b))
    /\ forall k, 0 <= k < topVerts ->
         exists x y : num,
           pos !! Z.to_nat (3 * k) = Some x
           /\ pos !! Z.to_nat (3 * k + 1) = Some y
           /\ pos !! Z.to_nat (3 * k + 2)
              = Some (Math_fround (Fin (z (k / cols1 sol) (k mod cols1 sol))))
           /\ pos !! Z.to_nat (3 * (topVerts + k)) = Some x
           /\ pos !! Z.to_nat (3 * (topVerts + k) + 1) = Some y
           /\ pos !! Z.to_nat (3 * (topVerts + k) + 2)
              = Some (Math_fround (bottomZ sol)).
Proof.
  intros pos topVerts.
  destruct (sol_counts_pos lats lons Zg rows cols (Fin e) (Fin b) maxDim HR HC)
    as [Hr1 Hc1].
  fold sol in Hr1, Hc1.
  destruct (scan_surface_min Zg cols (Fin e) rowsIdx colsIdx (rows1 sol) (cols1 sol)
              (fun k => z (k / cols1 sol) (k mod cols1 sol)) Hr1 Hc1 sample_fin)
    as (m & Hm & Hle & kmin & Hkmin & Heq).
  exists m. split; [|split; [|split; [|split]]].
  - intros ii jj Hii Hjj.
    specialize (Hle (ii * cols1 sol + jj) ltac:(nia)). cbv beta in Hle.
    replace ((ii * cols1 sol + jj) / cols1 sol) with ii in Hle
      by (rewrite Z.add_comm, Z.div_add by lia; rewrite Z.div_small by lia; lia).
    replace ((ii * cols1 sol + jj) mod cols1 sol) with jj in Hle
      by (rewrite Z.add_comm, Z.mod_add by lia; rewrite Z.mod_small by lia; lia).
    exact Hle.
  - exists (kmin / cols1 sol), (kmin mod cols1 sol).
    split; [|split; [apply Z.mod_pos_bound; lia | exact Heq]].
    split; [apply Z.div_pos; lia | apply Z.div_lt_upper_bound; nia].
  - rewrite Heq. destruct (sample_inside kmin Hkmin) as (Hi & Hj & _).
    apply z_double; assumption.
  - unfold sol. rewrite sol_bottomZ. fold sol steps rowsIdx colsIdx.
    rewrite Hm. reflexivity.
  - intros k Hk.
    destruct (sol_vertices lats lons Zg rows cols (Fin e) (Fin b) maxDim HR HC k Hk)
      as (x & y & E).
    fold sol steps rowsIdx colsIdx in E.
    rewrite sample_fin in E by exact Hk.
    exists x, y. exact E.
Qed.
End FiniteGrid.

(** ** The planner inside the builder *)

(** C3: for every grid with at least one row and one column, and whatever
    [maxDim] the builder clamps into [[100, 1200]], the strides of
    [calcSteps] give decimated counts whose doubled product is at most
    1,500,000; these counts are the [rows1] and [cols1] of the builder.
    For a 5000 x 5000 grid at [maxDim = 1200] the doubled product is
    48 * 48 * 2 = 4608. *)
Theorem calcSteps_vertex_cap (rows cols maxDim : Z)
    (lats lons Zg : list num) (exag base : num) :
  1 <= rows -> 1 <= cols ->
  let steps := calcSteps rows cols (clamp maxDim 100 MAX_DIM) in
  let sol := buildSolidGeometry lats lons Zg (rows, cols) exag base maxDim in
  let steps5000 := calcSteps 5000 5000 (clamp 1200 100 MAX_DIM) in
  100 <= clamp maxDim 100 MAX_DIM <= 1200
  /\ ceil_div rows (stepY steps) * ceil_div cols (stepX steps) * 2 <= 1500000
  /\ rows1 sol = ceil_div rows (stepY steps)
  /\ cols1 sol = ceil_div cols (stepX steps)
  /\ rows1 sol * cols1 sol * 2 <= 1500000
  /\ ceil_div 5000 (stepY steps5000) * ceil_div 5000 (stepX steps5000) * 2 = 4608.
Proof.
  intros Hrows Hcols steps sol steps5000.
  assert (Hm : 100 <= clamp maxDim 100 MAX_DIM <= 1200)
    by (apply (clamp_Z_bounds maxDim 100 1200); lia).
  pose proof (calcSteps_cap rows cols (clamp maxDim 100 MAX_DIM)) as Hcap.
  specialize (Hcap ltac:(lia) ltac:(lia) ltac:(lia)).
  unfold MAX_VERTICES in Hcap.
  destruct (sol_counts lats lons Zg rows cols exag base maxDim) as [Hr Hc].
  fold sol steps in Hr, Hc, Hcap.
  split; [exact Hm|]. split; [exact Hcap|]. split; [exact Hr|]. split; [exact Hc|].
  split; [rewrite Hr, Hc; exact Hcap|].
  vm_compute. reflexivity.
Qed.

Lemma calcSteps_vertex_cap_witness :
  let steps := calcSteps 3 3 (clamp 999 100 MAX_DIM) in
  let sol :=
    buildSolidGeometry test3_lats test3_lons test3_Z (3, 3) (Fin 1) (Fin 100) 999 in
  let steps5000 := calcSteps 5000 5000 (clamp 1200 100 MAX_DIM) in
  100 <= clamp 999 100 MAX_DIM <= 1200
  /\ ceil_div 3 (stepY steps) * ceil_div 3 (stepX steps) * 2 <= 1500000
  /\ rows1 sol = ceil_div 3 (stepY steps)
  /\ cols1 sol = ceil_div 3 (stepX steps)
  /\ rows1 sol * cols1 sol * 2 <= 1500000
  /\ ceil_div 5000 (stepY steps5000) * ceil_div 5000 (stepX steps5000) * 2 = 4608.
Proof.
  apply (calcSteps_vertex_cap 3 3 999 test3_lats test3_lons test3_Z (Fin 1) (Fin 100));
    lia.
Defined.

(** ** The mesh *)

(** A grid that fits under [maxDim] on both axes and under the vertex cap
    is not decimated. *)
Lemma calcSteps_no_decimation rows cols maxDim :
  1 <= rows <= maxDim -> 1 <= cols <= maxDim ->
  rows * cols * 2 <= MAX_VERTICES ->
  calcSteps rows cols maxDim = {| stepY := 1; stepX := 1 |}.
Proof.
  intros Hr Hc Hcap. rewrite calcSteps_eq. cbv zeta.
  assert (Hcr : ceil_div rows maxDim = 1).
  { pose proof (ceil_div_spec rows maxDim ltac:(lia)). nia. }
  assert (Hcc : ceil_div cols maxDim = 1).
  { pose proof (ceil_div_spec cols maxDim ltac:(lia)). nia. }
  rewrite Hcr, Hcc. change (Z.max 1 1) with 1. rewrite !ceil_div_1.
  destruct (rows * cols * 2 >? MAX_VERTICES) eqn:E; [|reflexivity].
  apply Z.gtb_lt in E. lia.
Qed.

Lemma buildSolidGeometry_counts lats lons Zg rows cols exag base maxDim :
  1 <= rows -> 1 <= cols ->
  let sol := buildSolidGeometry lats lons Zg (rows, cols) exag base maxDim in
  let r := rows1 sol in
  let c := cols1 sol in
  let g := geom sol in
  1 <= r /\ 1 <= c
  /\ count g = 2 * r * c
  /\ Z.of_nat (length (position g)) = 3 * (2 * r * c)
  /\ Z.of_nat (length (color g)) = 3 * (2 * r * c)
  /\ Z.of_nat (length (index g)) = 3 * (4 * (r - 1) * (c - 1) + 4 * (r - 1) + 4 * (c - 1))
  /\ Forall (fun v => 0 <= v < count g) (index g).
Proof.
  intros Hrows Hcols sol r c g.
  destruct (sol_counts_pos lats lons Zg rows cols exag base maxDim Hrows Hcols)
    as [Hr Hc].
  destruct (sol_lengths lats lons Zg rows cols exag base maxDim) as [Hlp Hlc].
  fold sol in Hr, Hc, Hlp, Hlc. fold r c in Hr, Hc, Hlp, Hlc. fold g in Hlp, Hlc.
  destruct (build_faces_spec r c Hr Hc) as [Hfl Hfv].
  assert (Hcount : count g = 2 * r * c).
  { unfold count. rewrite Hlp, Z2Nat.id by nia.
    replace (3 * (2 * (r * c))) with (2 * r * c * 3) by lia.
    apply Z.div_mul. lia. }
  split; [exact Hr|]. split; [exact Hc|]. split; [exact Hcount|].
  split; [rewrite Hlp; nia|]. split; [rewrite Hlc; nia|].
  split; [exact Hfl|].
  rewrite Hcount. eapply Forall_impl; [exact Hfv|].
  intros v Hv. simpl in Hv. lia.
Qed.

(** C10: on a grid with at least one row and one column the builder emits
    [2 * rows1 * cols1] vertices, position and color buffers of the same
    length [3 * (2 * rows1 * cols1)], and
    [3 * (4 (rows1 - 1) (cols1 - 1) + 4 (rows1 - 1) + 4 (cols1 - 1))]
    triangle indices, each of them a vertex number below the vertex
    count; [rows1] and [cols1] are the decimated counts. *)
Theorem buildSolidGeometry_mesh_counts lats lons Zg rows cols exag base maxDim :
  1 <= rows -> 1 <= cols ->
  let steps := calcSteps rows cols (clamp maxDim 100 MAX_DIM) in
  let sol := buildSolidGeometry lats lons Zg (rows, cols) exag base maxDim in
  let r := rows1 sol in
  let c := cols1 sol in
  let g := geom sol in
  r = ceil_div rows (stepY steps) /\ c = ceil_div cols (stepX steps)
  /\ count g = 2 * r * c
  /\ Z.of_nat (length (position g)) = 3 * (2 * r * c)
  /\ length (color g) = length (position g)
  /\ Z.of_nat (length (index g)) = 3 * (4 * (r - 1) * (c - 1) + 4 * (r - 1) + 4 * (c - 1))
  /\ Forall (fun v => 0 <= v < count g) (index g).
Proof.
  intros Hrows Hcols steps sol r c g.
  destruct (buildSolidGeometry_counts lats lons Zg rows cols exag base maxDim
              Hrows Hcols) as (_ & _ & Hcount & Hlp & Hlc & Hfl & Hfv).
  fold sol in Hcount, Hlp, Hlc, Hfl, Hfv.
  split; [reflexivity|]. split; [reflexivity|].
  split; [exact Hcount|]. split; [exact Hlp|].
  split; [fold r c g in Hlp, Hlc; lia|]. split; assumption.
Qed.

Lemma buildSolidGeometry_mesh_counts_witness :
  let steps := calcSteps 2 2 (clamp 999 100 MAX_DIM) in
  let sol := buildSolidGeometry test2_lats test2_lons test2_Z (2, 2) (Fin 1) (Fin 10) 999 in
  let r := rows1 sol in
  let c := cols1 sol in
  let g := geom sol in
  r = ceil_div 2 (stepY steps) /\ c = ceil_div 2 (stepX steps)
  /\ count g = 2 * r * c
  /\ Z.of_nat (length (position g)) = 3 * (2 * r * c)
  /\ length (color g) = length (position g)
  /\ Z.of_nat (length (index g)) = 3 * (4 * (r - 1) * (c - 1) + 4 * (r - 1) + 4 * (c - 1))
  /\ Forall (fun v => 0 <= v < count g) (index g).
Proof.
  apply (buildSolidGeometry_mesh_counts test2_lats test2_lons test2_Z 2 2
           (Fin 1) (Fin 10) 999); lia.
Defined.

(** Any grid of 3 rows and 3 columns, whatever the arrays and the
    settings: nothing is decimated, and the mesh has 18 vertices and the
    96 indices below (top quads, the four side strips, bottom quads). *)
Lemma buildSolidGeometry_3x3_any (lats lons Zg : list num) (exag base : num) (maxDim : Z) :
  let steps := calcSteps 3 3 (clamp maxDim 100 MAX_DIM) in
  let sol := buildSolidGeometry lats lons Zg (3, 3) exag base maxDim in
  steps = {| stepY := 1; stepX := 1 |}
  /\ rows1 sol = 3 /\ cols1 sol = 3
  /\ count (geom sol) = 18
  /\ length (position (geom sol)) = 54%nat
  /\ length (color (geom sol)) = 54%nat
  /\ length (index (geom sol)) = 96%nat
  /\ index (geom sol) =
       [0; 1; 4; 0; 4; 3;  1; 2; 5; 1; 5; 4;
        3; 4; 7; 3; 7; 6;  4; 5; 8; 4; 8; 7]
       ++ [0; 9; 10; 0; 10; 1;  1; 10; 11; 1; 11; 2;
           6; 7; 16; 6; 16; 15;  7; 8; 17; 7; 17; 16;
           0; 9; 12; 0; 12; 3;  3; 12; 15; 3; 15; 6;
           2; 5; 14; 2; 14; 11;  5; 8; 17; 5; 17; 14]
       ++ [9; 13; 10; 9; 12; 13;  10; 14; 11; 10; 13; 14;
           12; 16; 13; 12; 15; 16;  13; 17; 14; 13; 16; 17].
Proof.
  intros steps sol.
  assert (Hsteps : steps = {| stepY := 1; stepX := 1 |}).
  { apply calcSteps_no_decimation.
    - pose proof (clamp_Z_bounds maxDim 100 1200 ltac:(lia)). unfold MAX_DIM. lia.
    - pose proof (clamp_Z_bounds maxDim 100 1200 ltac:(lia)). unfold MAX_DIM. lia.
    - unfold MAX_VERTICES. lia. }
  destruct (sol_counts lats lons Zg 3 3 exag base maxDim) as [Hr Hc].
  fold sol steps in Hr, Hc. rewrite Hsteps in Hr, Hc.
  change (ceil_div 3 _) with 3 in Hr, Hc.
  destruct (sol_lengths lats lons Zg 3 3 exag base maxDim) as [Hlp Hlc].
  fold sol in Hlp, Hlc. rewrite Hr, Hc in Hlp, Hlc.
  assert (Hidx : index (geom sol) = build_faces 3 3).
  { unfold sol. rewrite sol_index. fold sol. rewrite Hr, Hc. reflexivity. }
  split; [exact Hsteps|]. split; [exact Hr|]. split; [exact Hc|].
  split; [unfold count; rewrite Hlp; reflexivity|].
  split; [exact Hlp|]. split; [exact Hlc|].
  rewrite Hidx. split; vm_compute; reflexivity.
Qed.

(** C4: for the 3 x 3 grid of the self-test (elevations 0..8, evenly
    spaced axes), whatever the settings, the strides are 1 and the builder
    emits 18 vertices (54 position components) and 96 triangle indices:
    8 top triangles, 16 side-wall triangles, 8 bottom triangles. *)
Theorem buildSolidGeometry_3x3 (exag base : num) (maxDim : Z) :
  let steps := calcSteps 3 3 (clamp maxDim 100 MAX_DIM) in
  let sol := buildSolidGeometry test3_lats test3_lons test3_Z (3, 3) exag base maxDim in
  let top_faces :=
    [0; 1; 4; 0; 4; 3;  1; 2; 5; 1; 5; 4;
     3; 4; 7; 3; 7; 6;  4; 5; 8; 4; 8; 7] in
  let side_faces :=
    [0; 9; 10; 0; 10; 1;  1; 10; 11; 1; 11; 2;
     6; 7; 16; 6; 16; 15;  7; 8; 17; 7; 17; 16;
     0; 9; 12; 0; 12; 3;  3; 12; 15; 3; 15; 6;
     2; 5; 14; 2; 14; 11;  5; 8; 17; 5; 17; 14] in
  let bottom_faces :=
    [9; 13; 10; 9; 12; 13;  10; 14; 11; 10; 13; 14;
     12; 16; 13; 12; 15; 16;  13; 17; 14; 13; 16; 17] in
  steps = {| stepY := 1; stepX := 1 |}
  /\ rows1 sol = 3 /\ cols1 sol = 3
  /\ count (geom sol) = 18
  /\ length (position (geom sol)) = 54%nat
  /\ length (color (geom sol)) = 54%nat
  /\ length (index (geom sol)) = 96%nat
  /\ index (geom sol) = top_faces ++ side_faces ++ bottom_faces
  /\ length top_faces = (3 * 8)%nat
  /\ length side_faces = (3 * 16)%nat
  /\ length bottom_faces = (3 * 8)%nat.
Proof.
  intros steps sol top_faces side_faces bottom_faces.
  destruct (buildSolidGeometry_3x3_any test3_lats test3_lons test3_Z exag base maxDim)
    as (H1 & H2 & H3 & H4 & H5 & H6 & H7 & H8).
  repeat (split; [assumption|]).
  repeat split.
Qed.

(** ** The bottom plane *)

Lemma test2_Z_fin (i j : Z) :
  0 <= i < 2 -> 0 <= j < 2 ->
  exists x : R, test2_Z !! Z.to_nat (i * 2 + j) = Some (Fin x).
Proof.
  intros Hi Hj.
  assert (Ei : i = 0 \/ i = 1) by lia.
  assert (Ej : j = 0 \/ j = 1) by lia.
  destruct Ei as [-> | ->]; destruct Ej as [-> | ->]; eexists; reflexivity.
Qed.

Lemma elevation_lookup (Zg : list num) (C i j : Z) (x : R) :
  0 <= i * C + j ->
  Zg !! Z.to_nat (i * C + j) = Some (Fin x) ->
  elevation Zg C i j = x.
Proof.
  intros Hij Hx. unfold elevation.
  rewrite (get_lookup Zg (i * C + j) (Fin x) Hij Hx). reflexivity.
Qed.

(** The elevations of the grid of the self-test are the integers -50,
    -20, -10 and -30. *)
Lemma test2_Z_elevation (i j : Z) :
  0 <= i < 2 -> 0 <= j < 2 ->
  exists n : Z, elevation test2_Z 2 i j = IZR n /\ -50 <= n <= -10.
Proof.
  intros Hi Hj.
  assert (Ei : i = 0 \/ i = 1) by lia.
  assert (Ej : j = 0 \/ j = 1) by lia.
  destruct Ei as [-> | ->]; destruct Ej as [-> | ->].
  - exists (-50). split; [apply elevation_lookup; [lia | reflexivity] | lia].
  - exists (-20). split; [apply elevation_lookup; [lia | reflexivity] | lia].
  - exists (-10). split; [apply elevation_lookup; [lia | reflexivity] | lia].
  - exists (-30). split; [apply elevation_lookup; [lia | reflexivity] | lia].
Qed.

Lemma test2_Z_mag (i j : Z) :
  0 <= i < 2 -> 0 <= j < 2 ->
  (Rabs (elevation test2_Z 2 i j * 1) <= MAX_VALUE)%R.
Proof.
  intros Hi Hj. destruct (test2_Z_elevation i j Hi Hj) as (n & -> & Hn).
  rewrite Rmult_1_r. apply Rabs_le.
  pose proof MAX_VALUE_ge.
  assert (IZR (-50) <= IZR n)%R by (apply IZR_le; lia).
  assert (IZR n <= IZR (-10))%R by (apply IZR_le; lia).
  lra.
Qed.

(** The self-test grid with the exaggeration 1: the surface minimum is
    -50, [bottomZ] is the double difference and the third component of
    the first bottom vertex, at offset 14, is its single-precision
    rounding. *)
Lemma test2_bottom (b : R) :
  let sol :=
    buildSolidGeometry test2_lats test2_lons test2_Z (2, 2) (Fin 1) (Fin b) 999 in
  bottomZ sol = f64 (Fin (-50 - Rabs b))
  /\ position (geom sol) !! 14%nat = Some (Math_fround (bottomZ sol)).
Proof.
  intros sol.
  destruct (sol_bottom_plane test2_lats test2_lons test2_Z 2 2 1 b 999
              ltac:(lia) ltac:(lia) ltac:(lia) test2_Z_fin test2_Z_mag)
    as (m & Hle & (ii & jj & Hii & Hjj & Hm) & _ & Hbz & Hv).
  fold sol in Hle, Hii, Hjj, Hbz, Hv.
  change (rows1 sol) with 2 in Hle, Hii, Hv. change (cols1 sol) with 2 in Hle, Hjj, Hv.
  change (stepY (calcSteps 2 2 (clamp 999 100 MAX_DIM))) with 1 in Hle, Hm.
  change (stepX (calcSteps 2 2 (clamp 999 100 MAX_DIM))) with 1 in Hle, Hm.
  assert (Em : m = (-50)%R).
  { assert (Hlow : (m <= -50)%R).
    { specialize (Hle 0 0 ltac:(lia) ltac:(lia)).
      rewrite (elevation_lookup test2_Z 2 (0 * 1) (0 * 1) (-50)) in Hle
        by (lia || reflexivity).
      rewrite Rmult_1_r, (double_int (-50)) in Hle by lia. exact Hle. }
    assert (Hup : (-50 <= m)%R).
    { rewrite Hm.
      destruct (test2_Z_elevation (ii * 1) (jj * 1) ltac:(lia) ltac:(lia))
        as (n & -> & Hn).
      rewrite Rmult_1_r, double_int by lia. apply IZR_le. lia. }
    lra. }
  rewrite Em in Hbz. split; [exact Hbz|].
  destruct (Hv 0 ltac:(lia)) as (x & y & _ & _ & _ & _ & _ & E). exact E.
Qed.

(** C5, as stated, fails: for the grid of the self-test and the base
    thickness 0.1, [bottomZ] is the double -50.1 but the third component
    of the bottom vertices is -50.099998474121094, its rounding to single
    precision. *)
Lemma bottom_vertex_z_is_rounded :
  let sol :=
    buildSolidGeometry test2_lats test2_lons test2_Z (2, 2) (Fin 1) (lit 0.1) 999 in
  bottomZ sol = Fin (IZR (-7050948166601933) * bpow (-47))
  /\ position (geom sol) !! 14%nat = Some (Fin (IZR (-13133414) * bpow (-18)))
  /\ position (geom sol) !! 14%nat <> Some (bottomZ sol).
Proof.
  assert (Hlit : lit 0.1 = Fin (IZR 7205759403792794 * bpow (-56))).
  { unfold lit. cbn [f64 to_format].
    apply (round_eval 53 1024 _ (-3) (-56) 7205759403792794).
    - reflexivity.
    - rewrite Rabs_pos_eq by lra. bpow_eval. lra.
    - apply rne_near. bpow_eval. lra.
    - rewrite Rabs_pos_eq by (bpow_eval; lra).
      apply Rlt_trans with (bpow 0); [bpow_eval; lra | apply bpow_lt; lia]. }
  rewrite Hlit. intros sol.
  destruct (test2_bottom (IZR 7205759403792794 * bpow (-56))) as [Hbz Hv].
  fold sol in Hbz, Hv.
  assert (Eb : bottomZ sol = Fin (IZR (-7050948166601933) * bpow (-47))).
  { rewrite Hbz. cbn [f64 to_format].
    rewrite Rabs_pos_eq by (bpow_eval; lra).
    apply (round_eval 53 1024 _ 6 (-47) (-7050948166601933)).
    - reflexivity.
    - rewrite Rabs_left by (bpow_eval; lra). bpow_eval. lra.
    - apply rne_near. bpow_eval. lra.
    - rewrite Rabs_left by (bpow_eval; lra).
      apply Rlt_trans with (bpow 6); [bpow_eval; lra | apply bpow_lt; lia]. }
  assert (Es : Math_fround (bottomZ sol) = Fin (IZR (-13133414) * bpow (-18))).
  { rewrite Eb. cbn [Math_fround to_format].
    apply (round_eval 24 128 _ 6 (-18) (-13133414)).
    - reflexivity.
    - rewrite Rabs_left by (bpow_eval; lra). bpow_eval. lra.
    - apply rne_near. bpow_eval. lra.
    - rewrite Rabs_left by (bpow_eval; lra).
      apply Rlt_trans with (bpow 6); [bpow_eval; lra | apply bpow_lt; lia]. }
  split; [exact Eb|]. split; [rewrite Hv, Es; reflexivity|].
  rewrite Hv, Es, Eb. intros [= H]. revert H. bpow_eval. lra.
Qed.

(** C5, amended: on a grid of real elevations whose products with the
    exaggeration do not overflow, with real settings, [bottomZ] is the
    double difference [surfaceMin - |baseThickness|], where [surfaceMin]
    is the least exaggerated elevation (a double product) over the sampled
    points (source row [ii * stepY], source column [jj * stepX]); bottom
    vertex [k] has the x and the y of top vertex [k], and its third
    component is [bottomZ] rounded to single precision, the same for every
    bottom vertex. *)
Theorem bottom_plane_under_surface_minimum
    (lats lons Zg : list num) (rows cols : Z) (e b : R) (maxDim : Z) :
  1 <= rows -> 1 <= cols -> rows * cols <= 150000000 ->
  (forall i j, 0 <= i < rows -> 0 <= j < cols ->
     exists x : R, Zg !! Z.to_nat (i * cols + j) = Some (Fin x)) ->
  (forall i j, 0 <= i < rows -> 0 <= j < cols ->
     (Rabs (elevation Zg cols i j * e) <= MAX_VALUE)%R) ->
  let steps := calcSteps rows cols (clamp maxDim 100 MAX_DIM) in
  let sol := buildSolidGeometry lats lons Zg (rows, cols) (Fin e) (Fin b) maxDim in
  let pos := position (geom sol) in
  let topVerts := rows1 sol * cols1 sol in
  let z := fun ii jj : Z =>
             double (elevation Zg cols (ii * stepY steps) (jj * stepX steps) * e) in
  exists surfaceMin : R,
    (forall ii jj, 0 <= ii < rows1 sol -> 0 <= jj < cols1 sol ->
       (surfaceMin <= z ii jj)%R)
    /\ (exists ii jj, 0 <= ii < rows1 sol /\ 0 <= jj < cols1 sol
                      /\ surfaceMin = z ii jj)
    /\ bottomZ sol = sub64 (Fin surfaceMin) (Fin (Rabs b))
    /\ forall k, 0 <= k < topVerts ->
         exists x y : num,
           pos !! Z.to_nat (3 * k) = Some x
           /\ pos !! Z.to_nat (3 * k + 1) = Some y
           /\ pos !! Z.to_nat (3 * k + 2)
              = Some (Math_fround (Fin (z (k / cols1 sol) (k mod cols1 sol))))
           /\ pos !! Z.to_nat (3 * (topVerts + k)) = Some x
           /\ pos !! Z.to_nat (3 * (topVerts + k) + 1) = Some y
           /\ pos !! Z.to_nat (3 * (topVerts + k) + 2)
              = Some (Math_fround (bottomZ sol)).
Proof.
  intros Hrows Hcols Hcells Hfin Hmag steps sol pos topVerts z.
  destruct (sol_bottom_plane lats lons Zg rows cols e b maxDim
              Hrows Hcols Hcells Hfin Hmag) as (m & Hle & Hmin & _ & Hb & Hv).
  exists m. split; [exact Hle|]. split; [exact Hmin|]. split; [exact Hb | exact Hv].
Qed.

Lemma bottom_plane_under_surface_minimum_witness :
  let sol :=
    buildSolidGeometry test2_lats test2_lons test2_Z (2, 2) (Fin 1) (Fin 10) 999 in
  exists surfaceMin : R, bottomZ sol = sub64 (Fin surfaceMin) (Fin (Rabs 10)).
Proof.
  destruct (bottom_plane_under_surface_minimum
              test2_lats test2_lons test2_Z 2 2 1 10 999
              ltac:(lia) ltac:(lia) ltac:(lia) test2_Z_fin test2_Z_mag)
    as (m & _ & _ & Hb & _).
  exists m. exact Hb.
Defined.

(** C6, as stated, fails: for the grid of the self-test, whose least
    elevation is -50, and a base thickness of 0 (which the settings
    allow), [bottomZ] is -50 itself, not less. *)
Lemma bottomZ_not_below_minimum_without_base :
  let sol :=
    buildSolidGeometry test2_lats test2_lons test2_Z (2, 2) (Fin 1) (Fin 0) 999 in
  Fin (-50) ∈ test2_Z
  /\ (forall x : R, Fin x ∈ test2_Z -> (-50 <= x)%R)
  /\ bottomZ sol = Fin (-50)
  /\ num_lt (bottomZ sol) (Fin (-50)) = false.
Proof.
  intros sol.
  assert (Hmem : Fin (-50) ∈ test2_Z) by (unfold test2_Z; apply list_elem_of_here).
  assert (Hall : forall x : R, Fin x ∈ test2_Z -> (-50 <= x)%R).
  { intros x Hx. unfold test2_Z in Hx.
    repeat (apply elem_of_cons in Hx as [Hx | Hx]; [injection Hx as ->; lra|]).
    inversion Hx. }
  assert (Hb : bottomZ sol = Fin (-50)).
  { destruct (test2_bottom 0) as [Hbz _]. fold sol in Hbz. rewrite Hbz.
    rewrite Rabs_R0. replace (-50 - 0)%R with (IZR (-50)) by lra.
    apply f64_int. lia. }
  split; [exact Hmem|]. split; [exact Hall|]. split; [exact Hb|].
  rewrite Hb. simpl. destruct (Rlt_dec (-50) (-50)); [lra | reflexivity].
Qed.

(** C6, amended: on a grid of real elevations whose products with the
    exaggeration do not overflow, with real settings, [bottomZ] is never
    above the least exaggerated elevation of the sampled points; with the
    base thickness 0 it is that elevation; it is strictly below it as soon
    as [|baseThickness|] is at least one unit in the last place of that
    elevation.  A smaller base thickness, though positive, can leave it
    equal: so [2^-60] on the grid of the self-test. *)
Theorem bottomZ_below_surface_minimum
    (lats lons Zg : list num) (rows cols : Z) (e b : R) (maxDim : Z) :
  1 <= rows -> 1 <= cols -> rows * cols <= 150000000 ->
  (forall i j, 0 <= i < rows -> 0 <= j < cols ->
     exists x : R, Zg !! Z.to_nat (i * cols + j) = Some (Fin x)) ->
  (forall i j, 0 <= i < rows -> 0 <= j < cols ->
     (Rabs (elevation Zg cols i j * e) <= MAX_VALUE)%R) ->
  let steps := calcSteps rows cols (clamp maxDim 100 MAX_DIM) in
  let sol := buildSolidGeometry lats lons Zg (rows, cols) (Fin e) (Fin b) maxDim in
  let z := fun ii jj : Z =>
             double (elevation Zg cols (ii * stepY steps) (jj * stepX steps) * e) in
  exists surfaceMin : R,
    (forall ii jj, 0 <= ii < rows1 sol -> 0 <= jj < cols1 sol ->
       (surfaceMin <= z ii jj)%R)
    /\ (exists ii jj, 0 <= ii < rows1 sol /\ 0 <= jj < cols1 sol
                      /\ surfaceMin = z ii jj)
    /\ (bottomZ sol = NInf
        \/ exists zb : R, bottomZ sol = Fin zb /\ (zb <= surfaceMin)%R)
    /\ num_lt (Fin surfaceMin) (bottomZ sol) = false
    /\ (b = 0%R -> bottomZ sol = Fin surfaceMin)
    /\ ((Rabs surfaceMin * bpow (-52) <= Rabs b)%R -> (bpow (-1074) <= Rabs b)%R ->
        num_lt (bottomZ sol) (Fin surfaceMin) = true)
    /\ bottomZ (buildSolidGeometry test2_lats test2_lons test2_Z (2, 2)
                  (Fin 1) (Fin (bpow (-60))) 999) = Fin (-50).
Proof.
  intros Hrows Hcols Hcells Hfin Hmag steps sol z.
  destruct (sol_bottom_plane lats lons Zg rows cols e b maxDim
              Hrows Hcols Hcells Hfin Hmag) as (m & Hle & Hmin & Hd & Hb & _).
  fold sol steps in Hle, Hmin, Hb.
  exists m.
  pose proof (Rabs_pos b) as Hpos.
  pose proof (f64_sub_le m (Rabs b) Hd Hpos) as Hnever.
  rewrite <- Hb in Hnever.
  split; [exact Hle|]. split; [exact Hmin|]. split; [exact Hnever|].
  split; [|split; [|split]].
  - destruct Hnever as [-> | (zb & -> & Hzb)]; [reflexivity|].
    cbn [num_lt]. destruct (Rlt_dec m zb); [lra | reflexivity].
  - intros ->. rewrite Hb, Rabs_R0, Rminus_0_r. exact Hd.
  - intros Hrel Habs.
    destruct (f64_sub_lt m (Rabs b) Hd Hrel Habs) as [E | (zb & E & Hzb)];
      rewrite <- Hb in E; rewrite E; [reflexivity|].
    cbn [num_lt]. destruct (Rlt_dec zb m); [reflexivity | lra].
  - destruct (test2_bottom (bpow (-60))) as [Hbz _]. rewrite Hbz.
    rewrite Rabs_pos_eq by (pose proof (bpow_pos (-60)); lra).
    cbn [f64 to_format].
    rewrite (round_eval 53 1024 _ 6 (-47) (-7036874417766400)).
    + f_equal. bpow_eval. lra.
    + reflexivity.
    + rewrite Rabs_left by (bpow_eval; lra). bpow_eval. lra.
    + apply rne_near. bpow_eval. lra.
    + rewrite Rabs_left by (bpow_eval; lra).
      apply Rlt_trans with (bpow 6); [bpow_eval; lra | apply bpow_lt; lia].
Qed.

Lemma bottomZ_below_surface_minimum_witness :
  let sol :=
    buildSolidGeometry test2_lats test2_lons test2_Z (2, 2) (Fin 1) (Fin 10) 999 in
  bottomZ sol = Fin (-60) /\ num_lt (bottomZ sol) (Fin (-50)) = true.
Proof.
  destruct (bottomZ_below_surface_minimum
              test2_lats test2_lons test2_Z 2 2 1 10 999
              ltac:(lia) ltac:(lia) ltac:(lia) test2_Z_fin test2_Z_mag)
    as (m & _ & _ & _ & _ & _ & _ & _).
  destruct (test2_bottom 10) as [Hbz _].
  assert (E : bottomZ
                (buildSolidGeometry test2_lats test2_lons test2_Z (2, 2)
                   (Fin 1) (Fin 10) 999) = Fin (-60)).
  { rewrite Hbz. rewrite Rabs_pos_eq by lra.
    replace (-50 - 10)%R with (IZR (-60)) by lra. apply f64_int. lia. }
  split; [exact E|]. rewrite E. cbn [num_lt].
  destruct (Rlt_dec (-60) (-50)); [reflexivity | lra].
Defined.

(** * Further properties *)

(** ** Utilities *)

(** X1: with [min <= max], [clamp] lets [NaN] through, maps every other
    number (the infinities included) into [[min, max]], and leaves a number
    of [[min, max]] as it is; on integers likewise. *)
Theorem clamp_range (n : num) (lo hi : R) (k klo khi : Z) :
  (lo <= hi)%R -> klo <= khi ->
  (n = NaN -> clamp n (Fin lo) (Fin hi) = NaN)
  /\ (n <> NaN ->
      exists v : R, clamp n (Fin lo) (Fin hi) = Fin v /\ (lo <= v <= hi)%R)
  /\ (forall x : R, n = Fin x -> (lo <= x <= hi)%R ->
        clamp n (Fin lo) (Fin hi) = n)
  /\ klo <= clamp k klo khi <= khi
  /\ (klo <= k <= khi -> clamp k klo khi = k).
Proof.
  intros Hlo Hk. split; [|split; [|split; [|split]]].
  - intros ->. reflexivity.
  - intros Hn. destruct n as [| | |x]; [contradiction | | |].
    + exists hi. split; [|lra]. unfold clamp. simpl.
      rewrite Rmax_right by lra. reflexivity.
    + exists lo. split; [reflexivity | lra].
    + exists (Rmax lo (Rmin hi x)). split; [reflexivity|].
      unfold Rmax, Rmin.
      destruct (Rle_dec hi x); destruct (Rle_dec lo _); lra.
  - intros x -> Hx. unfold clamp. simpl.
    rewrite Rmin_right by lra. rewrite Rmax_right by lra. reflexivity.
  - apply clamp_Z_bounds. exact Hk.
  - intros Hin. unfold clamp. simpl. lia.
Qed.

Lemma clamp_range_witness :
  exists v : R, clamp PInf (Fin 0.1) (Fin 20) = Fin v /\ (0.1 <= v <= 20)%R.
Proof.
  destruct (clamp_range PInf 0.1 20 999 100 1200 ltac:(lra) ltac:(lia))
    as (_ & H & _).
  apply H. discriminate.
Defined.

(** ** The decimation planner *)

(** X2: for a grid with at least one row and one column and [maxDim >= 1],
    both strides are at least 1 and each decimated count lies between 1
    and [maxDim]. *)
Theorem calcSteps_counts_bounded (r c maxDim : Z) :
  1 <= r -> 1 <= c -> 1 <= maxDim ->
  let steps := calcSteps r c maxDim in
  1 <= stepY steps /\ 1 <= stepX steps
  /\ 1 <= ceil_div r (stepY steps) <= maxDim
  /\ 1 <= ceil_div c (stepX steps) <= maxDim.
Proof.
  intros Hr Hc Hm steps.
  destruct (calcSteps_pos r c maxDim) as [Hsy Hsx]. fold steps in Hsy, Hsx.
  split; [exact Hsy|]. split; [exact Hsx|].
  pose proof (ceil_div_pos r (stepY steps) ltac:(lia) Hr) as Hr1.
  pose proof (ceil_div_pos c (stepX steps) ltac:(lia) Hc) as Hc1.
  pose proof (ceil_div_spec r (stepY steps) ltac:(lia)) as Hrs.
  pose proof (ceil_div_spec c (stepX steps) ltac:(lia)) as Hcs.
  pose proof (ceil_div_spec r maxDim ltac:(lia)) as Hrm.
  pose proof (ceil_div_spec c maxDim ltac:(lia)) as Hcm.
  assert (Hy : ceil_div r maxDim <= stepY steps).
  { unfold steps. rewrite calcSteps_eq. simpl. destruct (_ >? _); lia. }
  assert (Hx : ceil_div c maxDim <= stepX steps).
  { unfold steps. rewrite calcSteps_eq. simpl. destruct (_ >? _); lia. }
  split; split; try assumption; nia.
Qed.

Lemma calcSteps_counts_bounded_witness :
  let steps := calcSteps 5000 3000 900 in
  1 <= stepY steps /\ 1 <= stepX steps
  /\ 1 <= ceil_div 5000 (stepY steps) <= 900
  /\ 1 <= ceil_div 3000 (stepX steps) <= 900.
Proof. apply (calcSteps_counts_bounded 5000 3000 900); lia. Defined.

(** X3: the [while] loop of [calcSteps] ends within 20 increments: with
    any fuel of 20 or more it returns the multiplier 1 when the initial
    counts fit under the cap and 21 when they do not; both strides are
    the initial strides times that one multiplier. *)
Theorem calcSteps_loop_bounded (fuel : nat) (r c maxDim : Z) :
  (20 <= fuel)%nat ->
  let stepY0 := Z.max 1 (ceil_div r maxDim) in
  let stepX0 := Z.max 1 (ceil_div c maxDim) in
  let estRows := ceil_div r stepY0 in
  let estCols := ceil_div c stepX0 in
  let factor := calcSteps_loop fuel estRows estCols 1 in
  factor = (if estRows * estCols * 2 >? MAX_VERTICES then 21 else 1)
  /\ calcSteps r c maxDim = {| stepY := stepY0 * factor; stepX := stepX0 * factor |}.
Proof.
  intros Hfuel stepY0 stepX0 estRows estCols factor.
  assert (Hf : factor = if estRows * estCols * 2 >? MAX_VERTICES then 21 else 1).
  { unfold factor. apply calcSteps_loop_eq; lia. }
  split; [exact Hf|]. rewrite Hf. apply calcSteps_eq.
Qed.

Lemma calcSteps_loop_bounded_witness :
  calcSteps_loop 1000 1000 1000 1 = 21.
Proof.
  destruct (calcSteps_loop_bounded 1000 5000 5000 1200 ltac:(lia)) as [H _].
  exact H.
Defined.

(** ** The colormap *)

Local Open Scope R_scope.

(** On non-negative bases [Math.pow] does not decrease with its base. *)
Lemma Math_pow_mono (s t y : R) :
  0 <= y -> 0 <= s <= t ->
  exists a b : R,
    Math_pow (Fin s) y = Fin a /\ Math_pow (Fin t) y = Fin b /\ 0 <= a <= b.
Proof.
  intros Hy [Hs Hst]. unfold Math_pow.
  destruct (Req_dec_T y 0) as [Hy0|Hy0]; [exists 1, 1; repeat split; lra|].
  destruct (Rlt_dec 0 y) as [Hypos|]; [|lra].
  assert (Hint : is_integer y = true -> exists p : positive, Int_part y = Z.pos p).
  { unfold is_integer. destruct (Req_dec_T y (IZR (Int_part y))) as [E|]; [|discriminate].
    intros _. rewrite E in Hypos. apply lt_IZR in Hypos.
    destruct (Int_part y) as [|p|p]; try lia. exists p. reflexivity. }
  destruct (Req_dec_T s 0) as [->|Hs0].
  - destruct (Req_dec_T t 0) as [->|Ht0]; [exists 0, 0; repeat split; lra|].
    assert (Htpos : 0 < t) by lra.
    destruct (is_integer y).
    + eexists 0, _. repeat split; [lra|]. apply powerRZ_le. exact Htpos.
    + destruct (Rlt_dec 0 t); [|lra].
      eexists 0, _. repeat split; [lra|]. unfold Rpower. left. apply exp_pos.
  - assert (Hspos : 0 < s) by lra.
    destruct (Req_dec_T t 0); [lra|].
    destruct (is_integer y) eqn:Ei.
    + destruct (Hint eq_refl) as [p ->]. simpl.
      eexists _, _. repeat split.
      * apply pow_le. lra.
      * apply pow_incr. lra.
    + destruct (Rlt_dec 0 s); [|lra]. destruct (Rlt_dec 0 t); [|lra].
      eexists _, _. repeat split.
      * unfold Rpower. left. apply exp_pos.
      * apply Rle_Rpower_l; lra.
Qed.

Lemma viridis_poly_mono (k : nat) (s t : R) :
  (k < 3)%nat -> 0 <= s <= t ->
  exists a b : R,
    viridis_poly k (Fin s) = Fin a /\ viridis_poly k (Fin t) = Fin b /\ a <= b.
Proof.
  intros Hk Hst. unfold viridis_poly.
  assert (Hd : 0 <= viridis_exp viridis_d k).
  { destruct k as [|[|[|k]]]; [| | |lia]; unfold viridis_exp; simpl; lra. }
  assert (He : 0 <= viridis_exp viridis_e k).
  { destruct k as [|[|[|k]]]; [| | |lia]; unfold viridis_exp; simpl; lra. }
  destruct (Math_pow_mono s t _ Hd Hst) as (a1 & b1 & -> & -> & Hab1).
  destruct (Math_pow_mono s t _ He Hst) as (a2 & b2 & -> & -> & Hab2).
  destruct k as [|[|[|k]]]; [| | |lia]; simpl;
    eexists _, _; (split; [reflexivity|]); (split; [reflexivity|]); nra.
Qed.

Lemma clamp01_mono (a b : R) :
  a <= b -> Rmin 1 (Rmax 0 a) <= Rmin 1 (Rmax 0 b).
Proof.
  intros Hab.
  assert (Hmax : Rmax 0 a <= Rmax 0 b).
  { apply Rmax_lub; [apply Rmax_l|]. eapply Rle_trans; [exact Hab | apply Rmax_r]. }
  apply Rmin_glb; [apply Rmin_l|].
  eapply Rle_trans; [apply Rmin_r | exact Hmax].
Qed.

(** X4: on non-negative inputs no channel of [viridis] decreases when the
    input grows: a higher elevation never gets a darker channel. *)
Theorem viridis_monotone (s t : R) :
  0 <= s <= t ->
  exists r g b r' g' b' : R,
    viridis (Fin s) = (Fin r, Fin g, Fin b)
    /\ viridis (Fin t) = (Fin r', Fin g', Fin b')
    /\ r <= r' /\ g <= g' /\ b <= b'.
Proof.
  intros Hst. unfold viridis.
  destruct (viridis_poly_mono 0 s t ltac:(lia) Hst) as (a0 & b0 & -> & -> & H0).
  destruct (viridis_poly_mono 1 s t ltac:(lia) Hst) as (a1 & b1 & -> & -> & H1).
  destruct (viridis_poly_mono 2 s t ltac:(lia) Hst) as (a2 & b2 & -> & -> & H2).
  eexists _, _, _, _, _, _.
  split; [reflexivity|]. split; [reflexivity|].
  split; [|split]; apply clamp01_mono; assumption.
Qed.

Lemma viridis_monotone_witness :
  exists r g b r' g' b' : R,
    viridis (Fin 0.25) = (Fin r, Fin g, Fin b)
    /\ viridis (Fin 0.75) = (Fin r', Fin g', Fin b')
    /\ r <= r' /\ g <= g' /\ b <= b'.
Proof. apply (viridis_monotone 0.25 0.75). lra. Defined.

Local Close Scope R_scope.

(** ** Export scaling *)

Lemma num_mul_1_r (x : num) : num_mul x (Fin 1) = x.
Proof.
  destruct x as [| | |x]; simpl; unfold inf_sign.
  - reflexivity.
  - destruct (Rlt_dec 0 1); [reflexivity | lra].
  - destruct (Rlt_dec 0 _); [lra|].
    destruct (Rlt_dec _ 0); [reflexivity | lra].
  - f_equal. ring.
Qed.

(** X5: with the factor 1 (export in meters) [scalePositionsFromGeometry]
    returns a copy of the position buffer, [NaN] and infinite components
    included; the components of the buffer, a [Float32Array], are
    single-precision numbers. *)
Theorem scalePositionsFromGeometry_unit (g : BufferGeometry) (n : nat) :
  length (position g) = (3 * n)%nat ->
  Forall (fun x => Math_fround x = x) (position g) ->
  scalePositionsFromGeometry g (Fin 1) = (position g, g).
Proof.
  intros Hlen Hsingle.
  destruct (scalePositionsFromGeometry_spec g (Fin 1) n Hlen) as (Hg & Hl & Hall).
  destruct (scalePositionsFromGeometry g (Fin 1)) as [arr g'].
  simpl in Hg, Hl, Hall. subst g'. f_equal.
  apply list_eq. intros j.
  destruct (position g !! j) as [x|] eqn:Ex.
  - rewrite (Hall j x Ex). f_equal.
    assert (Hx : Math_fround x = x).
    { rewrite Forall_forall in Hsingle. apply Hsingle.
      eapply list_elem_of_lookup_2. exact Ex. }
    unfold mul64. rewrite num_mul_1_r, (single_f64 x Hx). exact Hx.
  - apply lookup_ge_None. apply lookup_ge_None in Ex. lia.
Qed.

Lemma scalePositionsFromGeometry_unit_witness :
  scalePositionsFromGeometry test_geom (Fin 1) = (position test_geom, test_geom).
Proof.
  apply (scalePositionsFromGeometry_unit test_geom 2); [reflexivity|].
  unfold test_geom. cbn [position].
  repeat (apply Forall_cons; split; [apply (fround_int _); lia|]).
  apply Forall_nil. exact I.
Defined.

(** ** More on the loops of the builder *)

(** The greatest sample, as [scan_surface_min] for the least. *)
Lemma scan_surface_max (Zg : list num) (C : Z) (exag : num)
    (rowsIdx colsIdx : list Z) (r c : Z) (v : Z -> R) :
  1 <= r -> 1 <= c ->
  (forall k, 0 <= k < r * c ->
     sample Zg C exag (rowsIdx !! Z.to_nat (k / c)) (colsIdx !! Z.to_nat (k mod c))
     = Fin (v k)) ->
  exists M : R,
    snd (scan_surface Zg C exag rowsIdx colsIdx r c) = Fin M
    /\ (forall k, 0 <= k < r * c -> (v k <= M)%R)
    /\ (exists k, 0 <= k < r * c /\ M = v k).
Proof.
  intros Hr Hc Hv.
  pose (P := fun (k : Z) (st : num * num) =>
               (k = 0 /\ snd st = NInf)
               \/ (exists M : R,
                     snd st = Fin M
                     /\ (forall k', 0 <= k' < k -> (v k' <= M)%R)
                     /\ (exists k', 0 <= k' < k /\ M = v k'))).
  assert (HP : P (r * c) (scan_surface Zg C exag rowsIdx colsIdx r c)).
  { unfold scan_surface, scan_body.
    refine (for_upto2_ind P r c
              (fun st ii jj =>
                 let '(zMinSurface, zMaxSurface) := st in
                 let z := sample Zg C exag (rowsIdx !! Z.to_nat ii)
                                 (colsIdx !! Z.to_nat jj) in
                 (if num_lt z zMinSurface then z else zMinSurface,
                  if num_gt z zMaxSurface then z else zMaxSurface))
              (PInf, NInf) _ _ _ _); [lia | lia | left; auto |].
    intros k [zMin zMax] Hk HPk. cbv zeta. rewrite (Hv k Hk).
    right. destruct HPk as [[-> Hmax] | (M & Hmax & Hle & k' & Hk' & Heq)];
      simpl in Hmax; subst zMax.
    - exists (v 0). simpl. split; [reflexivity|]. split.
      + intros k' Hk'. replace k' with 0 by lia. lra.
      + exists 0. split; [lia | reflexivity].
    - simpl. unfold num_gt. simpl. destruct (Rlt_dec M (v k)) as [Hlt|Hge].
      + exists (v k). split; [reflexivity|]. split.
        * intros k'' Hk''. destruct (Z.eq_dec k'' k) as [->|Hne]; [lra|].
          specialize (Hle k'' ltac:(lia)). lra.
        * exists k. split; [lia | reflexivity].
      + exists M. split; [reflexivity|]. split.
        * intros k'' Hk''. destruct (Z.eq_dec k'' k) as [->|Hne]; [lra|].
          apply Hle. lia.
        * exists k'. split; [lia | exact Heq]. }
  destruct HP as [[H0 _] | HP]; [nia | exact HP].
Qed.

(** The bottom loop: every bottom vertex gets the gray 0.2, as a single. *)
Lemma bottom_loop_colors c bz r s :
  0 <= r -> 0 <= c ->
  ci s = 3 * (r * c) ->
  6 * (r * c) <= Z.of_nat (length (colors s)) ->
  let s2 := for_upto r (bottom_body c bz) s in
  forall k, 0 <= k < r * c ->
    colors s2 !! Z.to_nat (3 * (r * c + k)) = Some (Math_fround (lit 0.2))
    /\ colors s2 !! Z.to_nat (3 * (r * c + k) + 1) = Some (Math_fround (lit 0.2))
    /\ colors s2 !! Z.to_nat (3 * (r * c + k) + 2) = Some (Math_fround (lit 0.2)).
Proof.
  intros Hr Hc Hci0 Hlen s2.
  pose (P := fun (k : Z) (s' : Buffers) =>
               ci s' = 3 * (r * c + k)
               /\ length (colors s') = length (colors s)
               /\ forall k', 0 <= k' < k ->
                    colors s' !! Z.to_nat (3 * (r * c + k'))
                    = Some (Math_fround (lit 0.2))
                    /\ colors s' !! Z.to_nat (3 * (r * c + k') + 1)
                       = Some (Math_fround (lit 0.2))
                    /\ colors s' !! Z.to_nat (3 * (r * c + k') + 2)
                       = Some (Math_fround (lit 0.2))).
  assert (HP : P (r * c) s2).
  { subst s2. unfold bottom_body.
    refine (for_upto2_ind P r c
              (fun s' ii jj =>
                 push_vertex s'
                   (get (positions s') ((ii * c + jj) * 3 + 0))
                   (get (positions s') ((ii * c + jj) * 3 + 1))
                   bz (lit 0.2) (lit 0.2) (lit 0.2))
              s Hr Hc _ _).
    - unfold P. split; [lia|]. split; [reflexivity | intros; lia].
    - intros k s' Hk (Hci & Hl & Hpre). unfold P.
      split; [simpl; lia|].
      split; [rewrite (proj2 (push_vertex_lengths _ _ _ _ _ _ _)); exact Hl|].
      intros k' Hk'. unfold push_vertex. cbn [colors]. rewrite Hci.
      destruct (Z.eq_dec k' k) as [->|Hne].
      + apply lookup_set3; lia.
      + rewrite !lookup_set3_ne by lia. apply Hpre. lia. }
  destruct HP as (_ & _ & Hall). exact Hall.
Qed.

(** The color loop: top vertex [k] gets [viridis t], each channel rounded
    by the store, with [t] computed from its stored third component; the
    colors past the top vertices are left alone. *)
Lemma color_loop_full c zMin dz r s :
  0 <= r -> 0 <= c ->
  3 * (r * c) <= Z.of_nat (length (colors s)) ->
  let s3 := for_upto r (color_body c zMin dz) s in
  (forall k, 0 <= k < r * c ->
     let t := clamp (div64 (sub64 (get (positions s) (k * 3 + 2)) zMin) dz)
                    (Fin 0) (Fin 1) in
     colors s3 !! Z.to_nat (3 * k) = Some (Math_fround (fst (fst (viridis t))))
     /\ colors s3 !! Z.to_nat (3 * k + 1) = Some (Math_fround (snd (fst (viridis t))))
     /\ colors s3 !! Z.to_nat (3 * k + 2) = Some (Math_fround (snd (viridis t))))
  /\ forall j : nat, 3 * (r * c) <= Z.of_nat j -> colors s3 !! j = colors s !! j.
Proof.
  intros Hr Hc Hlen s3.
  pose (T := fun k : Z =>
               clamp (div64 (sub64 (get (positions s) (k * 3 + 2)) zMin) dz)
                     (Fin 0) (Fin 1)).
  pose (P := fun (k : Z) (s' : Buffers) =>
               positions s' = positions s
               /\ length (colors s') = length (colors s)
               /\ (forall k', 0 <= k' < k ->
                     colors s' !! Z.to_nat (3 * k')
                     = Some (Math_fround (fst (fst (viridis (T k')))))
                     /\ colors s' !! Z.to_nat (3 * k' + 1)
                        = Some (Math_fround (snd (fst (viridis (T k')))))
                     /\ colors s' !! Z.to_nat (3 * k' + 2)
                        = Some (Math_fround (snd (viridis (T k')))))
               /\ forall j : nat, 3 * k <= Z.of_nat j -> colors s' !! j = colors s !! j).
  assert (HP : P (r * c) s3).
  { subst s3. unfold color_body.
    refine (for_upto2_ind P r c
              (fun s' ii jj =>
                 let '(cr, cg, cb) :=
                   viridis (clamp (div64 (sub64 (get (positions s')
                                                     ((ii * c + jj) * 3 + 2)) zMin) dz)
                                  (Fin 0) (Fin 1)) in
                 {| positions := positions s';
                    colors := set (set (set (colors s') ((ii * c + jj) * 3)
                                            (Math_fround cr))
                                       ((ii * c + jj) * 3 + 1) (Math_fround cg))
                                  ((ii * c + jj) * 3 + 2) (Math_fround cb);
                    p := p s';
                    ci := ci s' |})
              s Hr Hc _ _).
    - unfold P. split; [reflexivity|]. split; [reflexivity|].
      split; [intros; lia | reflexivity].
    - intros k s' Hk (Hpos & Hl & Hpre & Hrest).
      assert (Hcell : k / c * c + k mod c = k)
        by (pose proof (Z.div_mod k c ltac:(lia)); lia).
      rewrite Hcell, Hpos. fold (T k).
      destruct (viridis (T k)) as [[cr cg] cb] eqn:Ev. unfold P. cbn [positions colors].
      split; [reflexivity|]. split; [rewrite !length_set; exact Hl|].
      replace (k * 3) with (3 * k) by lia. split.
      + intros k' Hk'. destruct (Z.eq_dec k' k) as [->|Hne].
        * rewrite Ev. cbn [fst snd]. apply lookup_set3; lia.
        * rewrite !lookup_set3_ne by lia. apply Hpre. lia.
      + intros j Hj. rewrite lookup_set3_ne by lia. apply Hrest. lia. }
  destruct HP as (_ & _ & Hall & Hrest). split; [exact Hall | exact Hrest].
Qed.

(** ** More on the solid mesh builder *)

Section BuilderBuffers.
Variables (lats lons Zg : list num) (rows cols : Z) (exag base : num) (maxDim : Z).
Hypothesis HR : 1 <= rows.
Hypothesis HC : 1 <= cols.

Let steps := calcSteps rows cols (clamp maxDim 100 MAX_DIM).
Let sol := buildSolidGeometry lats lons Zg (rows, cols) exag base maxDim.
Let rowsIdx := fill_idx (rows1 sol) (stepY steps) (rows - 1).
Let colsIdx := fill_idx (cols1 sol) (stepX steps) (cols - 1).
Let surface := scan_surface Zg cols exag rowsIdx colsIdx (rows1 sol) (cols1 sol).
Let avgLatRad :=
  div64 (mul64 (div64 (add64 (get lats 0)
                             (get lats (Z.of_nat (length lats) - 1)))
                      (Fin 2))
               (lit PI))
        (Fin 180).

(** The colors: top vertex [k] is colored by [viridis] at its stored
    elevation, normalised between the least and the greatest surface
    elevation and clamped; bottom vertex [k] is gray. *)
Lemma sol_colors k :
  0 <= k < rows1 sol * cols1 sol ->
  let col := color (geom sol) in
  let topVerts := rows1 sol * cols1 sol in
  let zMinSurface := fst surface in
  let zMaxSurface := snd surface in
  let dz := Math_max (lit 1e-6) (sub64 zMaxSurface zMinSurface) in
  let z := Math_fround (sample Zg cols exag (rowsIdx !! Z.to_nat (k / cols1 sol))
                               (colsIdx !! Z.to_nat (k mod cols1 sol))) in
  let t := clamp (div64 (sub64 z zMinSurface) dz) (Fin 0) (Fin 1) in
  col !! Z.to_nat (3 * k) = Some (Math_fround (fst (fst (viridis t))))
  /\ col !! Z.to_nat (3 * k + 1) = Some (Math_fround (snd (fst (viridis t))))
  /\ col !! Z.to_nat (3 * k + 2) = Some (Math_fround (snd (viridis t)))
  /\ col !! Z.to_nat (3 * (topVerts + k)) = Some (Math_fround (lit 0.2))
  /\ col !! Z.to_nat (3 * (topVerts + k) + 1) = Some (Math_fround (lit 0.2))
  /\ col !! Z.to_nat (3 * (topVerts + k) + 2) = Some (Math_fround (lit 0.2)).
Proof.
  intros Hk col topVerts zMinSurface zMaxSurface dz z t.
  destruct (sol_counts_pos lats lons Zg rows cols exag base maxDim HR HC)
    as [Hr1 Hc1].
  fold sol in Hr1, Hc1.
  subst col topVerts t z dz zMaxSurface zMinSurface. revert Hk Hr1 Hc1.
  unfold surface, rowsIdx, colsIdx, sol, buildSolidGeometry. cbv zeta.
  cbn [geom color rows1 cols1]. fold steps.
  set (r := ceil_div rows (stepY steps)).
  set (c := ceil_div cols (stepX steps)).
  match goal with
  | |- context [for_upto r (color_body c ?zm ?d)
                  (for_upto r (bottom_body c ?bz) ?top)] =>
      set (s1 := top); set (bz' := bz); set (dz := d); set (zMin := zm)
  end.
  intros Hk Hr1 Hc1.
  assert (Hlen1 : length (positions s1) = Z.to_nat (r * c * 2 * 3)
                  /\ length (colors s1) = Z.to_nat (r * c * 2 * 3)).
  { unfold s1.
    match goal with
    | |- context [for_upto r (top_body ?a1 ?a2 ?a3 ?a4 ?a5 ?a6 ?a7 c ?a8 ?a9 ?a10 ?a11) ?s0] =>
        destruct (top_loop_lengths a1 a2 a3 a4 a5 a6 a7 r c a8 a9 a10 a11 s0)
          as [-> ->]
    end.
    cbn [positions colors]. rewrite length_new_Float32Array. auto. }
  destruct Hlen1 as [Hlp1 Hlc1].
  assert (Htop : p s1 = 3 * (r * c)
                 /\ forall k, 0 <= k < r * c ->
                      positions s1 !! Z.to_nat (3 * k + 2)
                      = Some (Math_fround
                                (sample Zg cols exag
                                   (fill_idx r (stepY steps) (rows - 1) !! Z.to_nat (k / c))
                                   (fill_idx c (stepX steps) (cols - 1) !! Z.to_nat (k mod c))))).
  { apply top_loop_spec; [lia | lia | reflexivity |].
    cbn [positions]. rewrite length_new_Float32Array. nia. }
  destruct Htop as [Hp1 Hz].
  assert (Hci1 : ci s1 = 3 * (r * c)).
  { apply top_loop_xy; [lia | lia | reflexivity | reflexivity |].
    cbn [positions]. rewrite length_new_Float32Array. nia. }
  destruct (bottom_loop_spec c bz' r s1 ltac:(lia) ltac:(lia) Hp1 ltac:(nia))
    as [Hlow _].
  pose proof (bottom_loop_colors c bz' r s1 ltac:(lia) ltac:(lia) Hci1 ltac:(nia))
    as Hgray.
  destruct (bottom_loop_lengths c bz' r s1) as [Hlp2 Hlc2].
  set (s2 := for_upto r (bottom_body c bz') s1) in *.
  destruct (color_loop_full c zMin dz r s2 ltac:(lia) ltac:(lia) ltac:(nia))
    as [Hcol Hrest].
  destruct (Hcol k Hk) as (E0 & E1 & E2). cbv zeta in E0, E1, E2.
  assert (Hzk : get (positions s2) (k * 3 + 2)
                = Math_fround
                    (sample Zg cols exag
                       (fill_idx r (stepY steps) (rows - 1) !! Z.to_nat (k / c))
                       (fill_idx c (stepX steps) (cols - 1) !! Z.to_nat (k mod c)))).
  { apply get_lookup; [lia|].
    rewrite Hlow by lia. replace (k * 3 + 2) with (3 * k + 2) by lia.
    apply Hz. exact Hk. }
  rewrite Hzk in E0, E1, E2.
  destruct (Hgray k Hk) as (G0 & G1 & G2).
  rewrite (Hrest (Z.to_nat (3 * (r * c + k)))) by lia.
  rewrite (Hrest (Z.to_nat (3 * (r * c + k) + 1))) by lia.
  rewrite (Hrest (Z.to_nat (3 * (r * c + k) + 2))) by lia.
  auto 10.
Qed.

End BuilderBuffers.

Local Open Scope R_scope.

(** The normalised elevation of a vertex is a real, and the clamp brings
    it into the unit interval. *)
Lemma unit_parameter (s m D : R) :
  Rabs s <= bpow 127 -> Rabs m <= bpow 127 -> bpow (-20) <= D ->
  exists t : R,
    clamp (div64 (sub64 (Fin s) (Fin m)) (Fin D)) (Fin 0) (Fin 1) = Fin t
    /\ 0 <= t <= 1.
Proof.
  intros Hs Hm HD. apply Rabs_bounds in Hs. apply Rabs_bounds in Hm.
  pose proof (bpow_pos (-20)) as Hp20.
  assert (H128 : bpow 128 = 2 * bpow 127)
    by (replace 128%Z with (1 + 127)%Z by lia; rewrite bpow_add, bpow_1; lra).
  unfold sub64. cbn [num_sub num_neg num_add].
  destruct (f64_bounded 128 (s + - m) ltac:(lia)) as (u & -> & Hu).
  { apply Rabs_le. lra. }
  unfold div64. cbn [num_div].
  destruct (Req_dec_T D 0) as [E|_]; [lra|].
  destruct (f64_bounded 148 (u / D) ltac:(lia)) as (q & -> & Hq).
  { unfold Rdiv. rewrite Rabs_mult.
    replace 148%Z with (128 + 20)%Z by lia. rewrite bpow_add.
    apply Rmult_le_compat; [apply Rabs_pos | apply Rabs_pos | exact Hu |].
    rewrite Rabs_pos_eq by (left; apply Rinv_0_lt_compat; lra).
    replace (bpow 20) with (/ bpow (-20)) by (rewrite <- bpow_opp; reflexivity).
    apply Rinv_le_contravar; lra. }
  rewrite clamp_num_fin. eexists. split; [reflexivity|].
  unfold Rmax, Rmin. destruct (Rle_dec 1 q); destruct (Rle_dec 0 _); lra.
Qed.

(** The elevation range that divides: at least the double 1e-6. *)
Lemma range_floor (m M : R) :
  Rabs m <= bpow 127 -> Rabs M <= bpow 127 ->
  exists D : R,
    Math_max (lit 1e-6) (sub64 (Fin M) (Fin m)) = Fin D /\ bpow (-20) <= D.
Proof.
  intros Hm HM. apply Rabs_bounds in Hm. apply Rabs_bounds in HM.
  assert (H128 : bpow 128 = 2 * bpow 127)
    by (replace 128%Z with (1 + 127)%Z by lia; rewrite bpow_add, bpow_1; lra).
  destruct lit_1e_6 as (d & -> & Hd).
  unfold sub64. cbn [num_sub num_neg num_add].
  destruct (f64_bounded 128 (M + - m) ltac:(lia)) as (u & -> & Hu).
  { apply Rabs_le. lra. }
  exists (Rmax d u). split; [reflexivity|].
  apply Rle_trans with d; [exact Hd | apply Rmax_l].
Qed.

Lemma bpow_127_le_MAX : bpow 127 <= MAX_VALUE.
Proof.
  unfold MAX_VALUE. apply Rle_trans with (1 * bpow 971).
  - rewrite Rmult_1_l. apply bpow_le. lia.
  - apply Rmult_le_compat_r; [pose proof (bpow_pos 971); lra|].
    apply IZR_le. lia.
Qed.

Local Close Scope R_scope.

(** The colors on a grid of reals whose exaggerated elevations are within
    the range of the singles. *)
Section FiniteColors.
Variables (lats lons Zg : list num) (rows cols : Z) (e b : R) (maxDim : Z).
Hypothesis HR : 1 <= rows.
Hypothesis HC : 1 <= cols.
Hypothesis Hcells : rows * cols <= 150000000.
Hypothesis Hfin :
  forall i j, 0 <= i < rows -> 0 <= j < cols ->
    exists x : R, Zg !! Z.to_nat (i * cols + j) = Some (Fin x).
Hypothesis Hmag :
  forall i j, 0 <= i < rows -> 0 <= j < cols ->
    (Rabs (elevation Zg cols i j * e) <= bpow 127)%R.

Let steps := calcSteps rows cols (clamp maxDim 100 MAX_DIM).
Let sol := buildSolidGeometry lats lons Zg (rows, cols) (Fin e) (Fin b) maxDim.

(** The exaggerated elevation of top vertex [k], a double. *)
Let zk (k : Z) : R :=
  double (elevation Zg cols (k / cols1 sol * stepY steps)
                    (k mod cols1 sol * stepX steps) * e).

Let Hmag64 :
  forall i j, 0 <= i < rows -> 0 <= j < cols ->
    (Rabs (elevation Zg cols i j * e) <= MAX_VALUE)%R.
Proof.
  intros i j Hi Hj. eapply Rle_trans; [apply Hmag; assumption | apply bpow_127_le_MAX].
Qed.

Lemma zk_bounded k :
  0 <= k < rows1 sol * cols1 sol -> (Rabs (zk k) <= bpow 127)%R.
Proof.
  intros Hk.
  destruct (sample_inside lats lons Zg rows cols e b maxDim HR HC Hcells Hfin k Hk)
    as (Hi & Hj & _).
  apply (double_bounded 127); [lia|]. apply Hmag; assumption.
Qed.

Lemma sol_colors_fin :
  let col := color (geom sol) in
  let topVerts := rows1 sol * cols1 sol in
  exists m M D : R,
    (forall k, 0 <= k < topVerts -> (m <= zk k <= M)%R)
    /\ (exists k, 0 <= k < topVerts /\ m = zk k)
    /\ (exists k, 0 <= k < topVerts /\ M = zk k)
    /\ Math_max (lit 1e-6) (sub64 (Fin M) (Fin m)) = Fin D
    /\ (bpow (-20) <= D)%R
    /\ forall k, 0 <= k < topVerts ->
         exists t : R,
           clamp (div64 (sub64 (Math_fround (Fin (zk k))) (Fin m)) (Fin D))
                 (Fin 0) (Fin 1) = Fin t
           /\ (0 <= t <= 1)%R
           /\ col !! Z.to_nat (3 * k) = Some (Math_fround (fst (fst (viridis (Fin t)))))
           /\ col !! Z.to_nat (3 * k + 1)
              = Some (Math_fround (snd (fst (viridis (Fin t)))))
           /\ col !! Z.to_nat (3 * k + 2) = Some (Math_fround (snd (viridis (Fin t))))
           /\ col !! Z.to_nat (3 * (topVerts + k)) = Some (Math_fround (lit 0.2))
           /\ col !! Z.to_nat (3 * (topVerts + k) + 1) = Some (Math_fround (lit 0.2))
           /\ col !! Z.to_nat (3 * (topVerts + k) + 2) = Some (Math_fround (lit 0.2)).
Proof.
  intros col topVerts.
  destruct (sol_counts_pos lats lons Zg rows cols (Fin e) (Fin b) maxDim HR HC)
    as [Hr1 Hc1].
  fold sol in Hr1, Hc1.
  pose proof (sample_fin lats lons Zg rows cols e b maxDim HR HC Hcells Hfin Hmag64)
    as Hs.
  fold sol steps in Hs.
  destruct (scan_surface_min Zg cols (Fin e) _ _ (rows1 sol) (cols1 sol) zk Hr1 Hc1 Hs)
    as (m & Hm & Hle & Hmin).
  destruct (scan_surface_max Zg cols (Fin e) _ _ (rows1 sol) (cols1 sol) zk Hr1 Hc1 Hs)
    as (M & HM & Hge & Hmax).
  assert (Hmb : (Rabs m <= bpow 127)%R).
  { destruct Hmin as (k0 & Hk0 & ->). apply zk_bounded. exact Hk0. }
  assert (HMb : (Rabs M <= bpow 127)%R).
  { destruct Hmax as (k0 & Hk0 & ->). apply zk_bounded. exact Hk0. }
  destruct (range_floor m M Hmb HMb) as (D & ED & HD).
  exists m, M, D.
  split; [intros k Hk; split; [apply Hle | apply Hge]; exact Hk|].
  split; [exact Hmin|]. split; [exact Hmax|]. split; [exact ED|]. split; [exact HD|].
  intros k Hk.
  pose proof (sol_colors lats lons Zg rows cols (Fin e) (Fin b) maxDim HR HC k Hk) as Hc.
  cbv zeta in Hc. fold sol steps in Hc.
  rewrite Hm, HM, (Hs k Hk), ED in Hc. cbv beta in Hc. fold (zk k) in Hc.
  destruct (fround_bounded 127 (zk k) ltac:(lia) (zk_bounded k Hk)) as (s & Es & Hsb).
  destruct (unit_parameter s m D Hsb Hmb HD) as (t & Et & Ht).
  exists t. rewrite Es. rewrite Es, Et in Hc.
  split; [exact Et|]. split; [exact Ht | exact Hc].
Qed.
End FiniteColors.

Lemma test2_Z_mag32 (i j : Z) :
  0 <= i < 2 -> 0 <= j < 2 ->
  (Rabs (elevation test2_Z 2 i j * 1) <= bpow 127)%R.
Proof.
  intros Hi Hj. destruct (test2_Z_elevation i j Hi Hj) as (n & -> & Hn).
  rewrite Rmult_1_r. apply Rle_trans with (bpow 6); [|apply bpow_le; lia].
  apply Rabs_le.
  assert (IZR (-50) <= IZR n)%R by (apply IZR_le; lia).
  assert (IZR n <= IZR (-10))%R by (apply IZR_le; lia).
  bpow_eval. lra.
Qed.



(** X7: on a grid of real elevations whose products with the exaggeration
    have a magnitude of at most [2^127] (so that they can be stored as
    singles), with real settings, every component of the color buffer is
    a real of [[0,1]]. *)
Theorem colors_in_unit_range
    (lats lons Zg : list num) (rows cols : Z) (e b : R) (maxDim : Z) :
  1 <= rows -> 1 <= cols -> rows * cols <= 150000000 ->
  (forall i j, 0 <= i < rows -> 0 <= j < cols ->
     exists x : R, Zg !! Z.to_nat (i * cols + j) = Some (Fin x)) ->
  (forall i j, 0 <= i < rows -> 0 <= j < cols ->
     (Rabs (elevation Zg cols i j * e) <= bpow 127)%R) ->
  let sol := buildSolidGeometry lats lons Zg (rows, cols) (Fin e) (Fin b) maxDim in
  forall j : nat, (j < length (color (geom sol)))%nat ->
    exists v : R, color (geom sol) !! j = Some (Fin v) /\ (0 <= v <= 1)%R.
Proof.
  intros Hrows Hcols Hcells Hfin Hmag sol j Hj.
  destruct (sol_colors_fin lats lons Zg rows cols e b maxDim
              Hrows Hcols Hcells Hfin Hmag)
    as (m & M & D & _ & _ & _ & _ & _ & Hall).
  fold sol in Hall. cbv zeta in Hall.
  destruct (sol_counts_pos lats lons Zg rows cols (Fin e) (Fin b) maxDim Hrows Hcols)
    as [Hr1 Hc1].
  destruct (sol_lengths lats lons Zg rows cols (Fin e) (Fin b) maxDim) as [_ Hlc].
  fold sol in Hr1, Hc1, Hlc.
  set (tv := rows1 sol * cols1 sol) in *.
  assert (Htv : 1 <= tv) by (unfold tv; nia).
  set (q := Z.of_nat j / 3). set (u := Z.of_nat j mod 3).
  assert (Hqu : Z.of_nat j = 3 * q + u /\ 0 <= u < 3)
    by (unfold q, u; pose proof (Z.div_mod (Z.of_nat j) 3 ltac:(lia));
        pose proof (Z.mod_pos_bound (Z.of_nat j) 3 ltac:(lia)); lia).
  assert (Hq : 0 <= q < 2 * tv) by lia.
  destruct (Z_lt_le_dec q tv) as [Htop|Hbot].
  - destruct (Hall q ltac:(lia)) as (t & _ & Ht & E0 & E1 & E2 & _).
    destruct (viridis_range _ (proj1 Ht)) as (cr & cg & cb & Ev & Hcr & Hcg & Hcb).
    rewrite Ev in E0, E1, E2. cbn [fst snd] in E0, E1, E2.
    destruct (fround_unit cr Hcr) as (cr' & Er & Hr').
    destruct (fround_unit cg Hcg) as (cg' & Eg & Hg').
    destruct (fround_unit cb Hcb) as (cb' & Eb & Hb').
    rewrite Er in E0. rewrite Eg in E1. rewrite Eb in E2.
    assert (Hu : u = 0 \/ u = 1 \/ u = 2) by lia.
    destruct Hu as [Hu | [Hu | Hu]].
    + exists cr'. replace j with (Z.to_nat (3 * q)) by lia. auto.
    + exists cg'. replace j with (Z.to_nat (3 * q + 1)) by lia. auto.
    + exists cb'. replace j with (Z.to_nat (3 * q + 2)) by lia. auto.
  - destruct (Hall (q - tv) ltac:(lia)) as (_ & _ & _ & _ & _ & _ & G0 & G1 & G2).
    replace (tv + (q - tv)) with q in G0, G1, G2 by lia.
    rewrite stored_gray in G0, G1, G2.
    exists (13421773 / 67108864)%R. split; [|lra].
    assert (Hu : u = 0 \/ u = 1 \/ u = 2) by lia.
    destruct Hu as [Hu | [Hu | Hu]].
    + replace j with (Z.to_nat (3 * q)) by lia. exact G0.
    + replace j with (Z.to_nat (3 * q + 1)) by lia. exact G1.
    + replace j with (Z.to_nat (3 * q + 2)) by lia. exact G2.
Qed.

Lemma colors_in_unit_range_witness :
  let sol :=
    buildSolidGeometry test2_lats test2_lons test2_Z (2, 2) (Fin 1) (Fin 10) 999 in
  exists v : R, color (geom sol) !! 23%nat = Some (Fin v) /\ (0 <= v <= 1)%R.
Proof.
  apply (colors_in_unit_range test2_lats test2_lons test2_Z 2 2 1 10 999
           ltac:(lia) ltac:(lia) ltac:(lia) test2_Z_fin test2_Z_mag32 23%nat).
  rewrite (proj2 (sol_lengths test2_lats test2_lons test2_Z 2 2 (Fin 1) (Fin 10) 999)).
  vm_compute. lia.
Defined.

(** X8: a flat grid (every elevation the same real, its product with the
    exaggeration of magnitude at most [2^127]) does not divide by zero:
    the elevation range is floored at the double 1e-6 and all the top
    vertices get one and the same color, [viridis t0] for a real [t0] of
    [[0,1]]; [t0] is 0 when the exaggerated elevation is a
    single-precision number, so that the store does not change it. *)
Theorem flat_grid_colors
    (lats lons Zg : list num) (rows cols : Z) (v e b : R) (maxDim : Z) :
  1 <= rows -> 1 <= cols -> rows * cols <= 150000000 ->
  (forall i j, 0 <= i < rows -> 0 <= j < cols ->
     Zg !! Z.to_nat (i * cols + j) = Some (Fin v)) ->
  (Rabs (v * e) <= bpow 127)%R ->
  let sol := buildSolidGeometry lats lons Zg (rows, cols) (Fin e) (Fin b) maxDim in
  let col := color (geom sol) in
  exists t0 : R,
    (0 <= t0 <= 1)%R
    /\ (forall k, 0 <= k < rows1 sol * cols1 sol ->
          col !! Z.to_nat (3 * k) = Some (Math_fround (fst (fst (viridis (Fin t0)))))
          /\ col !! Z.to_nat (3 * k + 1)
             = Some (Math_fround (snd (fst (viridis (Fin t0)))))
          /\ col !! Z.to_nat (3 * k + 2) = Some (Math_fround (snd (viridis (Fin t0)))))
    /\ (Math_fround (mul64 (Fin v) (Fin e)) = mul64 (Fin v) (Fin e) -> t0 = 0%R).
Proof.
  intros Hrows Hcols Hcells Hflat Hmag sol col.
  destruct (sol_counts_pos lats lons Zg rows cols (Fin e) (Fin b) maxDim Hrows Hcols)
    as [Hr1 Hc1].
  fold sol in Hr1, Hc1.
  destruct (calcSteps_pos rows cols (clamp maxDim 100 MAX_DIM)) as [Hsy Hsx].
  destruct (grid_dims_small rows cols Hrows Hcols Hcells) as [HR' HC'].
  assert (Hel : forall i j, 0 <= i < rows -> 0 <= j < cols ->
                  elevation Zg cols i j = v).
  { intros i j Hi Hj. apply elevation_lookup; [nia|]. apply Hflat; assumption. }
  assert (Hfin : forall i j, 0 <= i < rows -> 0 <= j < cols ->
                   exists x : R, Zg !! Z.to_nat (i * cols + j) = Some (Fin x))
    by (intros i j Hi Hj; exists v; apply Hflat; assumption).
  assert (Hmag' : forall i j, 0 <= i < rows -> 0 <= j < cols ->
                    (Rabs (elevation Zg cols i j * e) <= bpow 127)%R)
    by (intros i j Hi Hj; rewrite Hel by assumption; exact Hmag).
  destruct (sol_colors_fin lats lons Zg rows cols e b maxDim
              Hrows Hcols Hcells Hfin Hmag')
    as (m & M & D & Hb & (kmin & Hkmin & Em) & (kmax & Hkmax & EM) & ED & HD & Hall).
  fold sol in Hb, Hkmin, Hkmax, Em, EM, Hall. cbv zeta in Hall.
  assert (Hz : forall k, 0 <= k < rows1 sol * cols1 sol ->
                 double (elevation Zg cols
                   (k / cols1 sol * stepY (calcSteps rows cols (clamp maxDim 100 MAX_DIM)))
                   (k mod cols1 sol * stepX (calcSteps rows cols (clamp maxDim 100 MAX_DIM)))
                   * e) = double (v * e)).
  { intros k Hk.
    destruct (sample_inside lats lons Zg rows cols e b maxDim
                Hrows Hcols Hcells Hfin k Hk) as (Hi & Hj & _).
    rewrite Hel by assumption. reflexivity. }
  rewrite Hz in Em, EM by assumption. subst m M.
  destruct (Hall 0 ltac:(nia)) as (t0 & Et0 & Ht0 & _).
  rewrite Hz in Et0 by nia.
  exists t0. split; [exact Ht0|]. split.
  - intros k Hk. destruct (Hall k Hk) as (t & Et & _ & E0 & E1 & E2 & _).
    rewrite Hz in Et by exact Hk. rewrite Et0 in Et. injection Et as <-.
    auto.
  - intros Hsingle.
    destruct (double_bounded 127 (v * e) ltac:(lia) Hmag) as [Ed _].
    unfold mul64 in Hsingle. cbn [num_mul] in Hsingle. rewrite Ed in Hsingle.
    rewrite Hsingle in Et0.
    unfold sub64 in Et0. cbn [num_sub num_neg num_add] in Et0.
    rewrite Rplus_opp_r, f64_0 in Et0.
    unfold div64 in Et0. cbn [num_div] in Et0.
    destruct (Req_dec_T D 0) as [E|_];
      [pose proof (bpow_pos (-20)); lra|].
    replace (0 / D)%R with 0%R in Et0 by (unfold Rdiv; ring).
    rewrite f64_0, clamp_num_id in Et0 by lra.
    injection Et0 as <-. reflexivity.
Qed.

Lemma flat_grid_colors_witness :
  let sol :=
    buildSolidGeometry test2_lats test2_lons [Fin 7; Fin 7; Fin 7; Fin 7] (2, 2)
                       (Fin 1) (Fin 10) 999 in
  color (geom sol) !! 0%nat = Some (Math_fround (fst (fst (viridis (Fin 0))))).
Proof.
  assert (Hflat : forall i j, 0 <= i < 2 -> 0 <= j < 2 ->
                    [Fin 7; Fin 7; Fin 7; Fin 7] !! Z.to_nat (i * 2 + j) = Some (Fin 7)).
  { intros i j Hi Hj.
    assert (Ei : i = 0 \/ i = 1) by lia. assert (Ej : j = 0 \/ j = 1) by lia.
    destruct Ei as [-> | ->]; destruct Ej as [-> | ->]; reflexivity. }
  assert (Hmag : (Rabs (7 * 1) <= bpow 127)%R).
  { apply Rle_trans with (bpow 3); [|apply bpow_le; lia].
    rewrite Rabs_pos_eq by lra. bpow_eval. lra. }
  destruct (flat_grid_colors test2_lats test2_lons [Fin 7; Fin 7; Fin 7; Fin 7] 2 2
              7 1 10 999 ltac:(lia) ltac:(lia) ltac:(lia) Hflat Hmag)
    as (t0 & _ & Hall & Hzero).
  rewrite <- Hzero.
  - apply (Hall 0). vm_compute. split; congruence.
  - rewrite (store_int_product 7 1) by lia.
    unfold mul64. cbn [num_mul]. rewrite <- mult_IZR. symmetry. apply f64_int. lia.
Defined.

(** X9: whatever the arrays hold ([NaN] included), every bottom vertex
    has the three color components 13421773 / 2^26 =
    0.20000000298023224, the single nearest to 0.2, which is not 0.2. *)
Theorem bottom_colors_gray
    (lats lons Zg : list num) (rows cols : Z) (exag base : num) (maxDim : Z) :
  1 <= rows -> 1 <= cols ->
  let sol := buildSolidGeometry lats lons Zg (rows, cols) exag base maxDim in
  let col := color (geom sol) in
  let topVerts := rows1 sol * cols1 sol in
  let gray := Fin (13421773 / 67108864) in
  gray <> Fin 0.2
  /\ forall k, 0 <= k < topVerts ->
       col !! Z.to_nat (3 * (topVerts + k)) = Some gray
       /\ col !! Z.to_nat (3 * (topVerts + k) + 1) = Some gray
       /\ col !! Z.to_nat (3 * (topVerts + k) + 2) = Some gray.
Proof.
  intros Hrows Hcols sol col topVerts gray.
  split; [intros [= H]; lra|].
  intros k Hk.
  destruct (sol_colors lats lons Zg rows cols exag base maxDim Hrows Hcols k Hk)
    as (_ & _ & _ & G).
  rewrite stored_gray in G. exact G.
Qed.

Lemma bottom_colors_gray_witness :
  let sol :=
    buildSolidGeometry test2_lats test2_lons test2_Z (2, 2) (Fin 1) NaN 999 in
  color (geom sol) !! 12%nat = Some (Fin (13421773 / 67108864)).
Proof.
  destruct (bottom_colors_gray test2_lats test2_lons test2_Z 2 2 (Fin 1) NaN 999
              ltac:(lia) ltac:(lia)) as [_ H].
  destruct (H 0 ltac:(vm_compute; split; congruence)) as [G _].
  exact G.
Defined.

Local Open Scope R_scope.


Local Close Scope R_scope.



(** X11: a grid that fits under the clamped [maxDim] on both axes and
    under the vertex cap is meshed at full resolution: the counts are the
    grid's, and the third component of top vertex [k] is element [k] of
    the elevation array times the exaggeration, a double product rounded
    to single precision by the store. *)
Theorem full_resolution
    (lats lons Zg : list num) (rows cols : Z) (exag base : num) (maxDim : Z) :
  1 <= rows <= clamp maxDim 100 MAX_DIM ->
  1 <= cols <= clamp maxDim 100 MAX_DIM ->
  rows * cols * 2 <= MAX_VERTICES ->
  let sol := buildSolidGeometry lats lons Zg (rows, cols) exag base maxDim in
  calcSteps rows cols (clamp maxDim 100 MAX_DIM) = {| stepY := 1; stepX := 1 |}
  /\ rows1 sol = rows /\ cols1 sol = cols
  /\ count (geom sol) = 2 * rows * cols
  /\ forall k, 0 <= k < rows * cols ->
       position (geom sol) !! Z.to_nat (3 * k + 2)
       = Some (Math_fround (mul64 (get Zg k) exag)).
Proof.
  intros Hrows Hcols Hcap sol.
  pose proof (calcSteps_no_decimation rows cols _ Hrows Hcols Hcap) as Hsteps.
  destruct (sol_counts lats lons Zg rows cols exag base maxDim) as [Hr Hc].
  fold sol in Hr, Hc. rewrite Hsteps in Hr, Hc. cbn [stepY stepX] in Hr, Hc.
  rewrite ceil_div_1 in Hr, Hc.
  destruct (buildSolidGeometry_counts lats lons Zg rows cols exag base maxDim
              ltac:(lia) ltac:(lia)) as (_ & _ & Hcount & _).
  fold sol in Hcount. rewrite Hr, Hc in Hcount.
  split; [exact Hsteps|]. split; [exact Hr|]. split; [exact Hc|].
  split; [exact Hcount|].
  intros k Hk.
  destruct (sol_vertices lats lons Zg rows cols exag base maxDim
              ltac:(lia) ltac:(lia) k ltac:(fold sol; rewrite Hr, Hc; exact Hk))
    as (x & y & _ & _ & Ez & _).
  fold sol in Ez. rewrite Ez. do 2 f_equal.
  rewrite Hr, Hc, Hsteps. cbn [stepY stepX].
  pose proof (clamp_Z_bounds maxDim 100 1200 ltac:(lia)) as Hm.
  unfold MAX_DIM in Hrows, Hcols.
  assert (Hii : 0 <= k / cols < rows).
  { split; [apply Z.div_pos; lia | apply Z.div_lt_upper_bound; nia]. }
  assert (Hjj : 0 <= k mod cols < cols) by (apply Z.mod_pos_bound; lia).
  pose proof (axis_lookup rows 1 ltac:(lia) ltac:(lia) (k / cols)) as Er.
  pose proof (axis_lookup cols 1 ltac:(lia) ltac:(lia) (k mod cols)) as Ec.
  rewrite ceil_div_1 in Er, Ec.
  rewrite (Er Hii), (Ec Hjj).
  unfold sample. do 2 f_equal.
  pose proof (Z.div_mod k cols ltac:(lia)). lia.
Qed.

Lemma full_resolution_witness :
  let sol :=
    buildSolidGeometry test3_lats test3_lons test3_Z (3, 3) (Fin 2) (Fin 10) 999 in
  position (geom sol) !! 14%nat = Some (Fin 8).
Proof.
  destruct (full_resolution test3_lats test3_lons test3_Z 3 3 (Fin 2) (Fin 10) 999)
    as (_ & _ & _ & _ & H);
    [first [vm_compute; split; congruence | vm_compute; congruence] ..|].
  pose proof (H 4 ltac:(lia)) as E.
  change (Z.to_nat (3 * 4 + 2)) with 14%nat in E. cbv zeta in E |- *.
  rewrite E. f_equal.
  change (get test3_Z 4) with (Fin 4). apply (store_int_product 4 2). lia.
Defined.

Lemma ceil_div_0 b : 0 < b -> ceil_div 0 b = 0.
Proof. intros Hb. unfold ceil_div. simpl. rewrite Z.div_0_l by lia. reflexivity. Qed.

(** The faces when there is no row. *)
Lemma build_faces_no_row c :
  1 <= c -> Z.of_nat (length (build_faces 0 c)) = 12 * (c - 1).
Proof.
  intros Hc. unfold build_faces. cbv zeta.
  change (0 - 1) with (-1).
  rewrite !(for_upto_nonpos (-1)) by lia.
  pose (P := fun _ : Z => True).
  push_stage P 6.
  { intros fs i Hi. split; [apply length_push6|].
    intros HF. apply Forall_push6; (exact I || assumption). }
  push_stage P 6.
  { intros fs i Hi. split; [apply length_push6|].
    intros HF. apply Forall_push6; (exact I || assumption). }
  simpl length in *. lia.
Qed.

(** X12: without rows there is no vertex and [bottomZ] is [Infinity];
    for the shape (0, 0) there is no triangle either, but for 0 rows and
    [cols] columns the two strips of rows 0 and [rows1 - 1] still push
    [12 (cols1 - 1)] indices, with no vertex to refer to. *)
Theorem empty_grid
    (lats lons Zg : list num) (cols : Z) (exag : num) (b : R) (maxDim : Z) :
  0 <= cols ->
  let sol := buildSolidGeometry lats lons Zg (0, cols) exag (Fin b) maxDim in
  rows1 sol = 0
  /\ position (geom sol) = [] /\ color (geom sol) = []
  /\ bottomZ sol = PInf
  /\ (cols = 0 -> index (geom sol) = [])
  /\ (1 <= cols -> Z.of_nat (length (index (geom sol))) = 12 * (cols1 sol - 1)).
Proof.
  intros Hcols sol.
  destruct (sol_counts lats lons Zg 0 cols exag (Fin b) maxDim) as [Hr Hc].
  fold sol in Hr, Hc.
  destruct (calcSteps_pos 0 cols (clamp maxDim 100 MAX_DIM)) as [Hsy Hsx].
  assert (Hr0 : rows1 sol = 0).
  { rewrite Hr. apply ceil_div_0. lia. }
  destruct (sol_lengths lats lons Zg 0 cols exag (Fin b) maxDim) as [Hlp Hlc].
  fold sol in Hlp, Hlc. rewrite Hr0 in Hlp, Hlc.
  change (Z.to_nat (3 * (2 * (0 * cols1 sol)))) with 0%nat in Hlp, Hlc.
  assert (Hidx : index (geom sol) = build_faces 0 (cols1 sol)).
  { unfold sol. rewrite sol_index. fold sol. rewrite Hr0. reflexivity. }
  split; [exact Hr0|].
  split; [apply nil_length_inv; exact Hlp|].
  split; [apply nil_length_inv; exact Hlc|].
  split.
  - unfold sol. rewrite sol_bottomZ. fold sol. rewrite Hr0.
    unfold scan_surface. rewrite for_upto_nonpos by lia. reflexivity.
  - split.
    + intros ->. rewrite Hidx.
      assert (Hc0 : cols1 sol = 0).
      { rewrite Hc. apply ceil_div_0. lia. }
      rewrite Hc0. reflexivity.
    + intros Hc1. rewrite Hidx. apply build_faces_no_row.
      rewrite Hc. apply ceil_div_pos; lia.
Qed.

Lemma empty_grid_witness :
  let sol := buildSolidGeometry [] test3_lons [] (0, 3) (Fin 1) (Fin 20) 900 in
  position (geom sol) = [] /\ length (index (geom sol)) = 24%nat.
Proof.
  destruct (empty_grid [] test3_lons [] 3 (Fin 1) 20 900 ltac:(lia))
    as (_ & Hp & _ & _ & _ & Hi).
  split; [exact Hp|].
  specialize (Hi ltac:(lia)).
  change (cols1 (buildSolidGeometry [] test3_lons [] (0, 3) (Fin 1) (Fin 20) 900))
    with 3 in Hi.
  lia.
Defined.

(** ** The triangles of the mesh *)

Lemma triangles_app (n : nat) (l l' : list Z) :
  length l = (3 * n)%nat -> triangles (l ++ l') = triangles l ++ triangles l'.
Proof.
  revert l. induction n as [|n IH]; intros l Hl.
  - destruct l; [reflexivity | discriminate].
  - destruct l as [|a [|b [|c l]]]; simpl in Hl; try lia.
    simpl. f_equal. apply IH. lia.
Qed.

Lemma triangles_push6 (fs : list Z) (a b c d e f : Z) :
  (exists n : nat, length fs = (3 * n)%nat) ->
  (exists n : nat, length (push6 fs a b c d e f) = (3 * n)%nat)
  /\ forall t, t ∈ triangles (push6 fs a b c d e f)
               <-> t ∈ triangles fs \/ t = (a, b, c) \/ t = (d, e, f).
Proof.
  intros [n Hn]. split.
  - exists (n + 2)%nat. unfold push6. rewrite length_app. simpl. lia.
  - intros t. unfold push6. rewrite (triangles_app n) by exact Hn. simpl.
    rewrite elem_of_app, !elem_of_cons, elem_of_nil. tauto.
Qed.

(** A loop whose body appends whole triangles: the triangles at the end
    are those at the start and those of each round. *)
Lemma for_upto_triangles (Q : Z -> Z * Z * Z -> Prop) n
    (body : list Z -> Z -> list Z) (fs0 : list Z) :
  (exists m : nat, length fs0 = (3 * m)%nat) ->
  (forall fs i, 0 <= i < n ->
     (exists m : nat, length fs = (3 * m)%nat) ->
     (exists m : nat, length (body fs i) = (3 * m)%nat)
     /\ forall t, t ∈ triangles (body fs i) <-> t ∈ triangles fs \/ Q i t) ->
  (exists m : nat, length (for_upto n body fs0) = (3 * m)%nat)
  /\ forall t, t ∈ triangles (for_upto n body fs0)
               <-> t ∈ triangles fs0 \/ exists i, 0 <= i < n /\ Q i t.
Proof.
  intros H0 Hbody.
  destruct (Z_lt_le_dec n 0) as [Hn|Hn].
  { rewrite for_upto_nonpos by lia. split; [exact H0|].
    intros t. split; [auto|]. intros [Ht | (i & Hi & _)]; [exact Ht | lia]. }
  apply (for_upto_ind
           (fun k fs =>
              (exists m : nat, length fs = (3 * m)%nat)
              /\ forall t, t ∈ triangles fs
                           <-> t ∈ triangles fs0 \/ exists i, 0 <= i < k /\ Q i t));
    [exact Hn | |].
  - split; [exact H0|]. intros t. split; [auto|].
    intros [Ht | (i & Hi & _)]; [exact Ht | lia].
  - intros k fs Hk [Hal Hmem]. destruct (Hbody fs k Hk Hal) as [Hal' Hmem'].
    split; [exact Hal'|]. intros t. rewrite Hmem', Hmem. split.
    + intros [[Ht | (i & Hi & HQ)] | HQ]; [auto | right; exists i | right; exists k];
        (split; [lia | assumption]).
    + intros [Ht | (i & Hi & HQ)]; [auto|].
      destruct (Z.eq_dec i k) as [->|Hne]; [right; exact HQ|].
      left. right. exists i. split; [lia | exact HQ].
Qed.

(** The triangles of [build_faces], family by family. *)
Lemma triangles_build_faces (r c : Z) (t : Z * Z * Z) :
  let top := fun i j : Z => i * c + j in
  let bottom := fun i j : Z => r * c + i * c + j in
  t ∈ triangles (build_faces r c) <->
    (exists i j, 0 <= i < r - 1 /\ 0 <= j < c - 1
       /\ (t = (top i j, top i (j + 1), top (i + 1) (j + 1))
           \/ t = (top i j, top (i + 1) (j + 1), top (i + 1) j)))
    \/ (exists j, 0 <= j < c - 1
          /\ (t = (top 0 j, bottom 0 j, bottom 0 (j + 1))
              \/ t = (top 0 j, bottom 0 (j + 1), top 0 (j + 1))))
    \/ (exists j, 0 <= j < c - 1
          /\ (t = (top (r - 1) j, top (r - 1) (j + 1), bottom (r - 1) (j + 1))
              \/ t = (top (r - 1) j, bottom (r - 1) (j + 1), bottom (r - 1) j)))
    \/ (exists i, 0 <= i < r - 1
          /\ (t = (top i 0, bottom i 0, bottom (i + 1) 0)
              \/ t = (top i 0, bottom (i + 1) 0, top (i + 1) 0)))
    \/ (exists i, 0 <= i < r - 1
          /\ (t = (top i (c - 1), top (i + 1) (c - 1), bottom (i + 1) (c - 1))
              \/ t = (top i (c - 1), bottom (i + 1) (c - 1), bottom i (c - 1))))
    \/ (exists i j, 0 <= i < r - 1 /\ 0 <= j < c - 1
          /\ (t = (bottom i j, bottom (i + 1) (j + 1), bottom i (j + 1))
              \/ t = (bottom i j, bottom (i + 1) j, bottom (i + 1) (j + 1)))).
Proof.
  intros top bottom. unfold build_faces. cbv zeta.
  assert (Hnil : exists m : nat, length (@nil Z) = (3 * m)%nat) by (exists 0%nat; reflexivity).
  (* top quads *)
  match goal with |- context [for_upto (r - 1) ?b []] =>
    destruct (for_upto_triangles
                (fun i t => exists j, 0 <= j < c - 1
                   /\ (t = (top i j, top i (j + 1), top (i + 1) (j + 1))
                       \/ t = (top i j, top (i + 1) (j + 1), top (i + 1) j)))
                (r - 1) b [] Hnil) as [Hal1 Hm1];
    [| generalize dependent (for_upto (r - 1) b []); intros f1 Hal1 Hm1]
  end.
  { intros fs i Hi Hal.
    apply (for_upto_triangles
             (fun j t => t = (top i j, top i (j + 1), top (i + 1) (j + 1))
                         \/ t = (top i j, top (i + 1) (j + 1), top (i + 1) j)));
      [exact Hal|].
    intros fs' j Hj Hal'. apply triangles_push6. exact Hal'. }
  (* row 0 *)
  match goal with |- context [for_upto (c - 1) ?b f1] =>
    destruct (for_upto_triangles
                (fun j t => t = (top 0 j, bottom 0 j, bottom 0 (j + 1))
                            \/ t = (top 0 j, bottom 0 (j + 1), top 0 (j + 1)))
                (c - 1) b f1 Hal1) as [Hal2 Hm2];
    [| generalize dependent (for_upto (c - 1) b f1); intros f2 Hal2 Hm2]
  end.
  { intros fs j Hj Hal. apply triangles_push6. exact Hal. }
  (* row rows1 - 1 *)
  match goal with |- context [for_upto (c - 1) ?b f2] =>
    destruct (for_upto_triangles
                (fun j t => t = (top (r - 1) j, top (r - 1) (j + 1), bottom (r - 1) (j + 1))
                            \/ t = (top (r - 1) j, bottom (r - 1) (j + 1), bottom (r - 1) j))
                (c - 1) b f2 Hal2) as [Hal3 Hm3];
    [| generalize dependent (for_upto (c - 1) b f2); intros f3 Hal3 Hm3]
  end.
  { intros fs j Hj Hal. apply triangles_push6. exact Hal. }
  (* column 0 *)
  match goal with |- context [for_upto (r - 1) ?b f3] =>
    destruct (for_upto_triangles
                (fun i t => t = (top i 0, bottom i 0, bottom (i + 1) 0)
                            \/ t = (top i 0, bottom (i + 1) 0, top (i + 1) 0))
                (r - 1) b f3 Hal3) as [Hal4 Hm4];
    [| generalize dependent (for_upto (r - 1) b f3); intros f4 Hal4 Hm4]
  end.
  { intros fs i Hi Hal. apply triangles_push6. exact Hal. }
  (* column cols1 - 1 *)
  match goal with |- context [for_upto (r - 1) ?b f4] =>
    destruct (for_upto_triangles
                (fun i t => t = (top i (c - 1), top (i + 1) (c - 1), bottom (i + 1) (c - 1))
                            \/ t = (top i (c - 1), bottom (i + 1) (c - 1), bottom i (c - 1)))
                (r - 1) b f4 Hal4) as [Hal5 Hm5];
    [| generalize dependent (for_upto (r - 1) b f4); intros f5 Hal5 Hm5]
  end.
  { intros fs i Hi Hal. apply triangles_push6. exact Hal. }
  (* bottom quads *)
  match goal with |- context [for_upto (r - 1) ?b f5] =>
    destruct (for_upto_triangles
                (fun i t => exists j, 0 <= j < c - 1
                   /\ (t = (bottom i j, bottom (i + 1) (j + 1), bottom i (j + 1))
                       \/ t = (bottom i j, bottom (i + 1) j, bottom (i + 1) (j + 1))))
                (r - 1) b f5 Hal5) as [Hal6 Hm6];
    [| generalize dependent (for_upto (r - 1) b f5); intros f6 Hal6 Hm6]
  end.
  { intros fs i Hi Hal.
    apply (for_upto_triangles
             (fun j t => t = (bottom i j, bottom (i + 1) (j + 1), bottom i (j + 1))
                         \/ t = (bottom i j, bottom (i + 1) j, bottom (i + 1) (j + 1))));
      [exact Hal|].
    intros fs' j Hj Hal'. apply triangles_push6. exact Hal'. }
  rewrite Hm6, Hm5, Hm4, Hm3, Hm2, Hm1. simpl triangles. rewrite elem_of_nil.
  split.
  - intros [[[[[[[] | (i & Hi & j & Hj & Ht)] | H] | H] | H] | H] | (i & Hi & j & Hj & Ht)].
    + left. exists i, j. auto.
    + right; left. exact H.
    + right; right; left. exact H.
    + right; right; right; left. exact H.
    + right; right; right; right; left. exact H.
    + right; right; right; right; right. exists i, j. auto.
  - intros [(i & j & Hi & Hj & Ht) | [H | [H | [H | [H | (i & j & Hi & Hj & Ht)]]]]].
    + do 5 left. right. exists i. split; [exact Hi|]. exists j. auto.
    + do 4 left. right. exact H.
    + do 3 left. right. exact H.
    + do 2 left. right. exact H.
    + left. right. exact H.
    + right. exists i. split; [exact Hi|]. exists j. auto.
Qed.

(** Decimation never leaves fewer than two rows (columns) of a grid that
    has two. *)
Lemma calcSteps_keeps_two (r c m : Z) :
  2 <= r -> 1 <= c -> 100 <= m <= 1200 ->
  2 <= ceil_div r (stepY (calcSteps r c m))
  /\ (2 <= c -> 2 <= ceil_div c (stepX (calcSteps r c m))).
Proof.
  intros Hr Hc Hm. rewrite calcSteps_eq. cbv zeta. cbn [stepY stepX].
  set (sy := Z.max 1 (ceil_div r m)). set (sx := Z.max 1 (ceil_div c m)).
  pose proof (ceil_div_spec r m ltac:(lia)) as Hrm.
  pose proof (ceil_div_spec c m ltac:(lia)) as Hcm.
  assert (Hsy : 1 <= sy /\ (sy = 1 \/ sy = ceil_div r m)) by (unfold sy; lia).
  assert (Hsx : 1 <= sx /\ (sx = 1 \/ sx = ceil_div c m)) by (unfold sx; lia).
  pose proof (ceil_div_spec r sy ltac:(lia)) as Hr0.
  pose proof (ceil_div_spec c sx ltac:(lia)) as Hc0.
  assert (Hr0m : ceil_div r sy <= m) by (unfold sy in *; nia).
  assert (Hc0m : ceil_div c sx <= m) by (unfold sx in *; nia).
  assert (Hr0p : 1 <= ceil_div r sy) by (apply ceil_div_pos; lia).
  assert (Hc0p : 1 <= ceil_div c sx) by (apply ceil_div_pos; lia).
  destruct (ceil_div r sy * ceil_div c sx * 2 >? MAX_VERTICES) eqn:Hover.
  - apply Z.gtb_lt in Hover. unfold MAX_VERTICES in Hover.
    assert (H625r : 625 <= ceil_div r sy) by nia.
    assert (H625c : 625 <= ceil_div c sx) by nia.
    pose proof (ceil_div_spec r (sy * 21) ltac:(lia)) as Hr1.
    pose proof (ceil_div_spec c (sx * 21) ltac:(lia)) as Hc1.
    split; [nia | intros _; nia].
  - rewrite !Z.mul_1_r. split.
    + destruct Hsy as [_ [E | E]]; [rewrite E in *; nia|]. nia.
    + intros Hc2. destruct Hsx as [_ [E | E]]; [rewrite E in *; nia|]. nia.
Qed.

Lemma sol_counts_two lats lons Zg rows cols exag base maxDim :
  2 <= rows -> 2 <= cols ->
  let sol := buildSolidGeometry lats lons Zg (rows, cols) exag base maxDim in
  2 <= rows1 sol /\ 2 <= cols1 sol.
Proof.
  intros Hrows Hcols sol.
  destruct (sol_counts lats lons Zg rows cols exag base maxDim) as [Hr Hc].
  fold sol in Hr, Hc. rewrite Hr, Hc.
  pose proof (clamp_Z_bounds maxDim 100 1200 ltac:(lia)) as Hm.
  change (clamp maxDim 100 1200) with (clamp maxDim 100 MAX_DIM) in Hm.
  destruct (calcSteps_keeps_two rows cols (clamp maxDim 100 MAX_DIM)
              Hrows ltac:(lia) Hm) as [H1 H2].
  split; [exact H1 | apply H2; exact Hcols].
Qed.

(** X13: on a grid with at least one row and one column no triangle of
    the index buffer is degenerate: its three vertex numbers differ. *)
Theorem triangles_not_degenerate
    (lats lons Zg : list num) (rows cols : Z) (exag base : num) (maxDim : Z) :
  1 <= rows -> 1 <= cols ->
  let sol := buildSolidGeometry lats lons Zg (rows, cols) exag base maxDim in
  forall a b c : Z,
    (a, b, c) ∈ triangles (index (geom sol)) -> a <> b /\ b <> c /\ a <> c.
Proof.
  intros Hrows Hcols sol a b c Ht.
  destruct (sol_counts_pos lats lons Zg rows cols exag base maxDim Hrows Hcols)
    as [Hr1 Hc1].
  fold sol in Hr1, Hc1.
  assert (Hidx : index (geom sol) = build_faces (rows1 sol) (cols1 sol))
    by reflexivity.
  rewrite Hidx in Ht. apply triangles_build_faces in Ht. cbv zeta in Ht.
  set (r := rows1 sol) in *. set (cc := cols1 sol) in *.
  assert (Hrc : 1 <= r * cc) by nia.
  destruct Ht as [(i & j & Hi & Hj & [E | E]) | [(j & Hj & [E | E]) |
                 [(j & Hj & [E | E]) | [(i & Hi & [E | E]) |
                 [(i & Hi & [E | E]) | (i & j & Hi & Hj & [E | E])]]]]];
    injection E as -> -> ->; repeat split; lia.
Qed.

Lemma triangles_not_degenerate_witness :
  let sol :=
    buildSolidGeometry test2_lats test2_lons test2_Z (2, 2) (Fin 1) (Fin 10) 999 in
  0 <> 1 /\ 1 <> 3 /\ 0 <> 3.
Proof.
  intros sol.
  apply (triangles_not_degenerate test2_lats test2_lons test2_Z 2 2 (Fin 1) (Fin 10) 999
           ltac:(lia) ltac:(lia) 0 1 3).
  vm_compute. apply list_elem_of_here.
Defined.

(** X14: as soon as the grid has two rows and two columns the triangles
    are not wound consistently.  The side strip of column 0
    runs along the edge from top vertex (1, 0) to top vertex (0, 0) in the
    same direction as the top surface does, and the strip of the last
    column runs along the edge from top vertex (0, cols1 - 1) to top vertex
    (1, cols1 - 1) as the top surface does: each of these directed edges
    belongs to two triangles. *)
Theorem side_strips_winding
    (lats lons Zg : list num) (rows cols : Z) (exag base : num) (maxDim : Z) :
  2 <= rows -> 2 <= cols ->
  let sol := buildSolidGeometry lats lons Zg (rows, cols) exag base maxDim in
  let r := rows1 sol in
  let c := cols1 sol in
  let tris := triangles (index (geom sol)) in
  let top := fun i j : Z => i * c + j in
  let bottom := fun i j : Z => r * c + i * c + j in
  let top_first := (top 0 0, top 1 1, top 1 0) in
  let west := (top 0 0, bottom 1 0, top 1 0) in
  let top_last := (top 0 (c - 2), top 0 (c - 1), top 1 (c - 1)) in
  let east := (top 0 (c - 1), top 1 (c - 1), bottom 1 (c - 1)) in
  (top_first ∈ tris /\ west ∈ tris /\ top_first <> west
   /\ (top 1 0, top 0 0) ∈ directed_edges top_first
   /\ (top 1 0, top 0 0) ∈ directed_edges west)
  /\ (top_last ∈ tris /\ east ∈ tris /\ top_last <> east
      /\ (top 0 (c - 1), top 1 (c - 1)) ∈ directed_edges top_last
      /\ (top 0 (c - 1), top 1 (c - 1)) ∈ directed_edges east).
Proof.
  intros Hrows Hcols sol r c tris top bottom top_first west top_last east.
  destruct (sol_counts_two lats lons Zg rows cols exag base maxDim Hrows Hcols)
    as [Hr Hc].
  fold sol in Hr, Hc. fold r in Hr. fold c in Hc.
  assert (Hidx : index (geom sol) = build_faces r c) by reflexivity.
  assert (Hrc : 4 <= r * c) by nia.
  unfold tris. rewrite Hidx.
  split; (split; [|split; [|split; [|split]]]).
  - apply triangles_build_faces. left. exists 0, 0.
    split; [lia|]. split; [lia|]. right. reflexivity.
  - apply triangles_build_faces. do 3 right. left. exists 0.
    split; [lia|]. right. reflexivity.
  - unfold top_first, west, top, bottom. intros [= E]. lia.
  - unfold top_first, directed_edges. rewrite !elem_of_cons. auto.
  - unfold west, directed_edges. rewrite !elem_of_cons. auto.
  - apply triangles_build_faces. left. exists 0, (c - 2).
    split; [lia|]. split; [lia|]. left. unfold top_last, top.
    repeat f_equal; lia.
  - apply triangles_build_faces. do 4 right. left. exists 0.
    split; [lia|]. left. reflexivity.
  - unfold top_last, east, top, bottom. intros [= E1 E2 E3]. lia.
  - unfold top_last, directed_edges. rewrite !elem_of_cons. auto.
  - unfold east, directed_edges. rewrite !elem_of_cons. auto.
Qed.

Lemma side_strips_winding_witness :
  let sol :=
    buildSolidGeometry test3_lats test3_lons test3_Z (3, 3) (Fin 1) (Fin 100) 999 in
  (0, 4, 3) ∈ triangles (index (geom sol))
  /\ (0, 12, 3) ∈ triangles (index (geom sol)).
Proof.
  intros sol.
  destruct (side_strips_winding test3_lats test3_lons test3_Z 3 3 (Fin 1) (Fin 100) 999
              ltac:(lia) ltac:(lia))
    as [(H1 & H2 & _) _].
  split; [exact H1 | exact H2].
Defined.

(** *** No open edge *)

(** On a decimated grid of at least two rows and two columns every side
    of every triangle is also a side of another triangle. *)
Section Closed.
Variables r c : Z.
Hypothesis Hr : 2 <= r.
Hypothesis Hc : 2 <= c.

Let top (i j : Z) : Z := i * c + j.
Let bottom (i j : Z) : Z := r * c + i * c + j.
Let tris := triangles (build_faces r c).

(** [t] has a neighbour along its side from [u] to [v]. *)
Let has_mate (t : Z * Z * Z) (u v : Z) : Prop :=
  exists t', t' ∈ tris /\ t' <> t
             /\ ((v, u) ∈ directed_edges t' \/ (u, v) ∈ directed_edges t').

Let Hrc : 4 <= r * c.
Proof. nia. Qed.

Ltac edge_done :=
  pose proof Hrc;
  split;
  [ let E := fresh in intros E; injection E; intros; lia
  | unfold directed_edges; rewrite !elem_of_cons, elem_of_nil;
    first [ left; left; f_equal; lia
          | left; right; left; f_equal; lia
          | left; right; right; left; f_equal; lia
          | right; left; f_equal; lia
          | right; right; left; f_equal; lia
          | right; right; right; left; f_equal; lia ] ].

Ltac in_family n :=
  apply triangles_build_faces; cbv zeta;
  lazymatch n with
  | 1%nat => left
  | 2%nat => right; left
  | 3%nat => do 2 right; left
  | 4%nat => do 3 right; left
  | 5%nat => do 4 right; left
  | 6%nat => do 5 right
  end.

Ltac cell_mate n i j which t :=
  unfold has_mate, tris, top, bottom in *; exists t;
  split; [in_family n; exists i, j; split; [lia|]; split; [lia|]; which;
          repeat f_equal; lia
         | edge_done].

Ltac strip_mate n i which t :=
  unfold has_mate, tris, top, bottom in *; exists t;
  split; [in_family n; exists i; split; [lia|]; which; repeat f_equal; lia
         | edge_done].

Ltac top1 i j :=
  cell_mate 1%nat i j ltac:(left) (i * c + j, i * c + (j + 1), (i + 1) * c + (j + 1)).
Ltac top2 i j :=
  cell_mate 1%nat i j ltac:(right) (i * c + j, (i + 1) * c + (j + 1), (i + 1) * c + j).
Ltac row0_1 j :=
  strip_mate 2%nat j ltac:(left)
    (0 * c + j, r * c + 0 * c + j, r * c + 0 * c + (j + 1)).
Ltac row0_2 j :=
  strip_mate 2%nat j ltac:(right)
    (0 * c + j, r * c + 0 * c + (j + 1), 0 * c + (j + 1)).
Ltac rowN_1 j :=
  strip_mate 3%nat j ltac:(left)
    ((r - 1) * c + j, (r - 1) * c + (j + 1), r * c + (r - 1) * c + (j + 1)).
Ltac rowN_2 j :=
  strip_mate 3%nat j ltac:(right)
    ((r - 1) * c + j, r * c + (r - 1) * c + (j + 1), r * c + (r - 1) * c + j).
Ltac col0_1 i :=
  strip_mate 4%nat i ltac:(left)
    (i * c + 0, r * c + i * c + 0, r * c + (i + 1) * c + 0).
Ltac col0_2 i :=
  strip_mate 4%nat i ltac:(right)
    (i * c + 0, r * c + (i + 1) * c + 0, (i + 1) * c + 0).
Ltac colN_1 i :=
  strip_mate 5%nat i ltac:(left)
    (i * c + (c - 1), (i + 1) * c + (c - 1), r * c + (i + 1) * c + (c - 1)).
Ltac colN_2 i :=
  strip_mate 5%nat i ltac:(right)
    (i * c + (c - 1), r * c + (i + 1) * c + (c - 1), r * c + i * c + (c - 1)).
Ltac bot1 i j :=
  cell_mate 6%nat i j ltac:(left)
    (r * c + i * c + j, r * c + (i + 1) * c + (j + 1), r * c + i * c + (j + 1)).
Ltac bot2 i j :=
  cell_mate 6%nat i j ltac:(right)
    (r * c + i * c + j, r * c + (i + 1) * c + j, r * c + (i + 1) * c + (j + 1)).

Ltac sides H :=
  unfold directed_edges in H; rewrite !elem_of_cons, elem_of_nil in H;
  destruct H as [H | [H | [H | []]]]; injection H as -> ->.

Lemma closed_top1 i j u v :
  0 <= i < r - 1 -> 0 <= j < c - 1 ->
  (u, v) ∈ directed_edges (top i j, top i (j + 1), top (i + 1) (j + 1)) ->
  has_mate (top i j, top i (j + 1), top (i + 1) (j + 1)) u v.
Proof.
  intros Hi Hj H. sides H.
  - destruct (Z.eq_dec i 0) as [->|]; [row0_2 j | top2 (i - 1) j].
  - destruct (Z.eq_dec (j + 1) (c - 1)); [colN_1 i | top2 i (j + 1)].
  - top2 i j.
Qed.

Lemma closed_top2 i j u v :
  0 <= i < r - 1 -> 0 <= j < c - 1 ->
  (u, v) ∈ directed_edges (top i j, top (i + 1) (j + 1), top (i + 1) j) ->
  has_mate (top i j, top (i + 1) (j + 1), top (i + 1) j) u v.
Proof.
  intros Hi Hj H. sides H.
  - top1 i j.
  - destruct (Z.eq_dec (i + 1) (r - 1)); [rowN_1 j | top1 (i + 1) j].
  - destruct (Z.eq_dec j 0) as [->|]; [col0_2 i | top1 i (j - 1)].
Qed.

Lemma closed_row0_1 j u v :
  0 <= j < c - 1 ->
  (u, v) ∈ directed_edges (top 0 j, bottom 0 j, bottom 0 (j + 1)) ->
  has_mate (top 0 j, bottom 0 j, bottom 0 (j + 1)) u v.
Proof.
  intros Hj H. sides H.
  - destruct (Z.eq_dec j 0) as [->|]; [col0_1 0 | row0_2 (j - 1)].
  - bot1 0 j.
  - row0_2 j.
Qed.

Lemma closed_row0_2 j u v :
  0 <= j < c - 1 ->
  (u, v) ∈ directed_edges (top 0 j, bottom 0 (j + 1), top 0 (j + 1)) ->
  has_mate (top 0 j, bottom 0 (j + 1), top 0 (j + 1)) u v.
Proof.
  intros Hj H. sides H.
  - row0_1 j.
  - destruct (Z.eq_dec (j + 1) (c - 1)); [colN_2 0 | row0_1 (j + 1)].
  - top1 0 j.
Qed.

Lemma closed_rowN_1 j u v :
  0 <= j < c - 1 ->
  (u, v) ∈ directed_edges (top (r - 1) j, top (r - 1) (j + 1), bottom (r - 1) (j + 1)) ->
  has_mate (top (r - 1) j, top (r - 1) (j + 1), bottom (r - 1) (j + 1)) u v.
Proof.
  intros Hj H. sides H.
  - top2 (r - 2) j.
  - destruct (Z.eq_dec (j + 1) (c - 1)); [colN_1 (r - 2) | rowN_2 (j + 1)].
  - rowN_2 j.
Qed.

Lemma closed_rowN_2 j u v :
  0 <= j < c - 1 ->
  (u, v) ∈ directed_edges (top (r - 1) j, bottom (r - 1) (j + 1), bottom (r - 1) j) ->
  has_mate (top (r - 1) j, bottom (r - 1) (j + 1), bottom (r - 1) j) u v.
Proof.
  intros Hj H. sides H.
  - rowN_1 j.
  - bot2 (r - 2) j.
  - destruct (Z.eq_dec j 0) as [->|]; [col0_2 (r - 2) | rowN_1 (j - 1)].
Qed.

Lemma closed_col0_1 i u v :
  0 <= i < r - 1 ->
  (u, v) ∈ directed_edges (top i 0, bottom i 0, bottom (i + 1) 0) ->
  has_mate (top i 0, bottom i 0, bottom (i + 1) 0) u v.
Proof.
  intros Hi H. sides H.
  - destruct (Z.eq_dec i 0) as [->|]; [row0_1 0 | col0_2 (i - 1)].
  - bot2 i 0.
  - col0_2 i.
Qed.

Lemma closed_col0_2 i u v :
  0 <= i < r - 1 ->
  (u, v) ∈ directed_edges (top i 0, bottom (i + 1) 0, top (i + 1) 0) ->
  has_mate (top i 0, bottom (i + 1) 0, top (i + 1) 0) u v.
Proof.
  intros Hi H. sides H.
  - col0_1 i.
  - destruct (Z.eq_dec (i + 1) (r - 1)); [rowN_2 0 | col0_1 (i + 1)].
  - top2 i 0.
Qed.

Lemma closed_colN_1 i u v :
  0 <= i < r - 1 ->
  (u, v) ∈ directed_edges (top i (c - 1), top (i + 1) (c - 1), bottom (i + 1) (c - 1)) ->
  has_mate (top i (c - 1), top (i + 1) (c - 1), bottom (i + 1) (c - 1)) u v.
Proof.
  intros Hi H. sides H.
  - top1 i (c - 2).
  - destruct (Z.eq_dec (i + 1) (r - 1)); [rowN_1 (c - 2) | colN_2 (i + 1)].
  - colN_2 i.
Qed.

Lemma closed_colN_2 i u v :
  0 <= i < r - 1 ->
  (u, v) ∈ directed_edges (top i (c - 1), bottom (i + 1) (c - 1), bottom i (c - 1)) ->
  has_mate (top i (c - 1), bottom (i + 1) (c - 1), bottom i (c - 1)) u v.
Proof.
  intros Hi H. sides H.
  - colN_1 i.
  - bot1 i (c - 2).
  - destruct (Z.eq_dec i 0) as [->|]; [row0_2 (c - 2) | colN_1 (i - 1)].
Qed.

Lemma closed_bot1 i j u v :
  0 <= i < r - 1 -> 0 <= j < c - 1 ->
  (u, v) ∈ directed_edges (bottom i j, bottom (i + 1) (j + 1), bottom i (j + 1)) ->
  has_mate (bottom i j, bottom (i + 1) (j + 1), bottom i (j + 1)) u v.
Proof.
  intros Hi Hj H. sides H.
  - bot2 i j.
  - destruct (Z.eq_dec (j + 1) (c - 1)); [colN_2 i | bot2 i (j + 1)].
  - destruct (Z.eq_dec i 0) as [->|]; [row0_1 j | bot2 (i - 1) j].
Qed.

Lemma closed_bot2 i j u v :
  0 <= i < r - 1 -> 0 <= j < c - 1 ->
  (u, v) ∈ directed_edges (bottom i j, bottom (i + 1) j, bottom (i + 1) (j + 1)) ->
  has_mate (bottom i j, bottom (i + 1) j, bottom (i + 1) (j + 1)) u v.
Proof.
  intros Hi Hj H. sides H.
  - destruct (Z.eq_dec j 0) as [->|]; [col0_1 i | bot1 i (j - 1)].
  - destruct (Z.eq_dec (i + 1) (r - 1)); [rowN_2 j | bot1 (i + 1) j].
  - bot1 i j.
Qed.

Lemma build_faces_closed t u v :
  t ∈ triangles (build_faces r c) ->
  (u, v) ∈ directed_edges t ->
  exists t', t' ∈ triangles (build_faces r c) /\ t' <> t
             /\ ((v, u) ∈ directed_edges t' \/ (u, v) ∈ directed_edges t').
Proof.
  intros Ht Huv. apply triangles_build_faces in Ht. cbv zeta in Ht.
  destruct Ht as [(i & j & Hi & Hj & [-> | ->]) | [(j & Hj & [-> | ->]) |
                 [(j & Hj & [-> | ->]) | [(i & Hi & [-> | ->]) |
                 [(i & Hi & [-> | ->]) | (i & j & Hi & Hj & [-> | ->])]]]]].
  - exact (closed_top1 i j u v Hi Hj Huv).
  - exact (closed_top2 i j u v Hi Hj Huv).
  - exact (closed_row0_1 j u v Hj Huv).
  - exact (closed_row0_2 j u v Hj Huv).
  - exact (closed_rowN_1 j u v Hj Huv).
  - exact (closed_rowN_2 j u v Hj Huv).
  - exact (closed_col0_1 i u v Hi Huv).
  - exact (closed_col0_2 i u v Hi Huv).
  - exact (closed_colN_1 i u v Hi Huv).
  - exact (closed_colN_2 i u v Hi Huv).
  - exact (closed_bot1 i j u v Hi Hj Huv).
  - exact (closed_bot2 i j u v Hi Hj Huv).
Qed.
End Closed.

(** X15: on a grid of at least two rows and two columns the mesh has no
    open edge: every side of every triangle of the index buffer is also a
    side of another triangle; and the decimated grid still has at least
    two rows and two columns. *)
Theorem mesh_has_no_open_edge
    (lats lons Zg : list num) (rows cols : Z) (exag base : num) (maxDim : Z) :
  2 <= rows -> 2 <= cols ->
  let sol := buildSolidGeometry lats lons Zg (rows, cols) exag base maxDim in
  let tris := triangles (index (geom sol)) in
  2 <= rows1 sol /\ 2 <= cols1 sol
  /\ forall (t : Z * Z * Z) (u v : Z),
       t ∈ tris -> (u, v) ∈ directed_edges t ->
       exists t', t' ∈ tris /\ t' <> t
                  /\ ((v, u) ∈ directed_edges t' \/ (u, v) ∈ directed_edges t').
Proof.
  intros Hrows Hcols sol tris.
  destruct (sol_counts_two lats lons Zg rows cols exag base maxDim Hrows Hcols)
    as [Hr Hc].
  fold sol in Hr, Hc.
  split; [exact Hr|]. split; [exact Hc|].
  intros t u v Ht Huv.
  exact (build_faces_closed (rows1 sol) (cols1 sol) Hr Hc t u v Ht Huv).
Qed.

Lemma mesh_has_no_open_edge_witness :
  let sol :=
    buildSolidGeometry test3_lats test3_lons test3_Z (3, 3) (Fin 1) (Fin 100) 999 in
  exists t', t' ∈ triangles (index (geom sol)) /\ t' <> (0, 1, 4)
             /\ ((1, 0) ∈ directed_edges t' \/ (0, 1) ∈ directed_edges t').
Proof.
  intros sol.
  destruct (mesh_has_no_open_edge test3_lats test3_lons test3_Z 3 3 (Fin 1) (Fin 100) 999
              ltac:(lia) ltac:(lia)) as (_ & _ & H).
  apply (H (0, 1, 4) 0 1).
  - vm_compute. apply list_elem_of_here.
  - vm_compute. apply list_elem_of_here.
Defined.

(** ** Export *)

Lemma no_dot_to_end_true (ext : list Ascii.ascii) :
  ext <> [] -> dot ∉ ext -> no_dot_to_end ext = true.
Proof.
  intros Hne Hnd. destruct ext as [|ch ext]; [contradiction|].
  unfold no_dot_to_end. apply forallb_forall. intros x Hx.
  destruct (Ascii.eqb_spec x dot) as [->|]; [|reflexivity].
  exfalso. apply Hnd. apply list_elem_of_In. exact Hx.
Qed.

Lemma no_dot_to_end_false (s : list Ascii.ascii) :
  dot ∈ s -> no_dot_to_end s = false.
Proof.
  intros Hd. destruct s as [|ch s]; [reflexivity|].
  unfold no_dot_to_end. apply not_true_is_false. intros Hall.
  rewrite forallb_forall in Hall. apply list_elem_of_In in Hd.
  specialize (Hall dot Hd). rewrite Ascii.eqb_refl in Hall. discriminate.
Qed.

Lemma strip_extension_ext (stem ext : list Ascii.ascii) :
  ext <> [] -> dot ∉ ext -> strip_extension (stem ++ dot :: ext) = stem.
Proof.
  intros Hne Hnd. induction stem as [|ch stem IH]; cbn [app strip_extension].
  - rewrite Ascii.eqb_refl, (no_dot_to_end_true ext Hne Hnd). reflexivity.
  - rewrite (no_dot_to_end_false (stem ++ dot :: ext)), andb_false_r, IH;
      [reflexivity|].
    apply elem_of_app. right. apply list_elem_of_here.
Qed.

Lemma strip_extension_none (f : list Ascii.ascii) :
  (forall stem ext, f = stem ++ dot :: ext -> ext = [] \/ dot ∈ ext) ->
  strip_extension f = f.
Proof.
  induction f as [|ch f IH]; intros Hno; [reflexivity|]. cbn [strip_extension].
  destruct (Ascii.eqb_spec ch dot) as [->|Hch]; cbn [andb].
  - destruct (Hno [] f eq_refl) as [-> | Hd]; [reflexivity|].
    rewrite (no_dot_to_end_false f Hd). f_equal. apply IH.
    intros stem ext ->. apply (Hno (dot :: stem) ext). reflexivity.
  - f_equal. apply IH. intros stem ext ->. apply (Hno (ch :: stem) ext). reflexivity.
Qed.

(** X16: the download name.  A file name [stem.ext] (the extension not
    empty and without a dot, the stem whatever it is, dots included) gives
    [stem_solid_<unit>.stl]; a name without such an extension (no dot, or
    nothing after the last dot) is kept whole; without a file name the
    stem is ["terrain"]. *)
Theorem download_name_spec (unit : ExportUnit) :
  (forall stem ext, ext <> [] -> dot ∉ ext ->
     download_name (stem ++ dot :: ext) unit
     = stem ++ str "_solid_" ++ unit_name unit ++ str ".stl")
  /\ (forall f, f <> [] ->
        (forall stem ext, f = stem ++ dot :: ext -> ext = [] \/ dot ∈ ext) ->
        download_name f unit = f ++ str "_solid_" ++ unit_name unit ++ str ".stl")
  /\ download_name [] unit
     = str "terrain" ++ str "_solid_" ++ unit_name unit ++ str ".stl".
Proof.
  split; [|split].
  - intros stem ext Hne Hnd. unfold download_name.
    rewrite (strip_extension_ext stem ext Hne Hnd).
    destruct (stem ++ dot :: ext) eqn:E; [|reflexivity].
    destruct stem; discriminate.
  - intros f Hf Hno. unfold download_name.
    rewrite (strip_extension_none f Hno). destruct f; [contradiction | reflexivity].
  - reflexivity.
Qed.

Lemma download_name_spec_witness :
  download_name (str "gebco.2024.nc") Unit_mm = str "gebco.2024_solid_mm.stl"
  /\ download_name (str "gebco") Unit_m = str "gebco_solid_m.stl".
Proof.
  destruct (download_name_spec Unit_mm) as (Hext & _ & _).
  destruct (download_name_spec Unit_m) as (_ & Hnone & _).
  split.
  - apply (Hext (str "gebco.2024") (str "nc")); [discriminate|].
    intros Hin. repeat (apply elem_of_cons in Hin as [Hin|Hin]; [discriminate|]).
    inversion Hin.
  - apply (Hnone (str "gebco")); [discriminate|].
    intros stem ext E. exfalso.
    assert (Hin : dot ∈ str "gebco").
    { rewrite E. apply elem_of_app. right. apply list_elem_of_here. }
    repeat (apply elem_of_cons in Hin as [Hin|Hin]; [discriminate|]).
    inversion Hin.
Defined.

(** ** The displayed elevation range *)

Lemma range_stride_pos (Zraw : list num) : 1 <= range_stride Zraw.
Proof. unfold range_stride. cbn [Math_max MinMax_Z]. lia. Qed.

Lemma range_rounds_le (Zraw : list num) :
  0 <= ceil_div (Z.of_nat (length Zraw)) (range_stride Zraw)
    <= Z.of_nat (length Zraw).
Proof.
  pose proof (range_stride_pos Zraw) as Hs.
  pose proof (ceil_div_spec (Z.of_nat (length Zraw)) (range_stride Zraw) ltac:(lia)).
  nia.
Qed.

(** One round of the loop, from the [k]-th value of the loop variable. *)
Lemma range_loop_round (Zraw : list num) (fuel : nat) (k : Z) (minV maxV : num) :
  0 <= k < ceil_div (Z.of_nat (length Zraw)) (range_stride Zraw) ->
  range_loop (Datatypes.S fuel) Zraw (k * range_stride Zraw) (minV, maxV)
  = range_loop fuel Zraw ((k + 1) * range_stride Zraw)
      (let v := get Zraw (k * range_stride Zraw) in
       (if num_lt v minV then v else minV, if num_gt v maxV then v else maxV)).
Proof.
  intros Hk. pose proof (range_stride_pos Zraw) as Hs.
  pose proof (ceil_div_spec (Z.of_nat (length Zraw)) (range_stride Zraw) ltac:(lia)) as Hc.
  cbn [range_loop].
  destruct (Z.ltb_spec (k * range_stride Zraw) (Z.of_nat (length Zraw))); [|nia].
  replace ((k + 1) * range_stride Zraw)
    with (k * range_stride Zraw + range_stride Zraw) by lia.
  reflexivity.
Qed.

Lemma range_loop_exit (Zraw : list num) (fuel : nat) (st : num * num) :
  let n := ceil_div (Z.of_nat (length Zraw)) (range_stride Zraw) in
  range_loop (Datatypes.S fuel) Zraw (n * range_stride Zraw) st = st.
Proof.
  intros n. subst n. pose proof (range_stride_pos Zraw) as Hs.
  pose proof (ceil_div_spec (Z.of_nat (length Zraw)) (range_stride Zraw) ltac:(lia)) as Hc.
  cbn [range_loop].
  destruct (Z.ltb_spec (ceil_div (Z.of_nat (length Zraw)) (range_stride Zraw)
                        * range_stride Zraw) (Z.of_nat (length Zraw))); [lia|].
  reflexivity.
Qed.

(** The invariant rule of the loop: [P k st] reads "[st] is the state when
    the loop variable is [k] strides". *)
Lemma range_loop_ind (P : Z -> num * num -> Prop) (Zraw : list num) :
  let s := range_stride Zraw in
  let n := ceil_div (Z.of_nat (length Zraw)) s in
  (forall k minV maxV, 0 <= k < n -> P k (minV, maxV) ->
     P (k + 1) (let v := get Zraw (k * s) in
                (if num_lt v minV then v else minV,
                 if num_gt v maxV then v else maxV))) ->
  forall (fuel : nat) (k : Z) (st : num * num),
    0 <= k <= n -> (Z.to_nat (n - k) < fuel)%nat ->
    P k st -> P n (range_loop fuel Zraw (k * s) st).
Proof.
  intros s n Hstep. induction fuel as [|fuel IH]; intros k st Hk Hfuel HP; [lia|].
  destruct (Z.eq_dec k n) as [->|Hne].
  - subst s n. rewrite range_loop_exit. exact HP.
  - destruct st as [minV maxV]. subst s n.
    rewrite range_loop_round by lia.
    apply IH; [lia | lia |]. apply Hstep; [lia | exact HP].
Qed.

(** The fuel of [elevation_range] is enough: more changes nothing. *)
Lemma range_loop_fuel (Zraw : list num) (fuel : nat) :
  (length Zraw < fuel)%nat ->
  range_loop fuel Zraw 0 (PInf, NInf) = elevation_range Zraw.
Proof.
  intros Hfuel. unfold elevation_range.
  pose proof (range_rounds_le Zraw) as Hn.
  set (n := ceil_div (Z.of_nat (length Zraw)) (range_stride Zraw)) in *.
  assert (Hgen : forall f1 f2 k st, 0 <= k <= n ->
            (Z.to_nat (n - k) < f1)%nat -> (Z.to_nat (n - k) < f2)%nat ->
            range_loop f1 Zraw (k * range_stride Zraw) st
            = range_loop f2 Zraw (k * range_stride Zraw) st).
  { induction f1 as [|f1 IH]; intros f2 k st Hk H1 H2; [lia|].
    destruct f2 as [|f2]; [lia|].
    destruct (Z.eq_dec k n) as [->|Hne].
    - subst n. rewrite !range_loop_exit. reflexivity.
    - destruct st as [minV maxV]. subst n.
      rewrite !range_loop_round by lia. apply IH; lia. }
  apply (Hgen fuel (Datatypes.S (length Zraw)) 0 (PInf, NInf)); lia.
Qed.

Lemma range_rounds_bound (Zraw : list num) :
  ceil_div (Z.of_nat (length Zraw)) (range_stride Zraw) <= 999999.
Proof.
  pose proof (range_stride_pos Zraw) as Hs.
  pose proof (ceil_div_spec (Z.of_nat (length Zraw)) (range_stride Zraw) ltac:(lia)) as Hc.
  revert Hs Hc. unfold range_stride. cbn [Math_max MinMax_Z].
  set (len := Z.of_nat (length Zraw)).
  pose proof (Z.div_mod len 500000 ltac:(lia)) as Hdm.
  pose proof (Z.mod_pos_bound len 500000 ltac:(lia)) as Hmod.
  set (m := len / 500000) in *. intros Hs Hc.
  destruct (Z.le_gt_cases m 1) as [Hm|Hm].
  - rewrite Z.max_l in * by lia. unfold ceil_div in *. rewrite Z.div_1_r in *. lia.
  - rewrite Z.max_r in * by lia.
    set (n := ceil_div len m) in *. nia.
Qed.

(** X18: the displayed elevation range.  On a non-empty array of real
    numbers the loop reads the elements at the multiples of its stride, at
    most 999,999 of them whatever the size of the array, and ends with the
    least and the greatest element it has read.  Up to 999,999 elements
    the stride is 1 and the range is that of the whole array. *)
Theorem elevation_range_spec (Zraw : list num) (val : Z -> R) :
  (forall j, 0 <= j < Z.of_nat (length Zraw) ->
     Zraw !! Z.to_nat j = Some (Fin (val j))) ->
  1 <= Z.of_nat (length Zraw) ->
  let s := range_stride Zraw in
  let n := ceil_div (Z.of_nat (length Zraw)) s in
  1 <= n <= 999999
  /\ exists lo hi : R,
       elevation_range Zraw = (Fin lo, Fin hi)
       /\ (forall q, 0 <= q < n -> (lo <= val (q * s)%Z <= hi)%R)
       /\ (exists q, 0 <= q < n /\ lo = val (q * s))
       /\ (exists q, 0 <= q < n /\ hi = val (q * s))
       /\ (Z.of_nat (length Zraw) < 1000000 ->
           forall j, 0 <= j < Z.of_nat (length Zraw) -> (lo <= val j <= hi)%R).
Proof.
  intros Hval Hlen s n.
  pose proof (range_stride_pos Zraw) as Hs. fold s in Hs.
  pose proof (ceil_div_spec (Z.of_nat (length Zraw)) s ltac:(lia)) as Hc. fold n in Hc.
  pose proof (range_rounds_bound Zraw) as Hb. fold s n in Hb.
  pose proof (range_rounds_le Zraw) as Hrl. fold s n in Hrl.
  assert (Hn : 1 <= n) by (apply ceil_div_pos; lia).
  split; [lia|].
  pose (P := fun (k : Z) (st : num * num) =>
    (k = 0 /\ st = (PInf, NInf))
    \/ (1 <= k /\ exists lo hi : R,
          st = (Fin lo, Fin hi)
          /\ (forall q, 0 <= q < k -> (lo <= val (q * s)%Z <= hi)%R)
          /\ (exists q, 0 <= q < k /\ lo = val (q * s))
          /\ (exists q, 0 <= q < k /\ hi = val (q * s)))).
  assert (HP : P n (elevation_range Zraw)).
  { unfold elevation_range.
    change 0 with (0 * s) at 1.
    apply (range_loop_ind P Zraw); [| fold s n; lia | fold s n; lia | left; split; reflexivity].
    fold s n. intros k minV maxV Hk HPk.
    assert (Hget : get Zraw (k * s) = Fin (val (k * s))).
    { apply get_lookup; [nia|]. apply Hval. nia. }
    rewrite Hget. cbv zeta. right. split; [lia|].
    destruct HPk as [[-> E] | (Hk1 & lo & hi & E & Hall & (ql & Hql & El) & (qh & Hqh & Eh))].
    - injection E as -> ->. cbn [num_lt num_gt].
      exists (val (0 * s)), (val (0 * s)). split; [reflexivity|].
      split; [|split].
      + intros q Hq. replace q with 0 by lia. lra.
      + exists 0. split; [lia | reflexivity].
      + exists 0. split; [lia | reflexivity].
    - injection E as -> ->. unfold num_gt. cbn [num_lt].
      assert (Hlohi : (lo <= hi)%R) by (specialize (Hall ql ltac:(lia)); lra).
      destruct (Rlt_dec (val (k * s)) lo) as [Hlt|Hge];
        destruct (Rlt_dec hi (val (k * s))) as [Hgt|Hle];
        eexists _, _; (split; [reflexivity|]); (split; [|split]).
      all: try (intros q Hq; destruct (Z.eq_dec q k) as [->|Hqk];
                [lra | specialize (Hall q ltac:(lia)); lra]).
      all: try (exists k; split; [lia | reflexivity]).
      all: try (exists ql; split; [lia | exact El]).
      all: try (exists qh; split; [lia | exact Eh]). }
  destruct HP as [[Hn0 _] | (_ & lo & hi & E & Hall & Hlo & Hhi)]; [lia|].
  exists lo, hi. split; [exact E|]. split; [exact Hall|].
  split; [exact Hlo|]. split; [exact Hhi|].
  intros Hsmall j Hj.
  assert (Hs1 : s = 1).
  { subst s. unfold range_stride. cbn [Math_max MinMax_Z].
    pose proof (Z.div_lt_upper_bound (Z.of_nat (length Zraw)) 500000 2 ltac:(lia) ltac:(lia)).
    pose proof (Z.div_pos (Z.of_nat (length Zraw)) 500000 ltac:(lia) ltac:(lia)).
    lia. }
  assert (Hnl : n = Z.of_nat (length Zraw)).
  { subst n. rewrite Hs1. apply ceil_div_1. }
  specialize (Hall j ltac:(lia)). rewrite Hs1, Z.mul_1_r in Hall. exact Hall.
Qed.

Lemma elevation_range_spec_witness :
  exists lo hi : R,
    elevation_range test3_Z = (Fin lo, Fin hi)
    /\ (forall j, 0 <= j < 9 -> (lo <= IZR j <= hi)%R).
Proof.
  destruct (elevation_range_spec test3_Z IZR) as (_ & lo & hi & E & _ & _ & _ & Hall).
  - intros j Hj.
    assert (Hc : j = 0 \/ j = 1 \/ j = 2 \/ j = 3 \/ j = 4 \/ j = 5 \/ j = 6
                 \/ j = 7 \/ j = 8) by (cbn [test3_Z length] in Hj; lia).
    repeat destruct Hc as [-> | Hc]; try subst j; reflexivity.
  - cbn [test3_Z length]. lia.
  - exists lo, hi. split; [exact E|]. intros j Hj. apply Hall.
    + cbn [test3_Z length]. lia.
    + cbn [test3_Z length]. lia.
Defined.

Lemma range_loop_off_stride (Zraw : list num) (j : nat) (v : num) :
  Z.of_nat j mod range_stride Zraw <> 0 ->
  forall (fuel : nat) (i : Z) (st : num * num),
    i mod range_stride Zraw = 0 ->
    range_loop fuel (<[j := v]> Zraw) i st = range_loop fuel Zraw i st.
Proof.
  intros Hj. pose proof (range_stride_pos Zraw) as Hs.
  assert (Hstride : range_stride (<[j := v]> Zraw) = range_stride Zraw).
  { unfold range_stride. rewrite length_insert. reflexivity. }
  induction fuel as [|fuel IH]; intros i st Hi; [reflexivity|].
  cbn [range_loop]. rewrite length_insert, Hstride.
  destruct (i <? Z.of_nat (length Zraw)); [|reflexivity].
  assert (Hget : get (<[j := v]> Zraw) i = get Zraw i).
  { unfold get. destruct (Z.ltb_spec i 0); [reflexivity|].
    rewrite list_lookup_insert_ne; [reflexivity|].
    intros ->. apply Hj. rewrite Z2Nat.id by lia. exact Hi. }
  rewrite Hget. destruct st as [minV maxV]. apply IH.
  rewrite <- (Z.mul_1_l (range_stride Zraw)) at 1.
  rewrite Z.mod_add by lia. exact Hi.
Qed.

(** X19: what the displayed range does not see.  An element whose index is
    not a multiple of the stride is never read: whatever is stored there,
    the range stays the same.  (With 1,000,000 elements or more the stride
    is at least 2, so the extremes of the array may be missed.) *)
Theorem elevation_range_off_stride (Zraw : list num) (j : nat) (v : num) :
  Z.of_nat j mod range_stride Zraw <> 0 ->
  elevation_range (<[j := v]> Zraw) = elevation_range Zraw.
Proof.
  intros Hj. unfold elevation_range. rewrite length_insert.
  apply range_loop_off_stride; [exact Hj|]. apply Z.mod_0_l.
  pose proof (range_stride_pos Zraw). lia.
Qed.

Lemma elevation_range_off_stride_witness :
  let Zraw := replicate (Z.to_nat 1000000) (Fin 0) in
  range_stride Zraw = 2
  /\ elevation_range (<[1%nat := Fin (-9000)]> Zraw) = elevation_range Zraw.
Proof.
  intros Zraw.
  assert (Hs : range_stride Zraw = 2).
  { unfold range_stride, Zraw. rewrite length_replicate, Z2Nat.id by lia.
    reflexivity. }
  split; [exact Hs|].
  apply elevation_range_off_stride. rewrite Hs. discriminate.
Defined.

(** ** The choice of the variables *)

Lemma starts_with_spec (s c : list Ascii.ascii) :
  starts_with s c = true <-> exists post, s = c ++ post.
Proof.
  revert s. induction c as [|x c IH]; intros s.
  - split; [intros _; exists s; reflexivity | intros _; destruct s; reflexivity].
  - destruct s as [|y s]; cbn [starts_with].
    + split; [discriminate | intros [post E]; discriminate].
    + rewrite andb_true_iff, IH. split.
      * intros [Hxy [post ->]]. apply Ascii.eqb_eq in Hxy. subst y.
        exists post. reflexivity.
      * intros [post E]. injection E as -> ->. split.
        -- apply Ascii.eqb_refl.
        -- exists post. reflexivity.
Qed.

Lemma includes_spec (s c : list Ascii.ascii) :
  includes s c = true <-> exists pre post, s = pre ++ c ++ post.
Proof.
  induction s as [|y s IH]; cbn [includes]; rewrite orb_true_iff, starts_with_spec.
  - split.
    + intros [[post E] | H]; [|discriminate]. exists [], post. exact E.
    + intros (pre & post & E). left. destruct pre; [|discriminate].
      exists post. exact E.
  - rewrite IH. split.
    + intros [[post E] | (pre & post & E)].
      * exists [], post. exact E.
      * exists (y :: pre), post. rewrite E. reflexivity.
    + intros (pre & post & E). destruct pre as [|y' pre].
      * left. exists post. exact E.
      * right. injection E as -> ->. exists pre, post. reflexivity.
Qed.

Lemma find_spec {A : Type} (f : A -> bool) (l : list A) :
  match find f l with
  | Some x => exists before after,
                l = before ++ x :: after /\ f x = true
                /\ forall k, k ∈ before -> f k = false
  | None => forall k, k ∈ l -> f k = false
  end.
Proof.
  induction l as [|a l IH]; cbn [find].
  - intros k Hk. inversion Hk.
  - destruct (f a) eqn:Ea.
    + exists [], l. split; [reflexivity|]. split; [exact Ea|].
      intros k Hk. inversion Hk.
    + destruct (find f l) as [x|].
      * destruct IH as (before & after & -> & Hx & Hb).
        exists (a :: before), after. split; [reflexivity|]. split; [exact Hx|].
        intros k Hk. apply elem_of_cons in Hk as [->|Hk]; [exact Ea | apply Hb, Hk].
      * intros k Hk. apply elem_of_cons in Hk as [->|Hk]; [exact Ea | apply IH, Hk].
Qed.

Lemma some_includes_spec (cands : list (list Ascii.ascii)) (k : list Ascii.ascii) :
  existsb (fun c => includes (toLowerCase k) c) cands = true
  <-> exists c, c ∈ cands /\ exists pre post, toLowerCase k = pre ++ c ++ post.
Proof.
  rewrite existsb_exists. split.
  - intros (c & Hc & Hi). exists c. split; [apply list_elem_of_In, Hc|].
    apply includes_spec, Hi.
  - intros (c & Hc & Hi). exists c. split; [apply list_elem_of_In, Hc|].
    apply includes_spec, Hi.
Qed.

Lemma first_unique {A : Type} (P : A -> Prop) (before : list A) (key : A)
    (after before' : list A) (key' : A) (after' : list A) :
  before ++ key :: after = before' ++ key' :: after' ->
  P key -> P key' ->
  (forall k, k ∈ before -> ~ P k) -> (forall k, k ∈ before' -> ~ P k) ->
  key = key'.
Proof.
  intros E Hkey Hkey'. revert before' E.
  induction before as [|b before IH]; intros before' E Hb Hb'.
  - destruct before' as [|b' before']; cbn [app] in E.
    + congruence.
    + exfalso. apply (Hb' b'); [apply list_elem_of_here | congruence].
  - destruct before' as [|b' before']; cbn [app] in E.
    + exfalso. apply (Hb b); [apply list_elem_of_here | congruence].
    + apply (IH before').
      * congruence.
      * intros k Hk. apply Hb, list_elem_of_further, Hk.
      * intros k Hk. apply Hb', list_elem_of_further, Hk.
Qed.

(** X20: the choice of a variable.  With candidates that are not empty,
    [findFirst] gives the first key, in the order of the file, whose
    lower-cased name contains one of the candidates as a substring, and
    nothing exactly when no key does.  The key need not be, or start with,
    the candidate. *)
Theorem findFirst_spec (rootKeys cands : list (list Ascii.ascii)) :
  [] ∉ cands ->
  let matches (k : list Ascii.ascii) :=
    exists c, c ∈ cands /\ exists pre post, toLowerCase k = pre ++ c ++ post in
  (forall key, findFirst rootKeys cands = Some key ->
     exists before after,
       rootKeys = before ++ key :: after /\ matches key
       /\ forall k, k ∈ before -> ~ matches k)
  /\ (findFirst rootKeys cands = None <-> forall k, k ∈ rootKeys -> ~ matches k)
  /\ (forall before key after,
        rootKeys = before ++ key :: after -> matches key ->
        (forall k, k ∈ before -> ~ matches k) ->
        findFirst rootKeys cands = Some key).
Proof.
  intros Hne matches.
  assert (Hm : forall k,
    existsb (fun c => includes (toLowerCase k) c) cands = true <-> matches k)
    by (intros k; apply some_includes_spec).
  assert (Hnm : forall k,
    existsb (fun c => includes (toLowerCase k) c) cands = false <-> ~ matches k).
  { intros k. rewrite <- Hm. destruct (existsb _ cands); split; congruence. }
  assert (Hempty : ~ matches []).
  { intros (c & Hc & pre & post & E). cbn in E.
    destruct pre; [|discriminate]. destruct c; [|discriminate].
    apply Hne, Hc. }
  pose proof (find_spec (fun k => existsb (fun c => includes (toLowerCase k) c) cands)
                rootKeys) as Hf.
  unfold findFirst.
  destruct (find _ rootKeys) as [key|].
  - destruct Hf as (before & after & E & Hkey & Hb).
    apply Hm in Hkey.
    assert (Hk : key <> []) by (intros ->; exact (Hempty Hkey)).
    assert (Hres : match key with [] => None | _ :: _ => Some key end = Some key)
      by (destruct key; [contradiction | reflexivity]).
    rewrite Hres. split; [|split].
    + intros key' [= <-]. exists before, after. split; [exact E|].
      split; [exact Hkey|]. intros k Hk'. apply Hnm, Hb, Hk'.
    + split; [discriminate|]. intros Hall. exfalso.
      apply (Hall key); [|exact Hkey]. rewrite E. apply elem_of_app. right.
      apply list_elem_of_here.
    + intros before' key' after' E' Hkey' Hb'. f_equal.
      rewrite E in E'.
      apply (first_unique matches before key after before' key' after' E' Hkey Hkey');
        [|exact Hb'].
      intros k Hk'. apply Hnm, Hb, Hk'.
  - split; [|split].
    + discriminate.
    + split; [|reflexivity]. intros _ k Hk. apply Hnm, Hf, Hk.
    + intros before key after E Hkey _. exfalso.
      assert (Hin : key ∈ rootKeys).
      { rewrite E. apply elem_of_app. right. apply list_elem_of_here. }
      apply Hf in Hin. apply Hnm in Hin. exact (Hin Hkey).
Qed.

Lemma findFirst_spec_witness :
  findFirst [str "Bathymetry"; str "lat"; str "lon"] latCandidates
  = Some (str "Bathymetry").
Proof.
  destruct (findFirst_spec [str "Bathymetry"; str "lat"; str "lon"] latCandidates)
    as (_ & _ & H).
  - vm_compute. intros Hin.
    repeat (apply elem_of_cons in Hin as [Hin|Hin]; [discriminate|]).
    inversion Hin.
  - apply (H [] (str "Bathymetry") [str "lat"; str "lon"] eq_refl).
    + exists (str "y"). split.
      * unfold latCandidates. do 2 apply list_elem_of_further. apply list_elem_of_here.
      * exists (str "bath"), (str "metry"). reflexivity.
    + intros k Hk. inversion Hk.
Defined.

Lemma find_ext {A : Type} (f g : A -> bool) (l : list A) :
  (forall x, f x = g x) -> find f l = find g l.
Proof.
  intros Hfg. induction l as [|a l IH]; [reflexivity|].
  cbn [find]. rewrite Hfg, IH. reflexivity.
Qed.

(** X21: the candidates have no priority among themselves: listing the
    same candidates in another order, or more than once, changes nothing
    to the key that is chosen. *)
Theorem findFirst_candidate_order (rootKeys cands cands' : list (list Ascii.ascii)) :
  (forall c, c ∈ cands <-> c ∈ cands') ->
  findFirst rootKeys cands' = findFirst rootKeys cands.
Proof.
  intros Hsame. unfold findFirst.
  rewrite (find_ext (fun k => existsb (fun c => includes (toLowerCase k) c) cands')
             (fun k => existsb (fun c => includes (toLowerCase k) c) cands));
    [reflexivity|].
  intros k.
  pose proof (some_includes_spec cands k) as H1.
  pose proof (some_includes_spec cands' k) as H2.
  destruct (existsb _ cands') eqn:E'; destruct (existsb _ cands) eqn:E; try reflexivity.
  - exfalso. destruct (proj1 H2 eq_refl) as (c & Hc & Hi).
    assert (Ht : false = true); [|discriminate].
    apply H1. exists c. split; [apply Hsame, Hc | exact Hi].
  - exfalso. destruct (proj1 H1 eq_refl) as (c & Hc & Hi).
    assert (Ht : false = true); [|discriminate].
    apply H2. exists c. split; [apply Hsame, Hc | exact Hi].
Qed.

Lemma findFirst_candidate_order_witness :
  findFirst [str "lat"; str "Y"] [str "y"; str "latitude"; str "lat"]
  = findFirst [str "lat"; str "Y"] latCandidates.
Proof.
  apply findFirst_candidate_order. intros c. unfold latCandidates.
  rewrite !elem_of_cons. tauto.
Defined.
